(** * NEToolKit: the NEAT genome, innovation pool and driver, embedded in Rocq

    The development follows [genome.cpp] and [base_neat.cpp].  Identifiers
    (neuron ids, innovation numbers, sizes) are unsigned machine integers in
    the source; they are naturals here, and every place where the source
    computes [a - b] on unsigned values is listed together with the condition
    under which no wrap-around happens.  Weights and fitnesses are [double] in
    the source; they are exact rationals here (comparisons are exact on both
    sides, rounding is not modelled), with a separate not-a-number result
    where the source divides zero by zero. *)

From Stdlib Require Import QArith Qabs Lia Lqa ZArith.
From stdpp Require Import base list gmap sorting.

Open Scope nat_scope.

(** ** Primitive types *)

Definition neuron_id_t := nat.
Definition innov_num_t := nat.
Definition neuron_value_t := Q.

(** [genome::BIAS_ID] *)
Definition BIAS_ID : neuron_id_t := 0.

(** ** Gene *)

(** Modelled from the spec: [gene.h] is not among the sources.  A gene is the
    tuple (innov, from, to, weight, enabled) of the data model. *)
Record gene := mk_gene {
  innov_num : innov_num_t;
  from : neuron_id_t;
  to : neuron_id_t;
  weight : neuron_value_t;
  enabled : bool
}.

(** Modelled from the spec: the four-argument constructor
    [gene(innov, from, to, weight)] used by the mutations; a new gene denotes
    a live synapse. *)
Definition new_gene (i : innov_num_t) (f t : neuron_id_t) (w : neuron_value_t) : gene :=
  mk_gene i f t w true.

Definition set_weight (w : neuron_value_t) (g : gene) : gene :=
  mk_gene (innov_num g) (from g) (to g) w (enabled g).

Definition set_enabled (b : bool) (g : gene) : gene :=
  mk_gene (innov_num g) (from g) (to g) (weight g) b.

#[global] Instance gene_inhabited : Inhabited gene :=
  populate (mk_gene 0 0 0 0%Q false).

(** ** Innovation records and the innovation pool *)

Inductive innov_type := NEW_LINK | NEW_NEURON.

#[global] Instance innov_type_eq_dec : EqDecision innov_type.
Proof. solve_decision. Defined.

#[global] Instance innov_type_countable : Countable innov_type :=
  inj_countable'
    (fun k => match k with NEW_LINK => false | NEW_NEURON => true end)
    (fun b : bool => if b then NEW_NEURON else NEW_LINK)
    (fun k => match k with NEW_LINK => eq_refl | NEW_NEURON => eq_refl end).

(** Modelled from the spec: [innovation.h] is not among the sources.  The
    record has the fields the genome reads: [innov_num], [innov_num_2],
    [from], [to], [new_neuron_id]. *)
Record innovation := mk_innovation {
  inn_type : innov_type;
  inn_innov_num : innov_num_t;
  inn_innov_num_2 : innov_num_t;
  inn_from : neuron_id_t;
  inn_to : neuron_id_t;
  inn_new_neuron_id : neuron_id_t
}.

(** Modelled from the spec: [innovation::new_link_innovation]. *)
Definition new_link_innovation (i : innov_num_t) (f t : neuron_id_t) : innovation :=
  mk_innovation NEW_LINK i 0 f t 0.

(** Modelled from the spec: [innovation::new_neuron_innovation]. *)
Definition new_neuron_innovation (i1 i2 : innov_num_t) (f t h : neuron_id_t) : innovation :=
  mk_innovation NEW_NEURON i1 i2 f t h.

(** Modelled from the spec: the innovation pool ([innovation.cpp] is not among
    the sources).  It carries the next innovation counter, the next
    hidden-neuron counter, a registry of canonical genes keyed by (from, to)
    and a registry of innovations keyed by (kind, from, to); in both
    registries the first write wins. *)
Record innovation_pool := mk_pool {
  m_next_innovation : innov_num_t;
  m_next_hidden_neuron_id : neuron_id_t;
  m_all_genes : gmap (neuron_id_t * neuron_id_t) gene;
  m_all_innovations : gmap (innov_type * neuron_id_t * neuron_id_t) innovation
}.

(** Modelled from the spec: [next_innovation() -> InnovationNumber] returns
    and increments. *)
Definition next_innovation (p : innovation_pool) : innov_num_t * innovation_pool :=
  (m_next_innovation p,
   mk_pool (S (m_next_innovation p)) (m_next_hidden_neuron_id p)
           (m_all_genes p) (m_all_innovations p)).

(** Modelled from the spec: [next_hidden_neuron() -> NeuronId] returns and
    increments the hidden-neuron counter. *)
Definition next_hidden_neuron_id (p : innovation_pool) : neuron_id_t * innovation_pool :=
  (m_next_hidden_neuron_id p,
   mk_pool (m_next_innovation p) (S (m_next_hidden_neuron_id p))
           (m_all_genes p) (m_all_innovations p)).

(** Modelled from the spec: [find_gene(from, to)] is the canonical gene
    recorded for that directed pair. *)
Definition find_gene (p : innovation_pool) (f t : neuron_id_t) : option gene :=
  m_all_genes p !! (f, t).

(** Modelled from the spec: [register_gene(g)] is idempotent by (from, to);
    the first write wins. *)
Definition register_gene (g : gene) (p : innovation_pool) : innovation_pool :=
  match m_all_genes p !! (from g, to g) with
  | Some _ => p
  | None =>
      mk_pool (m_next_innovation p) (m_next_hidden_neuron_id p)
              (<[(from g, to g) := g]> (m_all_genes p)) (m_all_innovations p)
  end.

(** Modelled from the spec: [find_innovation(kind, from, to)]. *)
Definition find_innovation (p : innovation_pool) (k : innov_type) (f t : neuron_id_t)
  : option innovation :=
  m_all_innovations p !! (k, f, t).

(** Modelled from the spec: [register_innovation(rec)], first write wins,
    keyed by (kind, from, to). *)
Definition register_innovation (r : innovation) (p : innovation_pool) : innovation_pool :=
  match m_all_innovations p !! (inn_type r, inn_from r, inn_to r) with
  | Some _ => p
  | None =>
      mk_pool (m_next_innovation p) (m_next_hidden_neuron_id p) (m_all_genes p)
              (<[(inn_type r, inn_from r, inn_to r) := r]> (m_all_innovations p))
  end.

(** The canonical genes of [p] are still the canonical genes of [p']. *)
Definition keeps_genes (p p' : innovation_pool) : Prop :=
  forall f t c, find_gene p f t = Some c -> find_gene p' f t = Some c.

(** The registries are keyed consistently: an entry found under a key carries
    that key in its own fields. *)
Definition pool_wf (p : innovation_pool) : Prop :=
  (forall f t c, find_gene p f t = Some c -> from c = f /\ to c = t) /\
  (forall k f t r, find_innovation p k f t = Some r ->
                   inn_type r = k /\ inn_from r = f /\ inn_to r = t).

(** [p'] extends [p]: canonical genes stay, and consistency of the keys is
    kept. *)
Definition pool_ext (p p' : innovation_pool) : Prop :=
  keeps_genes p p' /\ (pool_wf p -> pool_wf p').

(** The pool of a fresh driver: counters at their seeds, empty registries. *)
Definition empty_pool (first_innov first_hidden : nat) : innovation_pool :=
  mk_pool first_innov first_hidden ∅ ∅.

(** ** Parameters *)

(** Modelled from the spec: [parameters.h] is not among the sources; the
    fields are the ones [genome.cpp] and [base_neat.cpp] read. *)
Record parameters := mk_parameters {
  number_of_inputs : nat;
  number_of_outputs : nat;
  compatibility_threshold : Q;
  dynamic_compatibility_threshold : bool;
  distance_coef_c1 : Q;
  distance_coef_c2 : Q;
  distance_coef_c3 : Q;
  mutation_add_link_weight : nat;
  mutation_add_neuron_weight : nat;
  mutation_all_weights_weight : nat;
  mutation_one_weight_weight : nat;
  mutation_reset_weights_weight : nat;
  mutation_remove_gene_weight : nat;
  mutation_reenable_gene_weight : nat;
  mutation_toggle_enable_weight : nat;
  initial_weight_perturbation : Q;
  weight_mutation_power : Q;
  best_genomes_library_max_size : nat
}.

(** Modelled from the spec: [parameters::sum_all_mutation_weights()], the sum
    of the selection weights of the eight operators. *)
Definition sum_all_mutation_weights (p : parameters) : nat :=
  mutation_add_link_weight p + mutation_add_neuron_weight p
  + mutation_all_weights_weight p + mutation_one_weight_weight p
  + mutation_reset_weights_weight p + mutation_remove_gene_weight p
  + mutation_reenable_gene_weight p + mutation_toggle_enable_weight p.

(** ** Random engines and distributions

    An engine state is the sequence of raw values it will still produce; an
    exhausted sequence keeps producing 0.  Every behaviour of a real engine is
    the behaviour of some such sequence, so a statement quantified over all
    sequences covers every seed. *)

Definition engine := list nat.

Definition engine_next (e : engine) : nat * engine :=
  match e with
  | [] => (0, [])
  | x :: e' => (x, e')
  end.

(** [std::uniform_int_distribution<..>(lo, hi)(e)]: one raw value, reduced
    into [lo .. hi]. *)
Definition uniform_int (lo hi : nat) (e : engine) : nat * engine :=
  let '(x, e') := engine_next e in (lo + x mod (hi - lo + 1), e').

(** Resolution of the unit interval used for real-valued draws. *)
Definition REAL_STEPS : Z := 1000000.

(** [std::uniform_real_distribution<..>(lo, hi)(e)]: one raw value, mapped
    into [lo, hi). *)
Definition uniform_real (lo hi : Q) (e : engine) : Q * engine :=
  let '(x, e') := engine_next e in
  ((lo + (hi - lo) * (inject_Z (Z.of_nat x mod REAL_STEPS)
                      / inject_Z REAL_STEPS))%Q, e').

(** [std::shuffle(first, last, g)]: a selection shuffle; each step draws the
    position of the next element among the remaining ones. *)
Fixpoint shuffle (n : nat) (l : list nat) (g : engine) : list nat * engine :=
  match n with
  | 0 => ([], g)
  | S n' =>
      match l with
      | [] => ([], g)
      | _ :: _ =>
          let '(k, g1) := uniform_int 0 (length l - 1) g in
          let '(r, g2) := shuffle n' (delete k l) g1 in
          (l !!! k :: r, g2)
      end
  end.

(** ** The driver as the genome sees it through [m_neat] *)

Record neat := mk_neat {
  params : parameters;
  innov_pool : innovation_pool;
  rand_engine : engine
}.

Definition set_rand_engine (e : engine) (n : neat) : neat :=
  mk_neat (params n) (innov_pool n) e.

Definition set_innov_pool (p : innovation_pool) (n : neat) : neat :=
  mk_neat (params n) p (rand_engine n).

(** ** Genome *)

Record genome := mk_genome {
  m_number_of_inputs : nat;
  m_number_of_outputs : nat;
  m_genes : list gene;
  m_known_neuron_ids : list neuron_id_t;
  m_fitness : Q
}.

Definition set_genes (gs : list gene) (self : genome) : genome :=
  mk_genome (m_number_of_inputs self) (m_number_of_outputs self) gs
            (m_known_neuron_ids self) (m_fitness self).

(** [genome::genome(neat* neat_instance)]: bias, then the inputs, then the
    outputs. *)
Definition genome_ctor (n : neat) : genome :=
  let I := number_of_inputs (params n) in
  let O := number_of_outputs (params n) in
  mk_genome I O []
    ([BIAS_ID] ++ map (fun i => i + 1) (seq 0 I) ++ map (fun i => i + 1 + I) (seq 0 O))
    0%Q.

(** [genome::genome(genome&&)]: genes and known neurons are taken over, the
    fitness member is initialised with 0. *)
Definition genome_move (other : genome) : genome :=
  mk_genome (m_number_of_inputs other) (m_number_of_outputs other)
            (m_genes other) (m_known_neuron_ids other) 0%Q.

(** [std::find(ks.begin(), ks.end(), x) == ks.end()] *)
Definition not_found (x : neuron_id_t) (ks : list neuron_id_t) : bool :=
  negb (existsb (Nat.eqb x) ks).

(** [genome::add_gene] *)
Definition add_gene (g : gene) (self : genome) : genome :=
  let ks1 := if not_found (from g) (m_known_neuron_ids self)
             then m_known_neuron_ids self ++ [from g]
             else m_known_neuron_ids self in
  let ks2 := if not_found (to g) ks1 then ks1 ++ [to g] else ks1 in
  mk_genome (m_number_of_inputs self) (m_number_of_outputs self)
            (m_genes self ++ [g]) ks2 (m_fitness self).

(** [genome::link_exists] *)
Definition link_exists (self : genome) (f t : neuron_id_t) : bool :=
  existsb (fun g => Nat.eqb (from g) f && Nat.eqb (to g) t) (m_genes self).

(** The known-neurons vector holds both endpoints of every gene. *)
Definition endpoints_known (self : genome) : Prop :=
  forall x, x ∈ m_genes self ->
            from x ∈ m_known_neuron_ids self /\ to x ∈ m_known_neuron_ids self.

(** The known-neurons vector holds the bias, the inputs and at least one
    more neuron. *)
Definition known_wf (self : genome) : Prop :=
  m_number_of_inputs self + 2 <= length (m_known_neuron_ids self).

(** The genome made of the given genes: [add_gene] for each of them, in order,
    on a genome without genes. *)
Definition genome_of_genes (n_in n_out : nat) (gs : list gene) : genome :=
  foldl (fun self x => add_gene x self)
        (mk_genome n_in n_out []
           ([BIAS_ID] ++ map (fun i => i + 1) (seq 0 n_in)
            ++ map (fun i => i + 1 + n_in) (seq 0 n_out)) 0%Q) gs.

(** ** Mutation operators

    Every operator returns its [bool] result together with the genome and the
    driver state it leaves behind. *)

(** [genome::mutate_add_link].  The two subtractions on sizes do not wrap as
    long as the known-neuron vector holds the bias, the inputs and at least
    one more neuron, which the constructor establishes for one output or
    more. *)
Definition mutate_add_link (self : genome) (n : neat) : bool * genome * neat :=
  let ks := m_known_neuron_ids self in
  let '(from_, e1) := uniform_int 0 (length ks - 1) (rand_engine n) in
  let '(d, e2) := uniform_int 0 (length ks - m_number_of_inputs self - 2) e1 in
  let to_ := d + m_number_of_inputs self + 1 in
  if link_exists self (ks !!! from_) (ks !!! to_) then
    (false, self, set_rand_engine e2 n)
  else
    let p := initial_weight_perturbation (params n) in
    match find_gene (innov_pool n) (ks !!! from_) (ks !!! to_) with
    | Some existing_gene =>
        let '(w, e3) := uniform_real (- p) p e2 in
        let copied_gene := set_weight w existing_gene in
        (true, add_gene copied_gene self, set_rand_engine e3 n)
    | None =>
        let '(i, pool1) := next_innovation (innov_pool n) in
        let '(w, e3) := uniform_real (- p) p e2 in
        let g := new_gene i (ks !!! from_) (ks !!! to_) w in
        let pool2 := register_gene g pool1 in
        let pool3 :=
          register_innovation
            (new_link_innovation (innov_num g) (from g) (to g)) pool2 in
        (true, add_gene g self, mk_neat (params n) pool3 e3)
    end.

(** [genome::mutate_add_neuron].  The candidate order comes from the
    function-local [static std::mt19937 g(rd())], whose state [g] is threaded
    separately from the driver: it is not a member of [neat]. *)
Definition mutate_add_neuron (g : engine) (self : genome) (n : neat)
  : bool * genome * neat * engine :=
  let '(candidates_idx, g') :=
    shuffle (length (m_genes self)) (seq 0 (length (m_genes self))) g in
  match find (fun idx => enabled (m_genes self !!! idx)) candidates_idx with
  | None => (false, self, n, g')
  | Some sel_idx =>
      let self1 := set_genes (alter (set_enabled false) sel_idx (m_genes self)) self in
      let sel := fun s : genome => m_genes s !!! sel_idx in
      match find_innovation (innov_pool n) NEW_NEURON (from (sel self1)) (to (sel self1)) with
      | Some ex =>
          let self2 :=
            add_gene (new_gene (inn_innov_num ex) (inn_from ex)
                               (inn_new_neuron_id ex) (weight (sel self1))) self1 in
          let self3 :=
            add_gene (new_gene (inn_innov_num_2 ex) (inn_new_neuron_id ex)
                               (inn_to ex) (weight (sel self2))) self2 in
          (true, self3, n, g')
      | None =>
          let '(new_neuron_id, pool1) := next_hidden_neuron_id (innov_pool n) in
          let '(i1, pool2) := next_innovation pool1 in
          let new_gene_1 := new_gene i1 (from (sel self1)) new_neuron_id (weight (sel self1)) in
          let '(i2, pool3) := next_innovation pool2 in
          let new_gene_2 := new_gene i2 new_neuron_id (to (sel self1)) (weight (sel self1)) in
          let pool4 := register_gene new_gene_1 pool3 in
          let pool5 := register_gene new_gene_2 pool4 in
          let pool6 :=
            register_innovation
              (new_neuron_innovation (innov_num new_gene_1) (innov_num new_gene_2)
                 (from (sel self1)) (to (sel self1)) new_neuron_id) pool5 in
          let self2 := add_gene new_gene_1 self1 in
          let self3 := add_gene new_gene_2 self2 in
          (true, self3, set_innov_pool pool6 n, g')
      end
  end.

(** Indices of the disabled genes, in gene order: the [candidates] vector of
    [mutate_reenable_gene]. *)
Definition disabled_candidates (gs : list gene) : list nat :=
  List.filter (fun i => negb (enabled (gs !!! i))) (seq 0 (length gs)).

(** [genome::mutate_reenable_gene] *)
Definition mutate_reenable_gene (self : genome) (n : neat) : bool * genome * neat :=
  let candidates := disabled_candidates (m_genes self) in
  match candidates with
  | [] => (false, self, n)
  | _ :: _ =>
      let '(k, e1) := uniform_int 0 (length candidates - 1) (rand_engine n) in
      (true,
       set_genes (alter (set_enabled true) (candidates !!! k) (m_genes self)) self,
       set_rand_engine e1 n)
  end.

(** [genome::mutate_toggle_enable] *)
Definition mutate_toggle_enable (self : genome) (n : neat) : bool * genome * neat :=
  match m_genes self with
  | [] => (false, self, n)
  | _ :: _ =>
      let '(rnd_val, e1) := uniform_int 0 (length (m_genes self) - 1) (rand_engine n) in
      (true,
       set_genes (alter (fun x => set_enabled (negb (enabled x)) x) rnd_val (m_genes self)) self,
       set_rand_engine e1 n)
  end.

(** [genome::mutate_one_weight] *)
Definition mutate_one_weight (self : genome) (n : neat) : bool * genome * neat :=
  match m_genes self with
  | [] => (false, self, n)
  | _ :: _ =>
      let p := weight_mutation_power (params n) in
      let '(rnd_val, e1) := uniform_int 0 (length (m_genes self) - 1) (rand_engine n) in
      let '(d, e2) := uniform_real (- p) p e1 in
      (true,
       set_genes (alter (fun x => set_weight (weight x + d)%Q x) rnd_val (m_genes self)) self,
       set_rand_engine e2 n)
  end.

(** The loop [for (gene& g : m_genes) g.weight = f(g.weight, perturbator(e))]. *)
Fixpoint perturb_each (f : Q -> Q -> Q) (lo hi : Q) (gs : list gene) (e : engine)
  : list gene * engine :=
  match gs with
  | [] => ([], e)
  | x :: gs' =>
      let '(d, e1) := uniform_real lo hi e in
      let '(r, e2) := perturb_each f lo hi gs' e1 in
      (set_weight (f (weight x) d) x :: r, e2)
  end.

(** [genome::mutate_all_weights] *)
Definition mutate_all_weights (self : genome) (n : neat) : bool * genome * neat :=
  let p := weight_mutation_power (params n) in
  let '(gs, e1) := perturb_each Qplus (- p) p (m_genes self) (rand_engine n) in
  (true, set_genes gs self, set_rand_engine e1 n).

(** [genome::mutate_reset_weights] *)
Definition mutate_reset_weights (self : genome) (n : neat) : bool * genome * neat :=
  let p := initial_weight_perturbation (params n) in
  let '(gs, e1) := perturb_each (fun _ d => d) (- p) p (m_genes self) (rand_engine n) in
  (true, set_genes gs self, set_rand_engine e1 n).

(** [genome::mutate_remove_gene] *)
Definition mutate_remove_gene (self : genome) (n : neat) : bool * genome * neat :=
  match m_genes self with
  | [] => (false, self, n)
  | _ :: _ =>
      let '(k, e1) := uniform_int 0 (length (m_genes self) - 1) (rand_engine n) in
      (true, set_genes (delete k (m_genes self)) self, set_rand_engine e1 n)
  end.

(** The eight operators, for stating what a run of [random_mutate] chose. *)
Inductive mutation :=
  | AddLink | AddNeuron | AllWeights | OneWeight
  | ResetWeights | RemoveGene | ReenableGene | ToggleEnable.

(** The operators that add no gene. *)
Definition adds_no_gene (m : mutation) : bool :=
  match m with
  | AddLink | AddNeuron => false
  | _ => true
  end.

(** The cascade of [random_mutate]: which operator a selector value picks.
    Each [rnd_val -= w] runs only after [rnd_val < w] failed, so it never
    wraps. *)
Definition select_mutation (p : parameters) (rnd_val : nat) : mutation :=
  if rnd_val <? mutation_add_link_weight p then AddLink else
  let rnd_val := rnd_val - mutation_add_link_weight p in
  if rnd_val <? mutation_add_neuron_weight p then AddNeuron else
  let rnd_val := rnd_val - mutation_add_neuron_weight p in
  if rnd_val <? mutation_all_weights_weight p then AllWeights else
  let rnd_val := rnd_val - mutation_all_weights_weight p in
  if rnd_val <? mutation_one_weight_weight p then OneWeight else
  let rnd_val := rnd_val - mutation_one_weight_weight p in
  if rnd_val <? mutation_reset_weights_weight p then ResetWeights else
  let rnd_val := rnd_val - mutation_reset_weights_weight p in
  if rnd_val <? mutation_remove_gene_weight p then RemoveGene else
  let rnd_val := rnd_val - mutation_remove_gene_weight p in
  if rnd_val <? mutation_reenable_gene_weight p then ReenableGene else
  ToggleEnable.

(** The operator call each branch of [random_mutate] makes. *)
Definition apply_mutation (m : mutation) (g : engine) (self : genome) (n : neat)
  : bool * genome * neat * engine :=
  match m with
  | AddLink => (mutate_add_link self n, g)
  | AddNeuron => mutate_add_neuron g self n
  | AllWeights => (mutate_all_weights self n, g)
  | OneWeight => (mutate_one_weight self n, g)
  | ResetWeights => (mutate_reset_weights self n, g)
  | RemoveGene => (mutate_remove_gene self n, g)
  | ReenableGene => (mutate_reenable_gene self n, g)
  | ToggleEnable => (mutate_toggle_enable self n, g)
  end.

(** [genome::random_mutate].  [sum_all_mutation_weights() - 1] does not wrap
    when some operator has a positive weight. *)
Definition random_mutate (g : engine) (self : genome) (n : neat)
  : bool * genome * neat * engine :=
  let '(rnd_val, e1) :=
    uniform_int 0 (sum_all_mutation_weights (params n) - 1) (rand_engine n) in
  apply_mutation (select_mutation (params n) rnd_val) g self (set_rand_engine e1 n).

(** What one call of [get_random_mutation] leaves behind; [calls] counts the
    executions of [random_mutate] (bookkeeping of the model, read by no
    operator). *)
Record mutation_run := mk_run {
  offspring : genome;
  run_ok : bool;
  run_neat : neat;
  run_static : engine;
  calls : nat
}.

(** The loop [while (!offspring.random_mutate() && remaining_tries--) {}].
    [remaining_tries] is an [unsigned int]: the post-decrement yields the old
    value as the condition and stores the old value minus one modulo 2^32.
    [fuel] bounds the number of iterations of the model; four are enough for
    every input, as shown below. *)
Fixpoint mutate_loop (fuel : nat) (remaining_tries : Z) (calls_so_far : nat)
    (g : engine) (offspring_ : genome) (n : neat) : option mutation_run :=
  match fuel with
  | 0 => None
  | S fuel' =>
      let '(ok, offspring1, n1, g1) := random_mutate g offspring_ n in
      if ok then Some (mk_run offspring1 true n1 g1 (S calls_so_far))
      else
        let old := remaining_tries in
        let remaining_tries := ((old - 1) mod 2 ^ 32)%Z in
        if (old =? 0)%Z then Some (mk_run offspring1 false n1 g1 (S calls_so_far))
        else mutate_loop fuel' remaining_tries (S calls_so_far) g1 offspring1 n1
  end.

(** [genome::get_random_mutation]: the copy, the loop starting from
    [remaining_tries = 3], and the move out of [offspring] on return. *)
Definition get_random_mutation (fuel : nat) (g : engine) (self : genome) (n : neat)
  : option mutation_run :=
  match mutate_loop fuel 3%Z 0 g self n with
  | Some r =>
      Some (mk_run (genome_move (offspring r)) (run_ok r) (run_neat r)
                   (run_static r) (calls r))
  | None => None
  end.

(** ** Runs

    What can happen to the driver state between two mutations of a run: a
    mutation of some genome, an innovation number handed out directly (as
    [base_neat::init] does for the seed genome), or draws from the driver's
    engine by code other than the mutations. *)
Inductive run_step : neat -> neat -> Prop :=
  | step_mutation g self n b self' n' g' :
      random_mutate g self n = (b, self', n', g') -> run_step n n'
  | step_next_innovation n :
      run_step n (set_innov_pool (next_innovation (innov_pool n)).2 n)
  | step_draw n e :
      run_step n (set_rand_engine e n).

Definition run : neat -> neat -> Prop := rtc run_step.

(** ** Genetic distance *)

(** Result of a [double] expression in which zero may be divided by zero:
    a number, or not-a-number.  Arithmetic propagates [NaN]; every ordered
    comparison with [NaN] is false. *)
Inductive fp := Num (q : Q) | NaN.

Definition fp_add (a b : fp) : fp :=
  match a, b with Num x, Num y => Num (x + y) | _, _ => NaN end.

Definition fp_mul (a b : fp) : fp :=
  match a, b with Num x, Num y => Num (x * y) | _, _ => NaN end.

(** [a < b] on doubles *)
Definition fp_ltb (a b : fp) : bool :=
  match a, b with Num x, Num y => negb (Qle_bool y x) | _, _ => false end.

(** Equality of results up to the representation of the rational. *)
Definition fp_eq (a b : fp) : Prop :=
  match a, b with
  | Num x, Num y => (x == y)%Q
  | NaN, NaN => True
  | _, _ => False
  end.

Definition Q_of_nat (k : nat) : Q := inject_Z (Z.of_nat k).

(** [sum_weight_difference / nb_matching_genes]: a [double] divided by an
    [unsigned int].  With no matching gene the dividend is still its initial
    0 (lemma [merge_walk_no_match_sum] below), so the quotient is 0.0/0,
    not-a-number; an infinite quotient cannot arise. *)
Definition average_of (sum : Q) (count : nat) : fp :=
  match count with
  | 0 => NaN
  | S _ => Num (sum / Q_of_nat count)
  end.

(** The state of the first loop of [distance_to]: the two iterators (as the
    part of each gene vector still ahead) and the three accumulators the loop
    updates. *)
Record walk_state := mk_walk {
  oya1_gene_it : list gene;
  oya2_gene_it : list gene;
  nb_disjoint_genes : nat;
  nb_matching_genes : nat;
  sum_weight_difference : Q
}.

(** [while (oya1_gene_it != end1 && oya2_gene_it != end2) { ... }] *)
Fixpoint merge_walk (oya1 : list gene) : list gene -> nat -> nat -> Q -> walk_state :=
  match oya1 with
  | [] => fun oya2 d m s => mk_walk [] oya2 d m s
  | a :: oya1' =>
      fix inner (oya2 : list gene) (d m : nat) (s : Q) {struct oya2} : walk_state :=
        match oya2 with
        | [] => mk_walk (a :: oya1') [] d m s
        | b :: oya2' =>
            if innov_num a =? innov_num b then
              merge_walk oya1' oya2' d (S m) (s + Qabs (weight a - weight b))%Q
            else if innov_num a <? innov_num b then
              merge_walk oya1' (b :: oya2') (S d) m s
            else
              inner oya2' (S d) m s
        end
  end.

(** The two trailing loops: every gene still ahead on either side is an
    excess gene. *)
Definition nb_excess_genes (w : walk_state) : nat :=
  length (oya1_gene_it w) + length (oya2_gene_it w).

(** [genome::distance_to]; [n] is the driver behind [m_neat]. *)
Definition distance_to (n : neat) (self other : genome) : fp :=
  let larger_size := Nat.max (length (m_genes self)) (length (m_genes other)) in
  if larger_size <=? 4 then Num 0
  else
    let w := merge_walk (m_genes self) (m_genes other) 0 0 0%Q in
    let average_weight_difference :=
      average_of (sum_weight_difference w) (nb_matching_genes w) in
    fp_add
      (fp_add
         (Num (distance_coef_c1 (params n) * Q_of_nat (nb_excess_genes w)
               / Q_of_nat larger_size))
         (Num (distance_coef_c2 (params n) * Q_of_nat (nb_disjoint_genes w)
               / Q_of_nat larger_size)))
      (fp_mul (Num (distance_coef_c3 (params n))) average_weight_difference).

(** [genome::is_compatible_with] *)
Definition is_compatible_with (n : neat) (self other : genome) : bool :=
  fp_ltb (distance_to n self other) (Num (compatibility_threshold (params n))).

(** *** The distance as the specification words it

    Matching genes have the same innovation number in both parents; excess
    genes lie beyond the other parent's maximum; disjoint genes exist in only
    one parent and lie inside the overlap. *)

Definition has_innov (i : innov_num_t) (gs : list gene) : bool :=
  existsb (fun g => innov_num g =? i) gs.

(** [i] lies beyond every innovation number of [gs]. *)
Definition beyond (i : innov_num_t) (gs : list gene) : bool :=
  forallb (fun g => innov_num g <? i) gs.

Definition spec_matching (A B : list gene) : list gene :=
  List.filter (fun a => has_innov (innov_num a) B) A.

Definition excess_of (A B : list gene) : list gene :=
  List.filter (fun a => beyond (innov_num a) B) A.

Definition disjoint_of (A B : list gene) : list gene :=
  List.filter (fun a => negb (has_innov (innov_num a) B) && negb (beyond (innov_num a) B)) A.

Definition spec_excess (A B : list gene) : list gene := excess_of A B ++ excess_of B A.

Definition spec_disjoint (A B : list gene) : list gene := disjoint_of A B ++ disjoint_of B A.

(** Sum of |wA - wB| over the matching genes. *)
Fixpoint spec_weight_sum (A B : list gene) : Q :=
  match A with
  | [] => 0%Q
  | a :: A' =>
      (match find (fun b => innov_num b =? innov_num a) B with
       | Some b => Qabs (weight a - weight b)
       | None => 0
       end + spec_weight_sum A' B)%Q
  end.

(** Distance = c1 * excess / N + c2 * disjoint / N + c3 * avg_weight_diff with
    N = max(|A.genes|, |B.genes|), and 0 if N <= 4. *)
Definition spec_distance (n : neat) (A B : genome) : fp :=
  let N := Nat.max (length (m_genes A)) (length (m_genes B)) in
  if N <=? 4 then Num 0
  else
    fp_add
      (fp_add
         (Num (distance_coef_c1 (params n)
               * Q_of_nat (length (spec_excess (m_genes A) (m_genes B))) / Q_of_nat N))
         (Num (distance_coef_c2 (params n)
               * Q_of_nat (length (spec_disjoint (m_genes A) (m_genes B))) / Q_of_nat N)))
      (fp_mul (Num (distance_coef_c3 (params n)))
         (average_of (spec_weight_sum (m_genes A) (m_genes B))
            (length (spec_matching (m_genes A) (m_genes B))))).

(** The gene list is ordered by innovation number and holds no innovation
    number twice. *)
Definition sorted_by_innov (gs : list gene) : Prop :=
  StronglySorted lt (map innov_num gs).

(** Every gene of [gs] has an innovation number above [i]. *)
Definition all_above (i : nat) (gs : list gene) : Prop :=
  Forall (fun x => i < innov_num x) gs.

(** Some innovation number occurs in both gene lists. *)
Definition share_innovation (A B : list gene) : Prop :=
  exists a b, a ∈ A /\ b ∈ B /\ innov_num a = innov_num b.

(** ** The driver: champion lookup *)

(** [std::numeric_limits<double>::max()], the largest finite double. *)
Definition DBL_MAX : Q := inject_Z ((2 ^ 53 - 1) * 2 ^ 971).

(** [std::numeric_limits<double>::min()], the smallest positive normal
    double. *)
Definition DBL_MIN : Q := 1 / inject_Z (2 ^ 1022).

(** [a > b] on doubles *)
Definition Qgt_bool (a b : Q) : bool := negb (Qle_bool a b).

(** The loop of [get_current_best_genome] over the population;
    [champion = None] is the null pointer. *)
Fixpoint champion_loop (pop : list genome) (best_fitness_so_far : Q)
    (champion : option genome) : option genome :=
  match pop with
  | [] => champion
  | geno :: rest =>
      if Qgt_bool (m_fitness geno) best_fitness_so_far
      then champion_loop rest (m_fitness geno) (Some geno)
      else champion_loop rest best_fitness_so_far champion
  end.

(** [base_neat::get_current_best_genome] of [base_neat.cpp]: the search
    starts from [-1 * DBL_MAX].  The function returns [*champion]; [None]
    stands for the dereference of a null [champion]. *)
Definition get_current_best_genome (pop : list genome) : option genome :=
  champion_loop pop (-1 * DBL_MAX)%Q None.

Module FirstRevision.

(** [base_neat::get_current_best_genome] as the first revision of the driver
    has it (the second source file of that class): the search starts from
    [std::numeric_limits<double>::min()]. *)
Definition get_current_best_genome (pop : list genome) : option genome :=
  champion_loop pop DBL_MIN None.

End FirstRevision.

(** ** The driver: serialization *)

(** Modelled from the spec: [serializer.h] is not among the sources.  The
    stream is the sequence of values appended to it; [new_line()] only lays
    the text out in lines and appends no value. *)
Inductive token := TNat (k : nat) | TReal (q : Q) | TBool (b : bool).

Definition stream := list token.

(** Modelled from the spec: [deserializer::get_next] for the three kinds of
    value the driver reads; a value of another kind is a mismatch. *)
Definition get_next_nat (des : stream) : option (nat * stream) :=
  match des with TNat k :: des' => Some (k, des') | _ => None end.

Definition get_next_real (des : stream) : option (Q * stream) :=
  match des with TReal q :: des' => Some (q, des') | _ => None end.

Definition get_next_bool (des : stream) : option (bool * stream) :=
  match des with TBool b :: des' => Some (b, des') | _ => None end.

(** The overloaded stream operators: [put x] is what [ser << x] appends,
    [get x des] is [des >> x], which reads into the existing object [x]. *)
Class Streamed (A : Type) := {
  put : A -> stream;
  get : A -> stream -> option (A * stream)
}.

(** A lawful pair of operators: what was written is read back, and the rest
    of the stream is left in place. *)
Definition round_trips {A} `{Streamed A} (same : A -> A -> Prop) : Prop :=
  forall (x x0 : A) (rest : stream),
    exists y, get x0 (put x ++ rest) = Some (y, rest) /\ same x y.

(** Modelled from the spec: each gene is streamed as (innov, from, to,
    weight, enabled). *)
Definition put_gene (g : gene) : stream :=
  [TNat (innov_num g); TNat (from g); TNat (to g); TReal (weight g); TBool (enabled g)].

Definition get_gene (des : stream) : option (gene * stream) :=
  '(i, des) ← get_next_nat des;
  '(f, des) ← get_next_nat des;
  '(t, des) ← get_next_nat des;
  '(w, des) ← get_next_real des;
  '(e, des) ← get_next_bool des;
  Some (mk_gene i f t w e, des).

(** Reading [count] items one after the other. *)
Fixpoint get_many {A} (get_one : stream -> option (A * stream)) (count : nat)
    (des : stream) : option (list A * stream) :=
  match count with
  | 0 => Some ([], des)
  | S count' =>
      '(x, des) ← get_one des;
      '(xs, des) ← get_many get_one count' des;
      Some (x :: xs, des)
  end.

Section Driver.

(** [species.h] and the stream operators of the species, of the innovation
    pool and of the genome are not among the sources: the driver only
    stores, counts and streams species, and streams the other two. *)
Context {species : Type} `{Streamed species} `{Streamed innovation_pool}
        `{Streamed genome}.

(** [species(neat, population, id, representant)] *)
Variable species_ctor : nat -> genome -> species.

(** [base_neat], without the population (reached through [pop()]). *)
Record base_neat := mk_base_neat {
  as_neat : neat;
  m_all_species : list species;
  m_best_genomes_library : list genome;
  m_next_species_id : nat;
  m_best_genome_ever : option genome;
  m_age_of_best_genome_ever : nat
}.

(** [base_neat::base_neat(const parameters&)]; the engine is seeded from the
    clock, [seed] stands for what that seed makes of it. *)
Definition base_neat_ctor (p : parameters) (pool : innovation_pool) (seed : engine)
  : base_neat :=
  mk_base_neat (mk_neat p pool seed) [] [] 0 None 0.

(** [ser.append(value)] *)
Definition append (ser : stream) (t : token) : stream := ser ++ [t].

(** [base_neat::helper_serialize_base_neat] *)
Definition helper_serialize_base_neat (d : base_neat) (ser : stream) : stream :=
  let ser := append ser (TNat (m_next_species_id d)) in
  let ser := append ser (TNat (m_age_of_best_genome_ever d)) in
  let ser := append ser (TReal (compatibility_threshold (params (as_neat d)))) in
  let ser :=
    match m_best_genome_ever d with
    | None => append ser (TBool false)
    | Some best => append ser (TBool true) ++ put best
    end in
  let ser := append ser (TNat (length (m_all_species d))) in
  let ser := foldl (fun ser s => ser ++ put s) ser (m_all_species d) in
  let ser := append ser (TNat (length (m_best_genomes_library d))) in
  let ser := foldl (fun ser g => ser ++ put g) ser (m_best_genomes_library d) in
  ser ++ put (innov_pool (as_neat d)).

(** [params.compatibility_threshold = t] *)
Definition set_compatibility_threshold (t : Q) (p : parameters) : parameters :=
  mk_parameters (number_of_inputs p) (number_of_outputs p) t
    (dynamic_compatibility_threshold p) (distance_coef_c1 p) (distance_coef_c2 p)
    (distance_coef_c3 p) (mutation_add_link_weight p) (mutation_add_neuron_weight p)
    (mutation_all_weights_weight p) (mutation_one_weight_weight p)
    (mutation_reset_weights_weight p) (mutation_remove_gene_weight p)
    (mutation_reenable_gene_weight p) (mutation_toggle_enable_weight p)
    (initial_weight_perturbation p) (weight_mutation_power p)
    (best_genomes_library_max_size p).

(** [genome g(this); des >> g; v.push_back(std::move(g))]: the element that
    ends up in the vector is move-constructed. *)
Definition get_moved_genome (n : neat) (des : stream) : option (genome * stream) :=
  '(g, des) ← get (genome_ctor n) des;
  Some (genome_move g, des).

(** [genome dummy(this); species s(this, pop(), 0, dummy); des >> s;
    m_all_species.push_back(std::move(s))] *)
Definition get_species (n : neat) (des : stream) : option (species * stream) :=
  get (species_ctor 0 (genome_ctor n)) des.

(** [base_neat::helper_deserialize_base_neat] *)
Definition helper_deserialize_base_neat (d : base_neat) (des : stream)
  : option (base_neat * stream) :=
  '(next_species_id, des) ← get_next_nat des;
  '(age, des) ← get_next_nat des;
  '(compat_thres, des) ← get_next_real des;
  let n := as_neat d in
  let p :=
    if dynamic_compatibility_threshold (params n)
    then set_compatibility_threshold compat_thres (params n)
    else params n in
  let n := mk_neat p (innov_pool n) (rand_engine n) in
  '(has_best_genome_ever, des) ← get_next_bool des;
  '(best, des) ←
    (if has_best_genome_ever : bool then
       '(best_g, des) ← get (genome_ctor n) des;
       Some (Some (genome_move best_g), des)
     else Some (m_best_genome_ever d, des));
  '(number_of_species, des) ← get_next_nat des;
  '(all_species, des) ← get_many (get_species n) number_of_species des;
  '(number_of_genomes, des) ← get_next_nat des;
  '(library, des) ← get_many (get_moved_genome n) number_of_genomes des;
  '(pool, des) ← get (innov_pool n) des;
  Some (mk_base_neat (mk_neat p pool (rand_engine n)) all_species library
                     next_species_id best age, des).

End Driver.

(** Modelled from the spec: the stream operators of [genome].  Each genome
    serialises as number-of-inputs, number-of-outputs, fitness, gene-count,
    then each gene as (innov, from, to, weight, enabled); reading adds the
    genes one by one to the genome read into. *)
#[global] Instance genome_streamed : Streamed genome := {
  put g :=
    [TNat (m_number_of_inputs g); TNat (m_number_of_outputs g);
     TReal (m_fitness g); TNat (length (m_genes g))]
    ++ concat (map put_gene (m_genes g));
  get g des :=
    '(n_in, des) ← get_next_nat des;
    '(n_out, des) ← get_next_nat des;
    '(fit, des) ← get_next_real des;
    '(count, des) ← get_next_nat des;
    '(gs, des) ← get_many get_gene count des;
    Some (foldl (fun self x => add_gene x self)
                (mk_genome n_in n_out [] (m_known_neuron_ids g) fit) gs, des)
}.

(** What the stream operators of the genome preserve. *)
Definition same_genome (g g' : genome) : Prop :=
  m_genes g' = m_genes g /\ m_fitness g' = m_fitness g.

(** ** Example objects *)

(** Two inputs, one output; only operator [m] can be selected. *)
Definition example_parameters (m : mutation) : parameters :=
  let w (k : mutation) : nat :=
    match m, k with
    | AddLink, AddLink | AddNeuron, AddNeuron | AllWeights, AllWeights
    | OneWeight, OneWeight | ResetWeights, ResetWeights | RemoveGene, RemoveGene
    | ReenableGene, ReenableGene | ToggleEnable, ToggleEnable => 1
    | _, _ => 0
    end in
  mk_parameters 2 1 3%Q false 1%Q 1%Q 1%Q
    (w AddLink) (w AddNeuron) (w AllWeights) (w OneWeight) (w ResetWeights)
    (w RemoveGene) (w ReenableGene) (w ToggleEnable) 1%Q (1 # 2)%Q 5.

(** The fully connected seed genome of two inputs and one output, as
    [base_neat::init] builds it: bias and both inputs linked to neuron 3,
    innovation numbers 0, 1, 2. *)
Definition seed_genome : genome :=
  genome_of_genes 2 1 [new_gene 0 0 3 1%Q; new_gene 1 1 3 1%Q; new_gene 2 2 3 1%Q].

(** The pool once the seed genome took the innovation numbers 0..2; neuron 4
    is the first hidden neuron. *)
Definition seed_pool : innovation_pool := empty_pool 3 4.

(** A run of three mutations: genome B adds the link 3->3, genome A splits
    its first gene, then genome A adds the link 3->3 as well.  The driver's
    engine yields 3, 0, 5 and then 3, 0, 7. *)
Definition reuse_start : neat :=
  mk_neat (example_parameters AddLink) seed_pool [3; 0; 5; 3; 0; 7].

(** Genome B adds the link. *)
Definition reuse_step_1 : bool * genome * neat := mutate_add_link seed_genome reuse_start.

(** Genome A splits a gene; the function-local generator yields 0. *)
Definition reuse_step_2 : bool * genome * neat * engine :=
  mutate_add_neuron [0] seed_genome reuse_step_1.2.

(** Genome A adds the link. *)
Definition reuse_step_3 : bool * genome * neat :=
  mutate_add_link reuse_step_2.1.1.2 reuse_step_2.1.2.

(** Two drivers in the same state, selecting [mutate_add_neuron]. *)
Definition split_start : neat := mk_neat (example_parameters AddNeuron) seed_pool [0; 9; 9].

(** A genome without genes and a driver that can only select
    [mutate_toggle_enable], which fails on it. *)
Definition no_target_start : neat := mk_neat (example_parameters ToggleEnable) seed_pool [].

(** A genome of the seed topology with the given fitness. *)
Definition with_fitness (f : Q) : genome :=
  mk_genome (m_number_of_inputs seed_genome) (m_number_of_outputs seed_genome)
            (m_genes seed_genome) (m_known_neuron_ids seed_genome) f.

(** ** Stream operators for the examples

    The sources at hand do not fix how a species or the pool is streamed.
    The examples use a species that is its id alone, and a pool streamed as
    its two counters followed by both registries, each entry with its key. *)

#[global] Instance species_id_streamed : Streamed nat := {
  put id := [TNat id];
  get _ des := get_next_nat des
}.

Definition put_pool_gene (e : neuron_id_t * neuron_id_t * gene) : stream :=
  [TNat e.1.1; TNat e.1.2] ++ put_gene e.2.

Definition get_pool_gene (des : stream)
  : option (neuron_id_t * neuron_id_t * gene * stream) :=
  '(f, des) ← get_next_nat des;
  '(t, des) ← get_next_nat des;
  '(g, des) ← get_gene des;
  Some (f, t, g, des).

Definition innov_type_flag (k : innov_type) : bool :=
  match k with NEW_LINK => false | NEW_NEURON => true end.

Definition innov_type_of_flag (b : bool) : innov_type :=
  if b then NEW_NEURON else NEW_LINK.

Definition put_pool_innovation (e : innov_type * neuron_id_t * neuron_id_t * innovation)
  : stream :=
  [TBool (innov_type_flag e.1.1.1); TNat e.1.1.2; TNat e.1.2;
   TBool (innov_type_flag (inn_type e.2)); TNat (inn_innov_num e.2);
   TNat (inn_innov_num_2 e.2); TNat (inn_from e.2); TNat (inn_to e.2);
   TNat (inn_new_neuron_id e.2)].

Definition get_pool_innovation (des : stream)
  : option (innov_type * neuron_id_t * neuron_id_t * innovation * stream) :=
  '(k, des) ← get_next_bool des;
  '(f, des) ← get_next_nat des;
  '(t, des) ← get_next_nat des;
  '(k', des) ← get_next_bool des;
  '(i1, des) ← get_next_nat des;
  '(i2, des) ← get_next_nat des;
  '(f', des) ← get_next_nat des;
  '(t', des) ← get_next_nat des;
  '(h, des) ← get_next_nat des;
  Some (innov_type_of_flag k, f, t,
        mk_innovation (innov_type_of_flag k') i1 i2 f' t' h, des).

#[global] Instance pool_streamed : Streamed innovation_pool := {
  put p :=
    [TNat (m_next_innovation p); TNat (m_next_hidden_neuron_id p);
     TNat (length (map_to_list (m_all_genes p)))]
    ++ concat (map put_pool_gene (map_to_list (m_all_genes p)))
    ++ [TNat (length (map_to_list (m_all_innovations p)))]
    ++ concat (map put_pool_innovation (map_to_list (m_all_innovations p)));
  get _ des :=
    '(ni, des) ← get_next_nat des;
    '(nh, des) ← get_next_nat des;
    '(count, des) ← get_next_nat des;
    '(gs, des) ← get_many get_pool_gene count des;
    '(count, des) ← get_next_nat des;
    '(rs, des) ← get_many get_pool_innovation count des;
    Some (mk_pool ni nh (list_to_map gs) (list_to_map rs), des)
}.

(** A driver after some epochs: two species, one genome in the library, and
    a best-ever genome of fitness 3.9. *)
Definition stored_driver : @base_neat nat :=
  mk_base_neat
    (mk_neat (example_parameters AddLink) reuse_step_3.2.(innov_pool) [])
    [0; 1] [with_fitness 2] 2 (Some (with_fitness (39 # 10))) 7.

(** A driver fresh from its constructor. *)
Definition fresh_driver : @base_neat nat :=
  base_neat_ctor (example_parameters AddLink) seed_pool [42].

(** [species(neat, population, id, representant)] of the examples. *)
Definition species_id_ctor (id : nat) (representant : genome) : nat := id.

(** The two genomes of the distance example: innovation numbers
    {1,2,3,5,8} and {1,2,4,5,9,10}, every weight [w]. *)
Definition example_A (w : Q) : genome :=
  genome_of_genes 1 1 (map (fun i => new_gene i 0 (2 + i) w) [1; 2; 3; 5; 8]).

Definition example_B (w : Q) : genome :=
  genome_of_genes 1 1 (map (fun i => new_gene i 0 (2 + i) w) [1; 2; 4; 5; 9; 10]).

(** Two genomes of five genes each, with no innovation number in common. *)
Definition odd_genome : genome :=
  genome_of_genes 1 1 (map (fun i => new_gene i 0 (2 + i) 1%Q) [1; 3; 5; 7; 9]).

Definition even_genome : genome :=
  genome_of_genes 1 1 (map (fun i => new_gene i 0 (2 + i) 1%Q) [2; 4; 6; 8; 10]).

(** A genome whose genes are all disabled. *)
Definition disabled_genome : genome :=
  set_genes (map (set_enabled false) (m_genes seed_genome)) seed_genome.


(** ** Selection by weight *)

#[global] Instance mutation_eq_dec : EqDecision mutation.
Proof. solve_decision. Defined.

(** The selection weight the parameters give an operator. *)
Definition mutation_weight (p : parameters) (m : mutation) : nat :=
  match m with
  | AddLink => mutation_add_link_weight p
  | AddNeuron => mutation_add_neuron_weight p
  | AllWeights => mutation_all_weights_weight p
  | OneWeight => mutation_one_weight_weight p
  | ResetWeights => mutation_reset_weights_weight p
  | RemoveGene => mutation_remove_gene_weight p
  | ReenableGene => mutation_reenable_gene_weight p
  | ToggleEnable => mutation_toggle_enable_weight p
  end.

(** The operators in the order in which [random_mutate] tests them. *)
Definition mutations_in_order : list mutation :=
  [AddLink; AddNeuron; AllWeights; OneWeight; ResetWeights; RemoveGene;
   ReenableGene; ToggleEnable].

(** Sum of the weights of the operators tested before [m]. *)
Fixpoint weight_before_in (p : parameters) (m : mutation) (ms : list mutation) : nat :=
  match ms with
  | [] => 0
  | k :: ms' =>
      if decide (k = m) then 0 else mutation_weight p k + weight_before_in p m ms'
  end.

Definition weight_before (p : parameters) (m : mutation) : nat :=
  weight_before_in p m mutations_in_order.

(** The selector values, out of [0 .. sum - 1], for which the cascade picks
    operator [m]. *)
Definition selectors_of (p : parameters) (m : mutation) : list nat :=
  List.filter (fun r => bool_decide (select_mutation p r = m))
              (seq 0 (sum_all_mutation_weights p)).

(** ** What the operators on single genes leave behind *)


(** ** Layout of the known-neurons vector *)

(** The known-neurons vector lists no neuron twice and starts as the
    constructor wrote it: the bias, the inputs and the outputs hold the ids
    [0 .. number_of_inputs + number_of_outputs], in this order. *)
Definition known_layout (self : genome) : Prop :=
  NoDup (m_known_neuron_ids self) /\
  seq 0 (1 + m_number_of_inputs self + m_number_of_outputs self)
    `prefix_of` m_known_neuron_ids self.

(** The directed pair a gene links. *)
Definition link_of (g : gene) : neuron_id_t * neuron_id_t := (from g, to g).

(** ** The seed genome of [base_neat::init]

    [gene.h] is not among the sources, so the weight that the three-argument
    constructor [gene(innov, from, to)] gives a gene is not known; [w0]
    stands for it. *)

(** [initial_genome.add_gene({innov_pool.next_innovation(), from, to})] *)
Definition add_seed_gene (w0 : neuron_value_t) (from_ to_ : neuron_id_t)
    (st : genome * innovation_pool) : genome * innovation_pool :=
  let '(i, pool) := next_innovation st.2 in
  (add_gene (new_gene i from_ to_ w0) st.1, pool).

(** The part of [base_neat::init()] that builds [initial_genome], before it
    is handed to [init(const genome&)]: the links from the bias, then for
    each input the links from that input, to every output in turn. *)
Definition init_initial_genome (w0 : neuron_value_t) (n : neat) : genome * neat :=
  let initial_genome := genome_ctor n in
  let starting_idx_outputs := 1 + m_number_of_inputs initial_genome in
  let st :=
    foldl (fun st i => add_seed_gene w0 BIAS_ID (starting_idx_outputs + i) st)
          (initial_genome, innov_pool n)
          (seq 0 (m_number_of_outputs initial_genome)) in
  let st :=
    foldl (fun st j =>
             foldl (fun st i => add_seed_gene w0 (j + 1) (starting_idx_outputs + i) st)
                   st (seq 0 (m_number_of_outputs initial_genome)))
          st (seq 0 (m_number_of_inputs initial_genome)) in
  (st.1, set_innov_pool st.2 n).

(** The links the seed genome is expected to hold from neuron [f]: one to
    each of the [n_out] outputs, numbered from [k]. *)
Definition seed_row (w0 : neuron_value_t) (n_in n_out : nat) (k : innov_num_t)
    (f : neuron_id_t) : list gene :=
  map (fun i => new_gene (k + f * n_out + i) f (1 + n_in + i) w0) (seq 0 n_out).

(** The pool after [c] calls of [next_innovation]. *)
Definition advance_innovation (c : nat) (p : innovation_pool) : innovation_pool :=
  mk_pool (m_next_innovation p + c) (m_next_hidden_neuron_id p)
          (m_all_genes p) (m_all_innovations p).

(** ** The driver: the best genome ever *)

(** [m_best_genome_ever = best; m_age_of_best_genome_ever = age] *)
Definition set_best_genome_ever {species : Type} (best : option genome) (age : nat)
    (d : @base_neat species) : @base_neat species :=
  mk_base_neat (as_neat d) (m_all_species d) (m_best_genomes_library d)
               (m_next_species_id d) best age.

(** [base_neat::update_best_genome_ever]; [pop] is what
    [pop()->get_all_genomes()] holds at the call.  Both branches read
    through the reference [get_current_best_genome()] returns: [None] stands
    for the dereference of a null champion.  [new genome{g}] copies [g], the
    fitness included. *)
Definition update_best_genome_ever {species : Type} (pop : list genome)
    (d : @base_neat species) : option (@base_neat species) :=
  match m_best_genome_ever d with
  | None =>
      current_best_genome ← get_current_best_genome pop;
      Some (set_best_genome_ever (Some current_best_genome) 0 d)
  | Some best =>
      current_best_genome ← get_current_best_genome pop;
      if Qgt_bool (m_fitness current_best_genome) (m_fitness best)
      then Some (set_best_genome_ever (Some current_best_genome) 0 d)
      else Some d
  end.

(** One call of [update_best_genome_ever] for each population in turn. *)
Fixpoint update_best_genome_ever_each {species : Type} (pops : list (list genome))
    (d : @base_neat species) : option (@base_neat species) :=
  match pops with
  | [] => Some d
  | pop :: rest =>
      d1 ← update_best_genome_ever pop d;
      update_best_genome_ever_each rest d1
  end.

(** Everything but the best genome and its age. *)
Definition same_driver_state {species : Type} (d d' : @base_neat species) : Prop :=
  as_neat d' = as_neat d /\ m_all_species d' = m_all_species d /\
  m_best_genomes_library d' = m_best_genomes_library d /\
  m_next_species_id d' = m_next_species_id d.

Module FirstRevisionTracking.

(** The head of [base_neat::epoch] in the first revision of the driver,
    before it calls [impl_epoch]: the same tracking, with the age
    incremented when the champion does not improve on the best genome. *)
Definition epoch_track {species : Type} (pop : list genome)
    (d : @base_neat species) : option (@base_neat species) :=
  match m_best_genome_ever d with
  | None =>
      current_best_genome ← FirstRevision.get_current_best_genome pop;
      Some (set_best_genome_ever (Some current_best_genome) 0 d)
  | Some best =>
      current_best_genome ← FirstRevision.get_current_best_genome pop;
      if Qgt_bool (m_fitness current_best_genome) (m_fitness best)
      then Some (set_best_genome_ever (Some current_best_genome) 0 d)
      else Some (set_best_genome_ever (Some best) (S (m_age_of_best_genome_ever d)) d)
  end.

(** One such step for each population in turn. *)
Fixpoint epoch_track_each {species : Type} (pops : list (list genome))
    (d : @base_neat species) : option (@base_neat species) :=
  match pops with
  | [] => Some d
  | pop :: rest =>
      d1 ← epoch_track pop d;
      epoch_track_each rest d1
  end.

End FirstRevisionTracking.

(** The populations of the examples: two generations, the second one
    fitter. *)
Definition example_generations : list (list genome) :=
  [[with_fitness (-1); with_fitness (-3)]; [with_fitness 2]].

Definition example_fit_generations : list (list genome) :=
  [[with_fitness 1; with_fitness 3]; [with_fitness 2]].

(** ** The driver: the library of best genomes

    [operator==] of [genome] is declared in [genome.h], which is not among
    the sources; [genome_eq] stands for it wherever the library is searched,
    and nothing is assumed about it. *)

#[global] Instance genome_inhabited : Inhabited genome :=
  populate (mk_genome 0 0 [] [] 0%Q).






(** ** The driver: speciation *)

Section Speciation.

(** [species.h] is not among the sources.  The driver constructs species,
    asks them for their representant and adds members to them; [members]
    is there to state where a genome ended up. *)
Context {species : Type}.
Variable species_ctor : nat -> genome -> species.
Variable get_representant : species -> genome.
Variable add_member : nat -> species -> species.

(** The loop of [base_neat::find_appropriate_species_for] from position
    [idx] on; the species found is given by its position in
    [m_all_species]. *)
Fixpoint find_species_from (n : neat) (geno : genome) (idx : nat) (l : list species)
  : option nat :=
  match l with
  | [] => None
  | spec :: rest =>
      if is_compatible_with n geno (get_representant spec) then Some idx
      else find_species_from n geno (S idx) rest
  end.

(** [base_neat::find_appropriate_species_for] *)
Definition find_appropriate_species_for (d : @base_neat species) (geno : genome)
  : option nat :=
  find_species_from (as_neat d) geno 0 (m_all_species d).

(** [base_neat::helper_speciate_one_genome]; [pop] is the population behind
    [pop()], and [None] stands for [get_genome] on an id the population does
    not hold. *)
Definition helper_speciate_one_genome (pop : list genome) (geno_id : nat)
    (d : @base_neat species) : option (@base_neat species) :=
  geno ← pop !! geno_id;
  match find_appropriate_species_for d geno with
  | Some idx =>
      Some (mk_base_neat (as_neat d) (alter (add_member geno_id) idx (m_all_species d))
              (m_best_genomes_library d) (m_next_species_id d)
              (m_best_genome_ever d) (m_age_of_best_genome_ever d))
  | None =>
      Some (mk_base_neat (as_neat d)
              (m_all_species d
               ++ [add_member geno_id (species_ctor (m_next_species_id d) geno)])
              (m_best_genomes_library d) (S (m_next_species_id d))
              (m_best_genome_ever d) (m_age_of_best_genome_ever d))
  end.

(** The loop [for (geno_id = first; geno_id < pop()->size(); ++geno_id)],
    over the ids still ahead. *)
Fixpoint speciate_each (pop : list genome) (ids : list nat) (d : @base_neat species)
  : option (@base_neat species) :=
  match ids with
  | [] => Some d
  | geno_id :: rest =>
      d1 ← helper_speciate_one_genome pop geno_id d;
      speciate_each pop rest d1
  end.

(** [base_neat::helper_speciate_all_population] *)
Definition helper_speciate_all_population (pop : list genome) (d : @base_neat species)
  : option (@base_neat species) :=
  speciate_each pop (seq 0 (length pop)) d.

Variable members : species -> list nat.

(** Between two states of the driver, speciation has only added: every
    species is still in its place with its representant and its members,
    the species behind them are new, and the id counter has advanced by
    their number. *)
Definition species_grown (d d' : @base_neat species) : Prop :=
  as_neat d' = as_neat d /\
  m_best_genomes_library d' = m_best_genomes_library d /\
  m_best_genome_ever d' = m_best_genome_ever d /\
  m_next_species_id d' + length (m_all_species d)
  = m_next_species_id d + length (m_all_species d') /\
  length (m_all_species d) <= length (m_all_species d') /\
  forall idx s, m_all_species d !! idx = Some s ->
    exists s', m_all_species d' !! idx = Some s' /\
               get_representant s' = get_representant s /\
               members s ⊆ members s'.

(** Genome [geno_id] of the population is a member of a species whose
    representant it is compatible with, or which it founded. *)
Definition placed (pop : list genome) (geno_id : nat) (d : @base_neat species) : Prop :=
  exists geno idx s,
    pop !! geno_id = Some geno /\ m_all_species d !! idx = Some s /\
    geno_id ∈ members s /\
    (is_compatible_with (as_neat d) geno (get_representant s) = true \/
     get_representant s = geno).

End Speciation.

(** A species for the examples: its id, its representant and the ids of its
    members. *)
Record example_species := mk_example_species {
  sp_id : nat;
  sp_representant : genome;
  sp_members : list nat
}.

Definition example_species_ctor (id : nat) (representant : genome) : example_species :=
  mk_example_species id representant [].

Definition example_add_member (geno_id : nat) (s : example_species) : example_species :=
  mk_example_species (sp_id s) (sp_representant s) (sp_members s ++ [geno_id]).

(** A driver without species, and a population of two genomes. *)
Definition unspeciated_driver : @base_neat example_species :=
  mk_base_neat (mk_neat (example_parameters AddLink) seed_pool [42]) [] [] 0 None 0.

Definition example_population : list genome := [example_A 1; example_B 1].

(** ** Network generation *)

Inductive neuron_type := INPUT | OUTPUT | HIDDEN.

(** [std::map::emplace(key, value)]: an entry that is there is left alone. *)
Definition emplace (key value : neuron_id_t) (m : gmap neuron_id_t neuron_id_t)
  : gmap neuron_id_t neuron_id_t :=
  match m !! key with
  | Some _ => m
  | None => <[key := value]> m
  end.

Section GenerateNetwork.

(** [network.h] is not among the sources.  The genome starts from a default
    network, adds neurons to it, each call returning the id the network
    gave the neuron, and adds links between such ids. *)
Context {network : Type}.
Variable empty_network : network.
Variable network_BIAS_ID : neuron_id_t.
Variable net_add_neuron : neuron_type -> network -> neuron_id_t * network.
Variable net_add_link : neuron_id_t -> neuron_id_t -> neuron_value_t -> network -> network.

(** One pass of a loop
    [{ id = net.add_neuron(kind, ...); ids_map.emplace(key, id); }]
    over the given keys. *)
Definition add_neurons (kind : neuron_type) (keys : list neuron_id_t)
    (st : network * gmap neuron_id_t neuron_id_t)
  : network * gmap neuron_id_t neuron_id_t :=
  foldl (fun st key =>
           let '(net_neuron_id, net) := net_add_neuron kind st.1 in
           (net, emplace key net_neuron_id st.2))
        st keys.

(** The first half of [genome::generate_network]: the network with its
    neurons, and [ids_map]. *)
Definition generate_neurons (self : genome)
  : network * gmap neuron_id_t neuron_id_t :=
  let n_in := m_number_of_inputs self in
  let n_out := m_number_of_outputs self in
  let st := (empty_network, emplace BIAS_ID network_BIAS_ID ∅) in
  let st := add_neurons INPUT (map (fun i => i + 1) (seq 0 n_in)) st in
  let st := add_neurons OUTPUT (map (fun i => i + n_in + 1) (seq 0 n_out)) st in
  add_neurons HIDDEN (drop (n_in + n_out + 1) (m_known_neuron_ids self)) st.

(** The loop over the genes.  [ids_map.find(key)->second] reads through the
    iterator [find] returns: [None] stands for the read through the end
    iterator of a key that is not in the map. *)
Fixpoint add_links (ids_map : gmap neuron_id_t neuron_id_t) (gs : list gene)
    (net : network) : option network :=
  match gs with
  | [] => Some net
  | g :: gs' =>
      if enabled g then
        from_id ← ids_map !! from g;
        to_id ← ids_map !! to g;
        add_links ids_map gs' (net_add_link from_id to_id (weight g) net)
      else add_links ids_map gs' net
  end.

(** [genome::generate_network] *)
Definition generate_network (self : genome) : option network :=
  let '(net, ids_map) := generate_neurons self in
  add_links ids_map (m_genes self) net.

End GenerateNetwork.

(** A network for the examples: it counts its neurons and its links, and
    numbers the neurons from 1. *)
Definition counting_add_neuron (kind : neuron_type) (net : nat * nat)
  : neuron_id_t * (nat * nat) :=
  (S net.1, (S net.1, net.2)).

Definition counting_add_link (from_id to_id : neuron_id_t) (w : neuron_value_t)
    (net : nat * nat) : nat * nat :=
  (net.1, S net.2).

(** ** A stream read into a driver that adapts its threshold *)

(** A stream as [helper_deserialize_base_neat] expects it, written by a
    driver without best genome, species or library, whose compatibility
    threshold was 7. *)
Definition bare_stream : stream :=
  [TNat 5; TNat 2; TReal 7; TBool false; TNat 0; TNat 0] ++ put seed_pool.

(** A driver that adapts its compatibility threshold. *)
Definition dynamic_driver : @base_neat nat :=
  base_neat_ctor
    (mk_parameters 2 1 3%Q true 1%Q 1%Q 1%Q 1 0 0 0 0 0 0 0 1%Q (1 # 2)%Q 5)
    seed_pool [42].

(** ** The initial population of the first revision *)

Module FirstRevisionInit.

(** The loop of [base_neat::init(const genome&)] in the first revision of
    the driver:
    [for (i = 0; i < params.initial_population_size; i++)
       m_population.add_genome(initial_genome.get_random_mutation());]
    [count] is the number of iterations still to run, and [add_genome]
    appends to the population.  Each [get_random_mutation] runs with the
    four iterations its loop can take. *)
Fixpoint populate (count : nat) (g : engine) (initial_genome : genome) (n : neat)
    (m_population : list genome) : option (list genome * neat * engine) :=
  match count with
  | 0 => Some (m_population, n, g)
  | S count' =>
      r ← get_random_mutation 4 g initial_genome n;
      populate count' (run_static r) initial_genome (run_neat r)
               (m_population ++ [offspring r])
  end.

End FirstRevisionInit.

(** What every genome derived from [initial] by mutations has in common with
    it. *)
Definition derived_from (initial x : genome) : Prop :=
  known_layout x /\ endpoints_known x /\
  m_number_of_inputs x = m_number_of_inputs initial /\
  m_number_of_outputs x = m_number_of_outputs initial /\
  m_known_neuron_ids initial `prefix_of` m_known_neuron_ids x.

(** ** Innovation numbers stay below the counter *)

(** Every innovation number the pool has on record is below its counter:
    the number of each canonical gene, the number of each link innovation,
    and both numbers of each neuron innovation. *)
Definition pool_below (p : innovation_pool) : Prop :=
  (forall f t c, find_gene p f t = Some c -> innov_num c < m_next_innovation p) /\
  (forall k f t r, find_innovation p k f t = Some r ->
     inn_innov_num r < m_next_innovation p /\
     (inn_type r = NEW_NEURON -> inn_innov_num_2 r < m_next_innovation p)).

(** Every gene of the genome has an innovation number below the counter. *)
Definition genome_below (p : innovation_pool) (self : genome) : Prop :=
  Forall (fun x => innov_num x < m_next_innovation p) (m_genes self).

(** ** The constructors of the driver *)

(** The test at the head of [base_neat::base_neat(const parameters&)]:
    [true] when the constructor throws [std::invalid_argument]. *)
Definition ctor_throws (p : parameters) : bool :=
  (number_of_outputs p =? 0) || (number_of_inputs p =? 0).

(** [base_neat::base_neat(const base_neat& other)].  The initialiser of
    [m_best_genome_ever] copies [*other.m_best_genome_ever]: [None] stands
    for the dereference of a null pointer.  The engine is seeded from the
    clock, [seed] stands for what that seed makes of it. *)
Definition base_neat_copy {species : Type} (other : @base_neat species) (seed : engine)
  : option (@base_neat species) :=
  best ← m_best_genome_ever other;
  Some (mk_base_neat
          (mk_neat (params (as_neat other)) (innov_pool (as_neat other)) seed)
          (m_all_species other) (m_best_genomes_library other)
          (m_next_species_id other) (Some best) (m_age_of_best_genome_ever other)).

(** * Properties *)

(** Case analysis on the scrutinee of a [match] (or of a destructuring
    [let]) in the goal. *)
Ltac break_match :=
  match goal with
  | |- context [match ?x with _ => _ end] => destruct x eqn:?
  end.

(** ** The innovation pool *)

Section Pool.

Lemma find_gene_register_gene_keeps g p f t c :
  find_gene p f t = Some c -> find_gene (register_gene g p) f t = Some c.
Proof.
  unfold find_gene, register_gene. intros H.
  destruct (m_all_genes p !! (from g, to g)) eqn:E; simpl; [done|].
  destruct (decide ((from g, to g) = (f, t))) as [Heq|Hne].
  - rewrite Heq in E. congruence.
  - by rewrite lookup_insert_ne.
Qed.

Lemma find_gene_register_gene_new g p :
  find_gene p (from g) (to g) = None ->
  find_gene (register_gene g p) (from g) (to g) = Some g.
Proof.
  unfold find_gene, register_gene. intros ->. simpl. by rewrite lookup_insert_eq.
Qed.

Lemma find_gene_register_innovation r p f t :
  find_gene (register_innovation r p) f t = find_gene p f t.
Proof.
  unfold find_gene, register_innovation.
  by destruct (m_all_innovations p !! _).
Qed.

Lemma register_gene_hidden g p :
  m_next_hidden_neuron_id (register_gene g p) = m_next_hidden_neuron_id p.
Proof. unfold register_gene. by destruct (m_all_genes p !! _). Qed.

Lemma register_innovation_hidden r p :
  m_next_hidden_neuron_id (register_innovation r p) = m_next_hidden_neuron_id p.
Proof. unfold register_innovation. by destruct (m_all_innovations p !! _). Qed.

Lemma keeps_genes_refl p : keeps_genes p p.
Proof. by intros f t c. Qed.

Lemma keeps_genes_trans p q r :
  keeps_genes p q -> keeps_genes q r -> keeps_genes p r.
Proof. intros H1 H2 f t c H. by apply H2, H1. Qed.

Lemma pool_ext_refl p : pool_ext p p.
Proof. split; [apply keeps_genes_refl | done]. Qed.

Lemma pool_ext_trans p q r : pool_ext p q -> pool_ext q r -> pool_ext p r.
Proof.
  intros [K1 W1] [K2 W2]. split; [by eapply keeps_genes_trans | auto].
Qed.

Lemma empty_pool_wf a b : pool_wf (empty_pool a b).
Proof.
  split.
  - intros f t c. unfold find_gene. simpl. by rewrite lookup_empty.
  - intros k f t r. unfold find_innovation. simpl. by rewrite lookup_empty.
Qed.

Lemma pool_ext_next_innovation p : pool_ext p (next_innovation p).2.
Proof. split; [by intros f t c | by intros [W1 W2]]. Qed.

Lemma pool_ext_next_hidden_neuron_id p : pool_ext p (next_hidden_neuron_id p).2.
Proof. split; [by intros f t c | by intros [W1 W2]]. Qed.

Lemma pool_ext_register_gene g p : pool_ext p (register_gene g p).
Proof.
  split.
  - intros f t c. apply find_gene_register_gene_keeps.
  - intros [W1 W2]. split.
    + intros f t c. unfold find_gene, register_gene.
      destruct (m_all_genes p !! (from g, to g)) eqn:E; simpl; [apply W1|].
      destruct (decide ((from g, to g) = (f, t))) as [Heq|Hne].
      * rewrite Heq, lookup_insert_eq. intros [= <-]. by inversion Heq.
      * rewrite lookup_insert_ne by done. apply W1.
    + intros k f t r. unfold find_innovation, register_gene.
      destruct (m_all_genes p !! (from g, to g)); simpl; apply W2.
Qed.

Lemma pool_ext_register_innovation r p : pool_ext p (register_innovation r p).
Proof.
  split.
  - intros f t c. by rewrite find_gene_register_innovation.
  - intros [W1 W2]. split.
    + intros f t c. rewrite find_gene_register_innovation. apply W1.
    + intros k f t r'. unfold find_innovation, register_innovation.
      destruct (m_all_innovations p !! (inn_type r, inn_from r, inn_to r)) eqn:E;
        simpl; [apply W2|].
      destruct (decide ((inn_type r, inn_from r, inn_to r) = (k, f, t))) as [Heq|Hne].
      * rewrite Heq, lookup_insert_eq. intros [= <-]. by inversion Heq.
      * rewrite lookup_insert_ne by done. apply W2.
Qed.

End Pool.

(** ** Random draws *)

Section Draws.

Lemma uniform_int_range lo hi e :
  lo <= (uniform_int lo hi e).1 <= lo + (hi - lo).
Proof.
  unfold uniform_int. destruct (engine_next e) as [x e']. simpl.
  pose proof (Nat.mod_upper_bound x (hi - lo + 1)). lia.
Qed.

Lemma uniform_int_lt_length {A} (l : list A) e :
  l <> [] -> (uniform_int 0 (length l - 1) e).1 < length l.
Proof.
  intros Hl. pose proof (uniform_int_range 0 (length l - 1) e).
  destruct l; [done|]. simpl in *. lia.
Qed.

Lemma shuffle_Permutation n l g :
  length l <= n -> (shuffle n l g).1 ≡ₚ l.
Proof.
  revert l g. induction n as [|n IH]; intros l g Hn.
  - destruct l; [done|simpl in Hn; lia].
  - destruct l as [|a l']; [done|]. cbn [shuffle].
    set (l := a :: l') in *.
    pose proof (uniform_int_lt_length l g ltac:(done)) as Hk.
    destruct (uniform_int 0 (length l - 1) g) as [k g1]. simpl in Hk.
    specialize (IH (delete k l) g1).
    destruct (shuffle n (delete k l) g1) as [r g2]. simpl in *.
    rewrite IH.
    + symmetry. apply delete_Permutation. by apply list_lookup_lookup_total_lt.
    + rewrite length_delete; [subst l; simpl in *; lia|].
      by apply lookup_lt_is_Some_2.
Qed.

End Draws.

(** ** Known neurons *)

Section KnownNeurons.

Lemma add_gene_genes x self : m_genes (add_gene x self) = m_genes self ++ [x].
Proof. done. Qed.

Lemma not_found_false x ks : not_found x ks = false <-> x ∈ ks.
Proof.
  unfold not_found. rewrite negb_false_iff, existsb_exists. split.
  - intros (y & Hy & E). apply Nat.eqb_eq in E. subst. by apply list_elem_of_In.
  - intros Hx. exists x. split; [by apply list_elem_of_In|]. apply Nat.eqb_refl.
Qed.

Lemma add_gene_known_grows x self k :
  k ∈ m_known_neuron_ids self -> k ∈ m_known_neuron_ids (add_gene x self).
Proof.
  intros Hk. unfold add_gene. cbn [m_known_neuron_ids].
  repeat break_match; rewrite ?elem_of_app; auto.
Qed.

Lemma add_gene_known_endpoints x self :
  from x ∈ m_known_neuron_ids (add_gene x self) /\
  to x ∈ m_known_neuron_ids (add_gene x self).
Proof.
  unfold add_gene. cbn [m_known_neuron_ids].
  destruct (not_found (from x) (m_known_neuron_ids self)) eqn:Ef.
  - destruct (not_found (to x) _) eqn:Et.
    + rewrite !elem_of_app, !list_elem_of_singleton. auto.
    + apply not_found_false in Et. split; [|done].
      rewrite elem_of_app, list_elem_of_singleton. auto.
  - apply not_found_false in Ef.
    destruct (not_found (to x) _) eqn:Et.
    + rewrite !elem_of_app, !list_elem_of_singleton. auto.
    + apply not_found_false in Et. done.
Qed.

Lemma add_gene_endpoints_known x self :
  endpoints_known self -> endpoints_known (add_gene x self).
Proof.
  intros HK y Hy. change (m_genes (add_gene x self)) with (m_genes self ++ [x]) in Hy.
  apply elem_of_app in Hy as [Hy|Hy].
  - destruct (HK y Hy). split; by apply add_gene_known_grows.
  - apply list_elem_of_singleton in Hy as ->. apply add_gene_known_endpoints.
Qed.

Lemma foldl_add_gene_genes gs base :
  m_genes (foldl (fun self x => add_gene x self) base gs) = m_genes base ++ gs.
Proof.
  revert base. induction gs as [|x gs IH]; intros base; cbn [foldl].
  - by rewrite app_nil_r.
  - rewrite IH. cbn. by rewrite <- app_assoc.
Qed.

Lemma foldl_add_gene_fitness gs base :
  m_fitness (foldl (fun self x => add_gene x self) base gs) = m_fitness base.
Proof.
  revert base. induction gs as [|x gs IH]; intros base; cbn [foldl]; [done|].
  by rewrite IH.
Qed.

Lemma foldl_add_gene_endpoints_known gs base :
  endpoints_known base ->
  endpoints_known (foldl (fun self x => add_gene x self) base gs).
Proof.
  revert base. induction gs as [|x gs IH]; intros base HK; [done|].
  cbn [foldl]. apply IH. by apply add_gene_endpoints_known.
Qed.

(** A genome grown from no genes by [add_gene] knows every endpoint. *)
Lemma genome_of_genes_endpoints_known n_in n_out gs :
  endpoints_known (genome_of_genes n_in n_out gs).
Proof.
  apply foldl_add_gene_endpoints_known. intros x Hx. by apply elem_of_nil in Hx.
Qed.

(** Replacing the genes by genes with endpoints that were there before. *)
Lemma set_genes_endpoints_known gs self :
  (forall y, y ∈ gs -> exists x, x ∈ m_genes self /\ from y = from x /\ to y = to x) ->
  endpoints_known self -> endpoints_known (set_genes gs self).
Proof.
  intros Hgs HK y Hy. destruct (Hgs y Hy) as (x & Hx & -> & ->). by apply HK.
Qed.

Lemma elem_of_alter_endpoints (f : gene -> gene) (i : nat) (gs : list gene) y :
  (forall x, from (f x) = from x /\ to (f x) = to x) ->
  y ∈ alter f i gs -> exists x, x ∈ gs /\ from y = from x /\ to y = to x.
Proof.
  intros Hf Hy. apply list_elem_of_lookup in Hy as [j Hj].
  rewrite list_lookup_alter in Hj. destruct (decide (i = j)) as [->|Hne].
  - destruct (gs !! j) as [x|] eqn:E; [|done]. injection Hj as <-.
    exists x. split; [by eapply list_elem_of_lookup_2|]. apply Hf.
  - exists y. split; [by eapply list_elem_of_lookup_2|done].
Qed.

Lemma perturb_each_genes f lo hi gs e :
  Forall2 (fun x y => innov_num y = innov_num x /\ from y = from x /\
                      to y = to x /\ enabled y = enabled x)
          gs (perturb_each f lo hi gs e).1.
Proof.
  revert e. induction gs as [|x gs IH]; intros e; [constructor|].
  cbn [perturb_each]. destruct (uniform_real lo hi e) as [d e1].
  specialize (IH e1). destruct (perturb_each f lo hi gs e1) as [r e2].
  constructor; done.
Qed.

Lemma perturb_each_endpoints f lo hi gs e y :
  y ∈ (perturb_each f lo hi gs e).1 ->
  exists x, x ∈ gs /\ from y = from x /\ to y = to x.
Proof.
  intros Hy. pose proof (perturb_each_genes f lo hi gs e) as HF.
  apply list_elem_of_lookup in Hy as [j Hj].
  destruct (Forall2_lookup_r _ _ _ _ _ HF Hj) as (x & Hx & _ & ? & ? & _).
  exists x. split; [by eapply list_elem_of_lookup_2|done].
Qed.

Lemma perturb_each_innovs f lo hi gs e :
  map innov_num (perturb_each f lo hi gs e).1 = map innov_num gs.
Proof.
  pose proof (perturb_each_genes f lo hi gs e) as HF.
  induction HF as [|x y gs ys (Hi & _) _ IH]; [done|]. cbn. by rewrite Hi, IH.
Qed.

Lemma mutate_add_link_endpoints_known self n :
  endpoints_known self -> endpoints_known (mutate_add_link self n).1.2.
Proof.
  intros HK. unfold mutate_add_link.
  repeat break_match; cbn [fst snd]; try done; by apply add_gene_endpoints_known.
Qed.

Lemma mutate_add_neuron_endpoints_known g self n :
  endpoints_known self -> endpoints_known (mutate_add_neuron g self n).1.1.2.
Proof.
  intros HK. unfold mutate_add_neuron.
  assert (H1 : forall i, endpoints_known (set_genes (alter (set_enabled false) i (m_genes self)) self)).
  { intros i. apply set_genes_endpoints_known; [|done].
    intros y Hy. eapply elem_of_alter_endpoints; [|exact Hy]. by intros x. }
  repeat break_match; cbn [fst snd]; try done;
    repeat apply add_gene_endpoints_known; apply H1.
Qed.

Lemma apply_mutation_endpoints_known m g self n :
  endpoints_known self -> endpoints_known (apply_mutation m g self n).1.1.2.
Proof.
  intros HK. destruct m; cbn [apply_mutation fst snd].
  - by apply mutate_add_link_endpoints_known.
  - by apply mutate_add_neuron_endpoints_known.
  - unfold mutate_all_weights.
    pose proof (perturb_each_endpoints Qplus (- weight_mutation_power (params n))
                  (weight_mutation_power (params n)) (m_genes self) (rand_engine n)) as HP.
    destruct (perturb_each _ _ _ _ _) as [gs e1]. cbn [fst snd] in *.
    by apply set_genes_endpoints_known.
  - unfold mutate_one_weight. repeat break_match; cbn [fst snd]; try done.
    apply set_genes_endpoints_known; [|done]. intros y Hy.
    rewrite Heql. eapply elem_of_alter_endpoints; [|exact Hy]. by intros x.
  - unfold mutate_reset_weights.
    pose proof (perturb_each_endpoints (fun _ d => d)
                  (- initial_weight_perturbation (params n))
                  (initial_weight_perturbation (params n)) (m_genes self) (rand_engine n)) as HP.
    destruct (perturb_each _ _ _ _ _) as [gs e1]. cbn [fst snd] in *.
    by apply set_genes_endpoints_known.
  - unfold mutate_remove_gene. repeat break_match; cbn [fst snd]; try done.
    apply set_genes_endpoints_known; [|done]. intros y Hy.
    exists y. rewrite Heql. split; [by eapply list_elem_of_delete_inv|done].
  - unfold mutate_reenable_gene. repeat break_match; cbn [fst snd]; try done.
    apply set_genes_endpoints_known; [|done]. intros y Hy.
    eapply elem_of_alter_endpoints; [|exact Hy]. by intros x.
  - unfold mutate_toggle_enable. repeat break_match; cbn [fst snd]; try done.
    apply set_genes_endpoints_known; [|done]. intros y Hy.
    rewrite Heql. eapply elem_of_alter_endpoints; [|exact Hy]. by intros x.
Qed.

(** X1.  If the known neurons of a genome hold both endpoints of every gene,
    they still do after [random_mutate], whichever of the eight operators
    it selects and whether or not the operator succeeds. *)
Theorem random_mutate_endpoints_known g self n :
  endpoints_known self -> endpoints_known (random_mutate g self n).1.1.2.
Proof.
  intros HK. unfold random_mutate.
  destruct (uniform_int 0 _ (rand_engine n)) as [rnd_val e1].
  by apply apply_mutation_endpoints_known.
Qed.

Lemma random_mutate_endpoints_known_witness :
  endpoints_known seed_genome /\
  endpoints_known (random_mutate [0] seed_genome split_start).1.1.2.
Proof.
  split; [apply genome_of_genes_endpoints_known|].
  apply random_mutate_endpoints_known. apply genome_of_genes_endpoints_known.
Defined.

End KnownNeurons.

(** ** Indices into the known neurons *)

Section KnownIndices.

Lemma genome_ctor_known_wf n :
  0 < number_of_outputs (params n) -> known_wf (genome_ctor n).
Proof.
  intros HO. unfold known_wf, genome_ctor. cbn [m_number_of_inputs m_known_neuron_ids].
  rewrite !length_app, !length_map, !length_seq. cbn [length]. lia.
Qed.

Lemma add_gene_known_wf x self : known_wf self -> known_wf (add_gene x self).
Proof.
  unfold known_wf, add_gene. cbn [m_number_of_inputs m_known_neuron_ids].
  repeat break_match; rewrite ?length_app; cbn [length]; lia.
Qed.

Lemma apply_mutation_known_wf m g self n :
  known_wf self -> known_wf (apply_mutation m g self n).1.1.2.
Proof.
  intros HK. destruct m; cbn [apply_mutation fst snd].
  - unfold mutate_add_link. repeat (break_match; cbn [fst snd]); try done;
      by apply add_gene_known_wf.
  - unfold mutate_add_neuron, next_hidden_neuron_id, next_innovation.
    repeat (break_match; cbn [fst snd]); try done; by repeat apply add_gene_known_wf.
  - unfold mutate_all_weights. repeat (break_match; cbn [fst snd]); done.
  - unfold mutate_one_weight. repeat (break_match; cbn [fst snd]); done.
  - unfold mutate_reset_weights. repeat (break_match; cbn [fst snd]); done.
  - unfold mutate_remove_gene. repeat (break_match; cbn [fst snd]); done.
  - unfold mutate_reenable_gene. repeat (break_match; cbn [fst snd]); done.
  - unfold mutate_toggle_enable. repeat (break_match; cbn [fst snd]); done.
Qed.

(** X7.  On a genome whose known-neurons vector holds the bias, the inputs
    and one more neuron, the two size computations of [mutate_add_link] do
    not wrap, both indices it draws lie inside the vector, and the
    destination index lies behind the bias and the inputs; [random_mutate]
    keeps the vector that long. *)
Theorem mutate_add_link_indices_in_range g self n e :
  known_wf self ->
  let ks := m_known_neuron_ids self in
  let from_ := (uniform_int 0 (length ks - 1) e).1 in
  let d := (uniform_int 0 (length ks - m_number_of_inputs self - 2)
              (uniform_int 0 (length ks - 1) e).2).1 in
  1 <= length ks /\ m_number_of_inputs self + 2 <= length ks /\
  from_ < length ks /\
  m_number_of_inputs self < d + m_number_of_inputs self + 1 < length ks /\
  known_wf (random_mutate g self n).1.1.2.
Proof.
  intros HK. cbn zeta. unfold known_wf in HK.
  pose proof (uniform_int_range 0 (length (m_known_neuron_ids self) - 1) e) as H1.
  pose proof (uniform_int_range 0
                (length (m_known_neuron_ids self) - m_number_of_inputs self - 2)
                (uniform_int 0 (length (m_known_neuron_ids self) - 1) e).2) as H2.
  repeat split; try lia.
  unfold random_mutate. destruct (uniform_int 0 _ (rand_engine n)) as [rnd_val e1].
  by apply apply_mutation_known_wf.
Qed.

Lemma mutate_add_link_indices_in_range_witness :
  let ks := m_known_neuron_ids seed_genome in
  let from_ := (uniform_int 0 (length ks - 1) [3; 0]).1 in
  let d := (uniform_int 0 (length ks - m_number_of_inputs seed_genome - 2)
              (uniform_int 0 (length ks - 1) [3; 0]).2).1 in
  1 <= length ks /\ m_number_of_inputs seed_genome + 2 <= length ks /\
  from_ < length ks /\
  m_number_of_inputs seed_genome < d + m_number_of_inputs seed_genome + 1 < length ks /\
  known_wf (random_mutate [] seed_genome reuse_start).1.1.2.
Proof.
  apply (mutate_add_link_indices_in_range [] seed_genome reuse_start [3; 0]).
  unfold known_wf. cbn. lia.
Defined.

End KnownIndices.

(** ** Splitting a gene *)

Section AddNeuron.

Lemma find_enabled_in_shuffle (gs : list gene) g :
  match find (fun idx => enabled (gs !!! idx)) (shuffle (length gs) (seq 0 (length gs)) g).1 with
  | Some i => i < length gs /\ enabled (gs !!! i) = true
  | None => forall x, x ∈ gs -> enabled x = false
  end.
Proof.
  pose proof (shuffle_Permutation (length gs) (seq 0 (length gs)) g) as HP.
  rewrite length_seq in HP. specialize (HP (le_n _)).
  destruct (find _ _) as [i|] eqn:F.
  - apply find_some in F as [Hin He]. split; [|done].
    apply list_elem_of_In in Hin. rewrite HP in Hin.
    apply elem_of_seq in Hin. lia.
  - intros x Hx. apply list_elem_of_lookup in Hx as [i Hi].
    pose proof (find_none _ _ F i) as Hn. cbv beta in Hn.
    rewrite (list_lookup_total_correct _ _ _ Hi) in Hn. apply Hn.
    apply list_elem_of_In. rewrite HP. apply elem_of_seq.
    apply lookup_lt_Some in Hi. lia.
Qed.

(** C5.  On a pool whose registries are keyed consistently: if the genome has
    an enabled gene, [mutate_add_neuron] succeeds; it disables one enabled
    gene [sel] and appends exactly two genes, [from sel -> h] and
    [h -> to sel], both with the weight of [sel].  [h] is the
    [new_neuron_id] of the NewNeuron innovation recorded for
    ([from sel], [to sel]) when there is one (the two innovation numbers are
    then the recorded ones and the driver is unchanged), and otherwise the
    pool's next hidden-neuron id, which the call consumes, with the next two
    innovation numbers.  If no gene is enabled the call returns [false] and
    leaves the genome and the driver as they were. *)
Theorem mutate_add_neuron_splits g self n :
  pool_wf (innov_pool n) ->
  ((exists x, x ∈ m_genes self /\ enabled x = true) ->
   exists sel_idx sel h i1 i2 self' n' g',
     mutate_add_neuron g self n = (true, self', n', g') /\
     m_genes self !! sel_idx = Some sel /\ enabled sel = true /\
     m_genes self' =
       alter (set_enabled false) sel_idx (m_genes self)
       ++ [new_gene i1 (from sel) h (weight sel);
           new_gene i2 h (to sel) (weight sel)] /\
     match find_innovation (innov_pool n) NEW_NEURON (from sel) (to sel) with
     | Some ex =>
         h = inn_new_neuron_id ex /\ i1 = inn_innov_num ex /\
         i2 = inn_innov_num_2 ex /\ n' = n
     | None =>
         h = m_next_hidden_neuron_id (innov_pool n) /\
         m_next_hidden_neuron_id (innov_pool n') = S h /\
         i1 = m_next_innovation (innov_pool n) /\ i2 = S i1
     end) /\
  ((forall x, x ∈ m_genes self -> enabled x = false) ->
   exists g', mutate_add_neuron g self n = (false, self, n, g')).
Proof.
  intros [_ W]. unfold mutate_add_neuron.
  pose proof (find_enabled_in_shuffle (m_genes self) g) as HF.
  destruct (shuffle _ _ g) as [cands g']. simpl in HF.
  destruct (find _ cands) as [i|]; split.
  - intros _. destruct HF as [Hi He].
    set (sel := m_genes self !!! i) in *.
    assert (Hsel : m_genes self !! i = Some sel)
      by by apply list_lookup_lookup_total_lt.
    assert (H1 : alter (set_enabled false) i (m_genes self) !!! i = set_enabled false sel).
    { apply list_lookup_total_correct. rewrite list_lookup_alter_eq, Hsel. done. }
    cbn [set_genes m_genes].
    rewrite H1. cbn [set_enabled from to weight].
    destruct (find_innovation _ _ _ _) as [ex|] eqn:FI.
    + destruct (W _ _ _ _ FI) as (_ & Hf & Ht).
      eexists i, sel, _, _, _, _, _, _. split; [reflexivity|].
      split; [done|]. split; [done|]. split; [|rewrite FI; done].
      rewrite !add_gene_genes. cbn [set_genes m_genes].
      rewrite lookup_total_app_l by (rewrite length_alter; done).
      rewrite H1, Hf, Ht. cbn [set_enabled weight].
      rewrite <- app_assoc. done.
    + cbn -[alter]. eexists i, sel, _, _, _, _, _, _. split; [reflexivity|].
      split; [done|]. split; [done|]. split.
      2:{ rewrite FI. cbn [innov_pool set_innov_pool].
          rewrite register_innovation_hidden, !register_gene_hidden. done. }
      rewrite !add_gene_genes. cbn [set_genes m_genes]. rewrite <- app_assoc. done.
  - intros HN. destruct HF as [Hi He].
    rewrite (HN (m_genes self !!! i)) in He; [done|].
    apply list_elem_of_lookup. exists i. by apply list_lookup_lookup_total_lt.
  - intros [x [Hx He]]. rewrite (HF x Hx) in He. done.
  - intros _. by exists g'.
Qed.

Lemma mutate_add_neuron_splits_witness :
  (exists sel_idx sel h i1 i2 self' n' g',
     mutate_add_neuron [0] seed_genome reuse_start = (true, self', n', g') /\
     m_genes seed_genome !! sel_idx = Some sel /\ enabled sel = true /\
     m_genes self' =
       alter (set_enabled false) sel_idx (m_genes seed_genome)
       ++ [new_gene i1 (from sel) h (weight sel);
           new_gene i2 h (to sel) (weight sel)] /\
     match find_innovation (innov_pool reuse_start) NEW_NEURON (from sel) (to sel) with
     | Some ex =>
         h = inn_new_neuron_id ex /\ i1 = inn_innov_num ex /\
         i2 = inn_innov_num_2 ex /\ n' = reuse_start
     | None =>
         h = m_next_hidden_neuron_id (innov_pool reuse_start) /\
         m_next_hidden_neuron_id (innov_pool n') = S h /\
         i1 = m_next_innovation (innov_pool reuse_start) /\ i2 = S i1
     end) /\
  (exists g', mutate_add_neuron [0] disabled_genome reuse_start
              = (false, disabled_genome, reuse_start, g')).
Proof.
  split.
  - apply (proj1 (mutate_add_neuron_splits [0] seed_genome reuse_start (empty_pool_wf 3 4))).
    exists (new_gene 0 0 3 1%Q). split; [by left|reflexivity].
  - apply (proj2 (mutate_add_neuron_splits [0] disabled_genome reuse_start (empty_pool_wf 3 4))).
    intros x Hx. cbn in Hx.
    repeat (apply elem_of_cons in Hx as [->|Hx]; [reflexivity|]).
    by apply elem_of_nil in Hx.
Defined.

(** X4.  [mutate_add_neuron] draws nothing from the driver's engine: the
    engine is in the same state after the call as before. *)
Theorem mutate_add_neuron_keeps_rand_engine g self n :
  rand_engine (mutate_add_neuron g self n).1.2 = rand_engine n.
Proof.
  unfold mutate_add_neuron, next_hidden_neuron_id, next_innovation.
  destruct (shuffle _ _ g) as [cands g'].
  destruct (find _ cands) as [i|]; [|done].
  destruct (find_innovation _ _ _ _); done.
Qed.

(** C6.  Two executions of [random_mutate] on the same genome, from the same
    driver state (same parameters, pool and engine), that differ only in the
    state of the function-local generator of [mutate_add_neuron]: both
    succeed, both leave the driver's engine in the same state, and they
    disable and split different genes. *)
Theorem add_neuron_draws_from_static_generator :
  let r1 := random_mutate [0] seed_genome split_start in
  let r2 := random_mutate [1] seed_genome split_start in
  r1.1.1.1 = true /\ r2.1.1.1 = true /\
  map enabled (m_genes r1.1.1.2) = [false; true; true; true; true] /\
  map enabled (m_genes r2.1.1.2) = [true; false; true; true; true] /\
  rand_engine r1.1.2 = [9; 9] /\ rand_engine r2.1.2 = [9; 9] /\
  r1.1.1.2 <> r2.1.1.2.
Proof.
  cbn zeta. repeat split; try reflexivity.
  intros E. apply (f_equal (fun s => map enabled (m_genes s))) in E. vm_compute in E.
  discriminate.
Qed.

End AddNeuron.

(** ** Adding a link, and what a run does to the pool *)

Section AddLink.

Lemma mutate_add_link_inv self n self' n' :
  mutate_add_link self n = (true, self', n') ->
  exists f t w,
    link_exists self f t = false /\
    params n' = params n /\
    match find_gene (innov_pool n) f t with
    | Some c => self' = add_gene (set_weight w c) self /\ innov_pool n' = innov_pool n
    | None =>
        let g := new_gene (m_next_innovation (innov_pool n)) f t w in
        self' = add_gene g self /\
        innov_pool n' =
          register_innovation (new_link_innovation (innov_num g) f t)
            (register_gene g (next_innovation (innov_pool n)).2)
    end.
Proof.
  unfold mutate_add_link. intros H.
  destruct (uniform_int 0 _ (rand_engine n)) as [from_ e1].
  destruct (uniform_int 0 _ e1) as [d e2].
  set (f := m_known_neuron_ids self !!! from_) in *.
  set (t := m_known_neuron_ids self !!! (d + m_number_of_inputs self + 1)) in *.
  destruct (link_exists self f t) eqn:L; [done|].
  destruct (find_gene (innov_pool n) f t) as [c|] eqn:F.
  - destruct (uniform_real _ _ e2) as [w e3]. injection H as <- <-.
    exists f, t, w. rewrite F. done.
  - simpl in H. destruct (uniform_real _ _ e2) as [w e3]. injection H as <- <-.
    exists f, t, w. rewrite F. done.
Qed.

Lemma mutate_add_link_pool_ext self n :
  pool_ext (innov_pool n) (innov_pool (mutate_add_link self n).2).
Proof.
  unfold mutate_add_link, next_innovation.
  repeat break_match; simpl; try apply pool_ext_refl.
  eapply pool_ext_trans; [|apply pool_ext_register_innovation].
  eapply pool_ext_trans; [|apply pool_ext_register_gene].
  apply (pool_ext_next_innovation (innov_pool n)).
Qed.

Lemma mutate_add_neuron_pool_ext g self n :
  pool_ext (innov_pool n) (innov_pool (mutate_add_neuron g self n).1.2).
Proof.
  unfold mutate_add_neuron, next_innovation, next_hidden_neuron_id.
  repeat break_match; simpl; try apply pool_ext_refl.
  eapply pool_ext_trans; [|apply pool_ext_register_innovation].
  eapply pool_ext_trans; [|apply pool_ext_register_gene].
  eapply pool_ext_trans; [|apply pool_ext_register_gene].
  eapply pool_ext_trans; [apply pool_ext_next_hidden_neuron_id|].
  eapply pool_ext_trans; [apply pool_ext_next_innovation|].
  apply (pool_ext_next_innovation
           (next_innovation (next_hidden_neuron_id (innov_pool n)).2).2).
Qed.

Lemma random_mutate_pool_ext g self n :
  pool_ext (innov_pool n) (innov_pool (random_mutate g self n).1.2).
Proof.
  unfold random_mutate.
  destruct (uniform_int 0 _ (rand_engine n)) as [rnd_val e1].
  change (innov_pool n) with (innov_pool (set_rand_engine e1 n)) at 1.
  generalize (set_rand_engine e1 n). intros n1.
  destruct (select_mutation (params n) rnd_val); cbn [apply_mutation fst snd].
  - apply mutate_add_link_pool_ext.
  - apply mutate_add_neuron_pool_ext.
  - unfold mutate_all_weights. repeat break_match. apply pool_ext_refl.
  - unfold mutate_one_weight. repeat break_match; apply pool_ext_refl.
  - unfold mutate_reset_weights. repeat break_match. apply pool_ext_refl.
  - unfold mutate_remove_gene. repeat break_match; apply pool_ext_refl.
  - unfold mutate_reenable_gene. repeat break_match; apply pool_ext_refl.
  - unfold mutate_toggle_enable. repeat break_match; apply pool_ext_refl.
Qed.

Lemma run_step_pool_ext n n' : run_step n n' -> pool_ext (innov_pool n) (innov_pool n').
Proof.
  intros [g self n0 b self' n1 g' H | n0 | n0 e].
  - pose proof (random_mutate_pool_ext g self n0) as HE. by rewrite H in HE.
  - apply (pool_ext_next_innovation (innov_pool n0)).
  - apply pool_ext_refl.
Qed.

Lemma run_pool_ext n n' : run n n' -> pool_ext (innov_pool n) (innov_pool n').
Proof.
  induction 1 as [|n1 n2 n3 Hs _ IH]; [apply pool_ext_refl|].
  eapply pool_ext_trans; [by apply run_step_pool_ext | done].
Qed.

Lemma mutate_add_link_canonical self n self' n' :
  pool_wf (innov_pool n) ->
  mutate_add_link self n = (true, self', n') ->
  exists gnew c,
    m_genes self' = m_genes self ++ [gnew] /\
    find_gene (innov_pool n') (from gnew) (to gnew) = Some c /\
    gnew = set_weight (weight gnew) c /\
    (forall c0, find_gene (innov_pool n) (from gnew) (to gnew) = Some c0 ->
                c0 = c /\ innov_pool n' = innov_pool n) /\
    (find_gene (innov_pool n) (from gnew) (to gnew) = None ->
     innov_num gnew = m_next_innovation (innov_pool n)).
Proof.
  intros W H. apply mutate_add_link_inv in H as (f & t & w & _ & _ & H).
  destruct (find_gene (innov_pool n) f t) as [c|] eqn:F.
  - destruct H as [-> HP]. destruct (proj1 W _ _ _ F) as [Hf Ht].
    exists (set_weight w c), c. cbn [set_weight from to weight].
    rewrite Hf, Ht, HP, F. repeat split; try done; congruence.
  - cbn zeta in H. destruct H as [-> HP].
    set (g := new_gene (m_next_innovation (innov_pool n)) f t w) in *.
    exists g, g. cbn [g new_gene from to weight].
    rewrite HP, F, find_gene_register_innovation.
    split; [done|]. split.
    { by apply (find_gene_register_gene_new g). }
    repeat split; done.
Qed.

(** C1.  In a run that starts from a consistently keyed pool, let a
    successful [mutate_add_link] on genome [A] append the gene [gA] and a
    later successful [mutate_add_link] on genome [B] append the gene [gB].
    After the first call the pool holds a canonical gene [c] for the edge of
    [gA] with the innovation number of [gA].  If both genes are the same
    directed edge, they carry the same innovation number: the second call
    finds [c], copies it with a new weight only, and leaves the pool as it
    was. *)
Theorem add_link_reuses_innovation A B n0 n1 n2 n3 A' B' :
  pool_wf (innov_pool n0) ->
  mutate_add_link A n0 = (true, A', n1) ->
  run n1 n2 ->
  mutate_add_link B n2 = (true, B', n3) ->
  exists gA gB c,
    m_genes A' = m_genes A ++ [gA] /\
    m_genes B' = m_genes B ++ [gB] /\
    find_gene (innov_pool n1) (from gA) (to gA) = Some c /\
    innov_num c = innov_num gA /\
    (from gA = from gB -> to gA = to gB ->
     innov_num gA = innov_num gB /\
     find_gene (innov_pool n2) (from gB) (to gB) = Some c /\
     gB = set_weight (weight gB) c /\
     innov_pool n3 = innov_pool n2).
Proof.
  intros W0 HA Hrun HB.
  pose proof (mutate_add_link_pool_ext A n0) as [_ W01]. rewrite HA in W01.
  simpl in W01. specialize (W01 W0).
  pose proof (run_pool_ext _ _ Hrun) as [K12 W12]. specialize (W12 W01).
  apply (mutate_add_link_canonical _ _ _ _ W0) in HA as (gA & c & HgA & Hc & HcA & _).
  apply (mutate_add_link_canonical _ _ _ _ W12) in HB as (gB & cB & HgB & _ & HcB & HB & _).
  exists gA, gB, c. split; [done|]. split; [done|]. split; [done|].
  split; [by rewrite HcA|].
  intros Hf Ht. apply K12 in Hc. rewrite Hf, Ht in Hc.
  destruct (HB _ Hc) as [-> HP].
  split; [by rewrite HcA, HcB|]. done.
Qed.

(** The run of the example: both genomes add the link 3->3 and both genes
    carry innovation number 3. *)
Lemma add_link_reuses_innovation_witness :
  exists gA gB,
    last (m_genes reuse_step_1.1.2) = Some gA /\
    last (m_genes (mutate_add_link seed_genome reuse_step_1.2).1.2) = Some gB /\
    (from gA, to gA) = (3, 3) /\ (from gB, to gB) = (3, 3) /\
    innov_num gA = 3 /\ innov_num gA = innov_num gB.
Proof.
  destruct (add_link_reuses_innovation seed_genome seed_genome reuse_start
              reuse_step_1.2 reuse_step_1.2 (mutate_add_link seed_genome reuse_step_1.2).2
              reuse_step_1.1.2 (mutate_add_link seed_genome reuse_step_1.2).1.2
              (empty_pool_wf 3 4) eq_refl (rtc_refl _ _) eq_refl)
    as (gA & gB & c & HA & HB & _ & _ & Hsame).
  assert (EA : last (m_genes reuse_step_1.1.2) = Some gA) by (rewrite HA; apply last_snoc).
  assert (EB : last (m_genes (mutate_add_link seed_genome reuse_step_1.2).1.2) = Some gB)
    by (rewrite HB; apply last_snoc).
  exists gA, gB. split; [exact EA|]. split; [exact EB|].
  vm_compute in EA. injection EA as <-. vm_compute in EB. injection EB as <-.
  split; [reflexivity|]. split; [reflexivity|]. split; [reflexivity|].
  exact (proj1 (Hsame eq_refl eq_refl)).
Defined.

End AddLink.

(** ** Order of the genes *)

Section GeneOrder.

Lemma map_innov_alter (f : gene -> gene) (i : nat) (gs : list gene) :
  (forall x, innov_num (f x) = innov_num x) ->
  map innov_num (alter f i gs) = map innov_num gs.
Proof.
  intros Hf. revert i. induction gs as [|x gs IH]; intros [|i]; cbn; try done.
  - by rewrite Hf.
  - by rewrite IH.
Qed.

Lemma StronglySorted_delete (i : nat) (l : list nat) :
  StronglySorted lt l -> StronglySorted lt (delete i l).
Proof.
  intros HS. revert i.
  induction HS as [|x l HS IH HF]; intros [|i]; cbn; try done; try by constructor.
  constructor; [apply IH|].
  rewrite Forall_forall in *. intros y Hy. apply HF.
  by eapply list_elem_of_delete_inv.
Qed.

Lemma map_innov_delete (i : nat) (gs : list gene) :
  map innov_num (delete i gs) = delete i (map innov_num gs).
Proof. revert i. induction gs as [|x gs IH]; intros [|i]; cbn; try done. by rewrite IH. Qed.

(** X2.  The six operators that add no gene (all_weights, one_weight,
    reset_weights, remove_gene, reenable_gene, toggle_enable) keep the genes
    sorted by innovation number. *)
Theorem apply_mutation_keeps_sorted m g self n :
  adds_no_gene m = true ->
  sorted_by_innov (m_genes self) ->
  sorted_by_innov (m_genes (apply_mutation m g self n).1.1.2).
Proof.
  intros Hm HS. unfold sorted_by_innov in *.
  destruct m; try discriminate; cbn [apply_mutation fst snd].
  - unfold mutate_all_weights.
    pose proof (perturb_each_innovs Qplus (- weight_mutation_power (params n))
                  (weight_mutation_power (params n)) (m_genes self) (rand_engine n)) as HP.
    destruct (perturb_each _ _ _ _ _) as [gs e1]. cbn [fst snd set_genes m_genes] in *.
    by rewrite HP.
  - unfold mutate_one_weight.
    destruct (m_genes self) as [|g0 l] eqn:E; [cbn [fst snd]; by rewrite E|].
    destruct (uniform_int _ _ _) as [k e1]. destruct (uniform_real _ _ _) as [d e2].
    cbn [fst snd set_genes m_genes]. by rewrite map_innov_alter.
  - unfold mutate_reset_weights.
    pose proof (perturb_each_innovs (fun _ d => d)
                  (- initial_weight_perturbation (params n))
                  (initial_weight_perturbation (params n)) (m_genes self) (rand_engine n)) as HP.
    destruct (perturb_each _ _ _ _ _) as [gs e1]. cbn [fst snd set_genes m_genes] in *.
    by rewrite HP.
  - unfold mutate_remove_gene.
    destruct (m_genes self) as [|g0 l] eqn:E; [cbn [fst snd]; by rewrite E|].
    destruct (uniform_int _ _ _) as [k e1].
    cbn [fst snd set_genes m_genes]. rewrite map_innov_delete.
    by apply StronglySorted_delete.
  - unfold mutate_reenable_gene.
    destruct (disabled_candidates (m_genes self)) as [|c cs]; [done|].
    destruct (uniform_int _ _ _) as [k e1].
    cbn [fst snd set_genes m_genes]. by rewrite map_innov_alter.
  - unfold mutate_toggle_enable.
    destruct (m_genes self) as [|g0 l] eqn:E; [cbn [fst snd]; by rewrite E|].
    destruct (uniform_int _ _ _) as [k e1].
    cbn [fst snd set_genes m_genes]. by rewrite map_innov_alter.
Qed.

Lemma apply_mutation_keeps_sorted_witness :
  sorted_by_innov (m_genes seed_genome) /\
  sorted_by_innov (m_genes (apply_mutation RemoveGene [] seed_genome split_start).1.1.2).
Proof.
  assert (HS : sorted_by_innov (m_genes seed_genome)).
  { unfold sorted_by_innov. cbn. repeat constructor. }
  split; [exact HS|].
  apply (apply_mutation_keeps_sorted RemoveGene [] seed_genome split_start eq_refl HS).
Defined.

Lemma not_sorted_after_5_3 l : ~ StronglySorted lt (l ++ [5; 3]).
Proof.
  induction l as [|x l IH]; cbn; intros HS.
  - destruct (StronglySorted_inv HS) as [_ HF]. inversion HF; subst. lia.
  - destruct (StronglySorted_inv HS) as [HS' _]. by apply IH.
Qed.

(** C3.  A run of three successful mutations from the seed genome: B adds
    the link 3->3 (innovation 3), A splits a gene (innovations 4 and 5), A
    adds the link 3->3 and is given the pool's innovation 3 again.
    [add_gene] appends it, so the genes of A, sorted before the mutation,
    carry the innovation numbers 0, 1, 2, 4, 5, 3 after it.  The merge loop
    of [distance_to] then finds three matching genes between A and B, which
    share four innovation numbers. *)
Theorem add_link_breaks_innovation_order :
  reuse_step_1.1.1 = true /\ reuse_step_2.1.1.1 = true /\ reuse_step_3.1.1 = true /\
  sorted_by_innov (m_genes seed_genome) /\
  map innov_num (m_genes reuse_step_1.1.2) = [0; 1; 2; 3] /\
  map innov_num (m_genes reuse_step_2.1.1.2) = [0; 1; 2; 4; 5] /\
  sorted_by_innov (m_genes reuse_step_2.1.1.2) /\
  map innov_num (m_genes reuse_step_3.1.2) = [0; 1; 2; 4; 5; 3] /\
  ~ sorted_by_innov (m_genes reuse_step_3.1.2) /\
  map innov_num (spec_matching (m_genes reuse_step_3.1.2) (m_genes reuse_step_1.1.2))
    = [0; 1; 2; 3] /\
  nb_matching_genes
    (merge_walk (m_genes reuse_step_3.1.2) (m_genes reuse_step_1.1.2) 0 0 0%Q) = 3.
Proof.
  repeat split; try reflexivity.
  - unfold sorted_by_innov. cbn. repeat constructor.
  - unfold sorted_by_innov. cbn. repeat constructor.
  - unfold sorted_by_innov.
    change (map innov_num (m_genes reuse_step_3.1.2)) with ([0; 1; 2; 4] ++ [5; 3]).
    apply not_sorted_after_5_3.
Qed.

End GeneOrder.

(** ** Attempts of a random mutation *)

Section Attempts.

(** An operator that reports failure has left the genome as it was. *)
Lemma apply_mutation_failure m g self n :
  (apply_mutation m g self n).1.1.1 = false ->
  (apply_mutation m g self n).1.1.2 = self.
Proof.
  destruct m; cbn [apply_mutation fst snd].
  - unfold mutate_add_link. repeat (break_match; cbn [fst snd]); done.
  - unfold mutate_add_neuron, next_hidden_neuron_id, next_innovation.
    repeat (break_match; cbn [fst snd]); done.
  - unfold mutate_all_weights. repeat (break_match; cbn [fst snd]); done.
  - unfold mutate_one_weight. repeat (break_match; cbn [fst snd]); done.
  - unfold mutate_reset_weights. repeat (break_match; cbn [fst snd]); done.
  - unfold mutate_remove_gene. repeat (break_match; cbn [fst snd]); done.
  - unfold mutate_reenable_gene. repeat (break_match; cbn [fst snd]); done.
  - unfold mutate_toggle_enable. repeat (break_match; cbn [fst snd]); done.
Qed.

Lemma random_mutate_failure g self n :
  (random_mutate g self n).1.1.1 = false -> (random_mutate g self n).1.1.2 = self.
Proof.
  unfold random_mutate. destruct (uniform_int 0 _ (rand_engine n)) as [rnd_val e1].
  apply apply_mutation_failure.
Qed.

Lemma mutate_loop_attempts fuel tries k g self n :
  (0 <= tries < 2 ^ 32)%Z -> Z.to_nat tries < fuel ->
  exists r, mutate_loop fuel tries k g self n = Some r /\
            k < calls r <= k + S (Z.to_nat tries) /\
            (run_ok r = false -> calls r = k + S (Z.to_nat tries) /\ offspring r = self).
Proof.
  revert tries k g self n. induction fuel as [|fuel IH]; intros tries k g self n Ht Hf; [lia|].
  cbn [mutate_loop].
  pose proof (random_mutate_failure g self n) as HU.
  destruct (random_mutate g self n) as [[[ok self1] n1] g1]. cbn [fst snd] in HU.
  destruct ok.
  - eexists. split; [reflexivity|]. cbn. split; [lia|done].
  - specialize (HU eq_refl). subst self1.
    destruct (tries =? 0)%Z eqn:E.
    + apply Z.eqb_eq in E. subst tries. eexists. split; [reflexivity|]. cbn.
      split; [lia|]. intros _. split; [lia|done].
    + apply Z.eqb_neq in E.
      assert (Hm : ((tries - 1) mod 2 ^ 32 = tries - 1)%Z) by (apply Z.mod_small; lia).
      rewrite Hm.
      destruct (IH (tries - 1)%Z (S k) g1 self n1) as (r & Hr & Hc & Hfail); [lia|lia|].
      exists r. split; [done|]. split; [lia|].
      intros Hrf. destruct (Hfail Hrf) as [Hc' Ho]. split; [lia|done].
Qed.

(** X3.  [get_random_mutation] always returns, after one to four executions
    of [random_mutate]; when all of them failed there were four, and the
    result is the genome itself as moved out of the local copy. *)
Theorem get_random_mutation_attempts g self n :
  exists r, get_random_mutation 4 g self n = Some r /\
            1 <= calls r <= 4 /\
            (run_ok r = false -> calls r = 4 /\ offspring r = genome_move self).
Proof.
  unfold get_random_mutation.
  destruct (mutate_loop_attempts 4 3%Z 0 g self n) as (r & -> & Hc & Hf); [lia|cbn; lia|].
  eexists. split; [reflexivity|]. cbn [calls run_ok offspring].
  change (Z.to_nat 3) with 3 in *.
  split; [lia|]. intros Hr. destruct (Hf Hr) as [Hc' ->]. split; [lia|done].
Qed.

(** C7.  On a genome without genes, with [mutate_toggle_enable] the only
    operator that can be selected, every attempt fails: the loop of
    [get_random_mutation] is still running after three executions of
    [random_mutate] and stops after the fourth, returning the genome with no
    gene added. *)
Theorem get_random_mutation_makes_four_attempts :
  get_random_mutation 3 [] (genome_ctor no_target_start) no_target_start = None /\
  exists r,
    get_random_mutation 4 [] (genome_ctor no_target_start) no_target_start = Some r /\
    run_ok r = false /\ calls r = 4 /\
    m_genes (offspring r) = [].
Proof. split; [reflexivity|]. eexists. repeat split; reflexivity. Qed.

End Attempts.

(** ** The merge walk computes the classification of the specification *)

Section MergeWalk.

Lemma sorted_by_innov_inv a gs :
  sorted_by_innov (a :: gs) -> sorted_by_innov gs /\ all_above (innov_num a) gs.
Proof.
  unfold sorted_by_innov, all_above. cbn [map]. intros H.
  destruct (StronglySorted_inv H) as [H1 H2]. split; [done|].
  rewrite Forall_map in H2. exact H2.
Qed.

Lemma all_above_weaken i j gs : i <= j -> all_above j gs -> all_above i gs.
Proof.
  intros Hij H. eapply Forall_impl; [exact H|]. intros x Hx. cbv beta in *. lia.
Qed.

Lemma has_innov_above i gs : all_above i gs -> has_innov i gs = false.
Proof.
  induction 1 as [|x gs Hx _ IH]; [done|]. cbn [has_innov existsb].
  fold (has_innov i gs). rewrite IH, orb_false_r. apply Nat.eqb_neq. lia.
Qed.

Lemma has_innov_cons i b gs :
  has_innov i (b :: gs) = (innov_num b =? i) || has_innov i gs.
Proof. done. Qed.

Lemma beyond_cons i b gs : beyond i (b :: gs) = (innov_num b <? i) && beyond i gs.
Proof. done. Qed.

Section SkipHead.
Variables (b : gene) (L B : list gene).
Hypothesis HL : all_above (innov_num b) L.

Lemma has_innov_skip x : x ∈ L -> has_innov (innov_num x) (b :: B) = has_innov (innov_num x) B.
Proof.
  intros Hx. rewrite has_innov_cons.
  unfold all_above in HL. rewrite Forall_forall in HL. specialize (HL x Hx).
  replace (innov_num b =? innov_num x) with false; [done|].
  symmetry. apply Nat.eqb_neq. lia.
Qed.

Lemma beyond_skip x : x ∈ L -> beyond (innov_num x) (b :: B) = beyond (innov_num x) B.
Proof.
  intros Hx. rewrite beyond_cons.
  unfold all_above in HL. rewrite Forall_forall in HL. specialize (HL x Hx).
  replace (innov_num b <? innov_num x) with true; [done|].
  symmetry. apply Nat.ltb_lt. lia.
Qed.

Lemma spec_matching_skip : spec_matching L (b :: B) = spec_matching L B.
Proof.
  apply filter_ext_in. intros x Hx. apply has_innov_skip. by apply list_elem_of_In.
Qed.

Lemma excess_of_skip : excess_of L (b :: B) = excess_of L B.
Proof.
  apply filter_ext_in. intros x Hx. apply beyond_skip. by apply list_elem_of_In.
Qed.

Lemma disjoint_of_skip : disjoint_of L (b :: B) = disjoint_of L B.
Proof.
  apply filter_ext_in. intros x Hx. apply list_elem_of_In in Hx.
  by rewrite has_innov_skip, beyond_skip.
Qed.

End SkipHead.

Lemma spec_weight_sum_skip b L B :
  all_above (innov_num b) L -> spec_weight_sum L (b :: B) = spec_weight_sum L B.
Proof.
  induction 1 as [|x L' Hx HL' IH]; [done|].
  cbn [spec_weight_sum find]. rewrite IH.
  replace (innov_num b =? innov_num x) with false; [done|].
  symmetry. apply Nat.eqb_neq. lia.
Qed.

Lemma filter_none {A} (f : A -> bool) l :
  (forall x, In x l -> f x = false) -> List.filter f l = [].
Proof.
  induction l as [|x l IH]; [done|]. intros H. cbn.
  rewrite (H x) by (by left). apply IH. intros y Hy. apply H. by right.
Qed.

Lemma filter_all {A} (f : A -> bool) l :
  (forall x, In x l -> f x = true) -> List.filter f l = l.
Proof.
  induction l as [|x l IH]; [done|]. intros H. cbn.
  rewrite (H x) by (by left). f_equal. apply IH. intros y Hy. apply H. by right.
Qed.

Lemma spec_matching_nil_r A : spec_matching A [] = [].
Proof. by apply filter_none. Qed.

Lemma disjoint_of_nil_r A : disjoint_of A [] = [].
Proof. by apply filter_none. Qed.

Lemma excess_of_nil_r A : excess_of A [] = A.
Proof. by apply filter_all. Qed.

Lemma spec_weight_sum_nil A : (spec_weight_sum A [] == 0)%Q.
Proof.
  induction A as [|a A IH]; [reflexivity|]. cbn. rewrite IH. reflexivity.
Qed.

Lemma merge_walk_spec A B :
  sorted_by_innov A -> sorted_by_innov B ->
  forall d m s,
    let w := merge_walk A B d m s in
    nb_matching_genes w = m + length (spec_matching A B) /\
    nb_disjoint_genes w = d + length (spec_disjoint A B) /\
    nb_excess_genes w = length (spec_excess A B) /\
    (sum_weight_difference w == s + spec_weight_sum A B)%Q.
Proof.
  revert B. induction A as [|a A' IHA].
  - intros B _ _ d m s. cbn [merge_walk]. unfold nb_excess_genes, spec_disjoint, spec_excess.
    rewrite disjoint_of_nil_r, excess_of_nil_r. cbn.
    repeat split; try lia. ring.
  - intros B SA. apply sorted_by_innov_inv in SA as [SA' HA'].
    induction B as [|b B' IHB]; intros SB d m s.
    + cbn [merge_walk]. unfold nb_excess_genes, spec_disjoint, spec_excess.
      rewrite spec_matching_nil_r, disjoint_of_nil_r, excess_of_nil_r.
      rewrite spec_weight_sum_nil. cbn. rewrite app_nil_r.
      repeat split; try lia. ring.
    + apply sorted_by_innov_inv in SB as HB. destruct HB as [SB' HB'].
      cbn [merge_walk].
      destruct (innov_num a =? innov_num b) eqn:Eab.
      * apply Nat.eqb_eq in Eab.
        destruct (IHA B' SA' SB' d (S m) (s + Qabs (weight a - weight b))%Q)
          as (Hm & Hd & He & Hs).
        assert (HA'b : all_above (innov_num b) A') by (by rewrite <- Eab).
        assert (HB'a : all_above (innov_num a) B') by (by rewrite Eab).
        unfold spec_disjoint, spec_excess.
        unfold spec_matching at 1, disjoint_of at 1 2, excess_of at 1 2.
        cbn [List.filter]. rewrite !has_innov_cons, !beyond_cons.
        rewrite Eab, Nat.eqb_refl, Nat.ltb_irrefl. cbn [orb andb negb].
        fold (spec_matching A' (b :: B')) (disjoint_of A' (b :: B'))
             (excess_of A' (b :: B')) (disjoint_of B' (a :: A')) (excess_of B' (a :: A')).
        rewrite spec_matching_skip, disjoint_of_skip, excess_of_skip by done.
        rewrite (disjoint_of_skip a B' A'), (excess_of_skip a B' A') by done.
        cbn [spec_weight_sum find]. rewrite Eab, Nat.eqb_refl.
        rewrite spec_weight_sum_skip by done.
        split; [cbn [length]; lia|]. split; [done|]. split; [done|].
        rewrite Hs. ring.
      * apply Nat.eqb_neq in Eab.
        destruct (innov_num a <? innov_num b) eqn:Lab.
        -- apply Nat.ltb_lt in Lab.
           assert (Hsb : sorted_by_innov (b :: B')).
           { unfold sorted_by_innov. cbn [map]. constructor; [done|].
             rewrite Forall_map. exact HB'. }
           destruct (IHA (b :: B') SA' Hsb (S d) m s) as (Hm & Hd & He & Hs).
           assert (HBa : all_above (innov_num a) (b :: B')).
           { constructor; [done|]. eapply all_above_weaken; [|done]. lia. }
           unfold spec_disjoint, spec_excess.
           unfold spec_matching at 1, disjoint_of at 1, excess_of at 1.
           cbn [List.filter].
           rewrite (has_innov_above _ _ HBa). rewrite beyond_cons.
           replace (innov_num b <? innov_num a) with false
             by (symmetry; apply Nat.ltb_ge; lia).
           cbn [orb andb negb].
           fold (spec_matching A' (b :: B')) (disjoint_of A' (b :: B'))
                (excess_of A' (b :: B')).
           rewrite (disjoint_of_skip a (b :: B') A'), (excess_of_skip a (b :: B') A') by done.
           cbn [spec_weight_sum find].
           replace (innov_num b =? innov_num a) with false
             by (symmetry; apply Nat.eqb_neq; lia).
           assert (Hnone : find (fun b0 => innov_num b0 =? innov_num a) B' = None).
           { destruct (find _ B') as [x|] eqn:F; [|done].
             apply find_some in F as [Hx Hxa]. apply Nat.eqb_eq in Hxa.
             unfold all_above in HB'. rewrite Forall_forall in HB'.
             apply list_elem_of_In in Hx. specialize (HB' x Hx). lia. }
           rewrite Hnone.
           split; [done|]. split; [rewrite Hd; unfold spec_disjoint; cbn [length app]; lia|].
           split; [done|]. rewrite Hs. ring.
        -- apply Nat.ltb_ge in Lab.
           change ((fix inner (oya2 : list gene) (d m : nat) (s : Q) {struct oya2} : walk_state := _) B' (S d) m s)
             with (merge_walk (a :: A') B' (S d) m s).
           destruct (IHB SB' (S d) m s) as (Hm & Hd & He & Hs).
           assert (HAb : all_above (innov_num b) (a :: A')).
           { constructor; [lia|]. eapply all_above_weaken; [|done]. lia. }
           unfold spec_disjoint, spec_excess.
           rewrite spec_matching_skip, disjoint_of_skip, excess_of_skip by done.
           rewrite spec_weight_sum_skip by done.
           unfold disjoint_of at 2, excess_of at 2. cbn [List.filter].
           rewrite (has_innov_above _ _ HAb). rewrite beyond_cons.
           replace (innov_num a <? innov_num b) with false
             by (symmetry; apply Nat.ltb_ge; lia).
           cbn [orb andb negb].
           fold (disjoint_of B' (a :: A')) (excess_of B' (a :: A')).
           split; [done|].
           split; [rewrite Hd; unfold spec_disjoint; rewrite !length_app; cbn [length]; lia|].
           split; [done|]. done.
Qed.

End MergeWalk.

(** ** Genomes that share no innovation *)

Section NoSharedInnovation.

Lemma merge_walk_matching_mono A B d m s :
  m <= nb_matching_genes (merge_walk A B d m s).
Proof.
  revert B d m s. induction A as [|a A' IHA]; [intros; cbn; lia|].
  induction B as [|b B' IHB]; intros d m s; [cbn; lia|].
  cbn [merge_walk]. destruct (innov_num a =? innov_num b).
  - etrans; [|apply IHA]. lia.
  - destruct (innov_num a <? innov_num b); [apply IHA|apply IHB].
Qed.

(** With no matching gene the accumulated weight difference is still the
    value it started from. *)
Lemma merge_walk_no_match_sum A B d m s :
  nb_matching_genes (merge_walk A B d m s) = m ->
  sum_weight_difference (merge_walk A B d m s) = s.
Proof.
  revert B d m s. induction A as [|a A' IHA]; [done|].
  induction B as [|b B' IHB]; intros d m s; [done|].
  cbn [merge_walk]. destruct (innov_num a =? innov_num b).
  - intros H. pose proof (merge_walk_matching_mono A' B' d (S m)
                            (s + Qabs (weight a - weight b))%Q). lia.
  - destruct (innov_num a <? innov_num b); [apply IHA|apply IHB].
Qed.

Lemma merge_walk_match_shared A B d m s :
  nb_matching_genes (merge_walk A B d m s) <> m -> share_innovation A B.
Proof.
  revert B d m s. induction A as [|a A' IHA]; [done|].
  induction B as [|b B' IHB]; intros d m s; [done|].
  cbn [merge_walk]. destruct (innov_num a =? innov_num b) eqn:E.
  - intros _. exists a, b. apply Nat.eqb_eq in E. repeat split; [left|left|done].
  - destruct (innov_num a <? innov_num b).
    + intros H. destruct (IHA _ _ _ _ H) as (x & y & Hx & Hy & Hxy).
      exists x, y. repeat split; [by right|done|done].
    + intros H. destruct (IHB _ _ _ H) as (x & y & Hx & Hy & Hxy).
      exists x, y. repeat split; [done|by right|done].
Qed.

Lemma merge_walk_no_shared A B d m s :
  ~ share_innovation A B -> nb_matching_genes (merge_walk A B d m s) = m.
Proof.
  intros H. destruct (decide (nb_matching_genes (merge_walk A B d m s) = m)); [done|].
  exfalso. apply H. by eapply merge_walk_match_shared.
Qed.

Lemma share_innovation_has_innov A B :
  forallb (fun a => negb (has_innov (innov_num a) B)) A = true ->
  ~ share_innovation A B.
Proof.
  intros Hall (a & b & Ha & Hb & E).
  rewrite forallb_forall in Hall. apply list_elem_of_In in Ha.
  specialize (Hall a Ha). apply negb_true_iff in Hall.
  assert (has_innov (innov_num a) B = true); [|congruence].
  apply existsb_exists. exists b. split; [by apply list_elem_of_In|].
  apply Nat.eqb_eq. done.
Qed.

(** C10.  For two genomes of more than four genes each: if they share no
    innovation number, the first loop of [distance_to] ends with
    [nb_matching_genes = 0] and [sum_weight_difference = 0], the average is
    0/0, the distance is not-a-number and [is_compatible_with] answers
    [false]; and whenever the distance is a number, the genomes share an
    innovation number. *)
Theorem distance_to_without_shared_innovation n A B :
  4 < length (m_genes A) -> 4 < length (m_genes B) ->
  (~ share_innovation (m_genes A) (m_genes B) ->
   let w := merge_walk (m_genes A) (m_genes B) 0 0 0%Q in
   nb_matching_genes w = 0 /\ sum_weight_difference w = 0%Q /\
   average_of (sum_weight_difference w) (nb_matching_genes w) = NaN /\
   distance_to n A B = NaN /\ is_compatible_with n A B = false) /\
  (forall q, distance_to n A B = Num q -> share_innovation (m_genes A) (m_genes B)).
Proof.
  intros HA HB.
  assert (HN : (Nat.max (length (m_genes A)) (length (m_genes B)) <=? 4) = false)
    by (apply Nat.leb_gt; lia).
  split.
  - intros Hno. cbn zeta.
    pose proof (merge_walk_no_shared _ _ 0 0 0%Q Hno) as Hm.
    pose proof (merge_walk_no_match_sum _ _ 0 0 0%Q Hm) as Hs.
    assert (HD : distance_to n A B = NaN).
    { unfold distance_to. rewrite HN. cbn zeta. rewrite Hm. done. }
    unfold is_compatible_with. rewrite HD, Hm, Hs. done.
  - intros q. unfold distance_to. rewrite HN. cbn zeta.
    destruct (nb_matching_genes (merge_walk (m_genes A) (m_genes B) 0 0 0%Q)) eqn:Hm.
    + done.
    + intros _. apply (merge_walk_match_shared _ _ 0 0 0%Q). rewrite Hm. done.
Qed.

Lemma distance_to_without_shared_innovation_witness :
  let w := merge_walk (m_genes odd_genome) (m_genes even_genome) 0 0 0%Q in
  nb_matching_genes w = 0 /\ sum_weight_difference w = 0%Q /\
  average_of (sum_weight_difference w) (nb_matching_genes w) = NaN /\
  distance_to reuse_start odd_genome even_genome = NaN /\
  is_compatible_with reuse_start odd_genome even_genome = false.
Proof.
  assert (HA : 4 < length (m_genes odd_genome)) by (cbn; lia).
  assert (HB : 4 < length (m_genes even_genome)) by (cbn; lia).
  apply (proj1 (distance_to_without_shared_innovation reuse_start odd_genome even_genome HA HB)).
  apply share_innovation_has_innov. reflexivity.
Defined.

End NoSharedInnovation.

(** ** The distance formula *)

Section DistanceFormula.

Lemma fp_eq_refl a : fp_eq a a.
Proof. destruct a; cbn; [reflexivity|done]. Qed.

Lemma fp_add_eq a a' b b' : fp_eq a a' -> fp_eq b b' -> fp_eq (fp_add a b) (fp_add a' b').
Proof. destruct a, a', b, b'; cbn; try done. intros -> ->. reflexivity. Qed.

Lemma fp_mul_eq a a' b b' : fp_eq a a' -> fp_eq b b' -> fp_eq (fp_mul a b) (fp_mul a' b').
Proof. destruct a, a', b, b'; cbn; try done. intros -> ->. reflexivity. Qed.

Lemma average_of_eq s s' c : (s == s')%Q -> fp_eq (average_of s c) (average_of s' c).
Proof. destruct c; cbn; [done|]. intros ->. reflexivity. Qed.

Lemma distance_to_refines n A B :
  sorted_by_innov (m_genes A) -> sorted_by_innov (m_genes B) ->
  fp_eq (distance_to n A B) (spec_distance n A B).
Proof.
  intros SA SB. unfold distance_to, spec_distance.
  destruct (_ <=? 4); [reflexivity|]. cbn zeta.
  destruct (merge_walk_spec _ _ SA SB 0 0 0%Q) as (Hm & Hd & He & Hs).
  cbn zeta in *. rewrite Hm, Hd, He. cbn [Nat.add].
  repeat apply fp_add_eq; try apply fp_eq_refl.
  apply fp_mul_eq; [apply fp_eq_refl|]. apply average_of_eq.
  rewrite Hs. ring.
Qed.

(** C2, as amended.  For gene lists sorted by innovation number,
    [distance_to] is c1 * excess / N + c2 * disjoint / N + c3 * average
    weight difference, with N the larger gene count, excess the genes beyond
    the other parent's maximum, disjoint the other unmatched genes, and the
    average taken over the matching genes (not-a-number when there is none);
    it is 0 when N <= 4.  For A = {1,2,3,5,8} and B = {1,2,4,5,9,10}:
    matching = {1,2,5}, disjoint = {3,4,8}, excess = {9,10}, and with equal
    weights and c1 = c2 = c3 = 1 the distance is 2/6 + 3/6 = 5/6. *)
Theorem distance_to_formula n A B :
  sorted_by_innov (m_genes A) -> sorted_by_innov (m_genes B) ->
  fp_eq (distance_to n A B) (spec_distance n A B) /\
  (Nat.max (length (m_genes A)) (length (m_genes B)) <= 4 -> distance_to n A B = Num 0) /\
  (forall w,
     distance_coef_c1 (params n) = 1%Q -> distance_coef_c2 (params n) = 1%Q ->
     distance_coef_c3 (params n) = 1%Q ->
     let gA := m_genes (example_A w) in
     let gB := m_genes (example_B w) in
     let st := merge_walk gA gB 0 0 0%Q in
     map innov_num (spec_matching gA gB) = [1; 2; 5] /\
     map innov_num (spec_disjoint gA gB) ≡ₚ [3; 4; 8] /\
     map innov_num (spec_excess gA gB) = [9; 10] /\
     nb_matching_genes st = 3 /\ nb_disjoint_genes st = 3 /\ nb_excess_genes st = 2 /\
     fp_eq (distance_to n (example_A w) (example_B w)) (Num (5 # 6))).
Proof.
  intros SA SB. split; [by apply distance_to_refines|]. split.
  - intros HN. unfold distance_to. apply Nat.leb_le in HN. by rewrite HN.
  - intros w H1 H2 H3. cbn zeta.
    repeat split; try reflexivity.
    + cbn. apply perm_skip, perm_swap.
    + unfold distance_to. rewrite H1, H2, H3.
      change (merge_walk (m_genes (example_A w)) (m_genes (example_B w)) 0 0 0%Q)
        with (mk_walk [] [new_gene 9 0 11 w; new_gene 10 0 12 w] 3 3
                (0 + Qabs (w - w) + Qabs (w - w) + Qabs (w - w))%Q).
      change (fp_eq _ _) with
        (1 * Q_of_nat 2 / Q_of_nat 6 + 1 * Q_of_nat 3 / Q_of_nat 6
         + 1 * ((0 + Qabs (w - w) + Qabs (w - w) + Qabs (w - w)) / Q_of_nat 3)
         == 5 # 6)%Q.
      assert (E : (w - w == 0)%Q) by ring.
      rewrite E. reflexivity.
Qed.

Lemma distance_to_formula_witness :
  fp_eq (distance_to reuse_start (example_A 1) (example_B 1))
        (spec_distance reuse_start (example_A 1) (example_B 1)) /\
  fp_eq (distance_to reuse_start (example_A 1) (example_B 1)) (Num (5 # 6)).
Proof.
  assert (SA : sorted_by_innov (m_genes (example_A 1))).
  { unfold sorted_by_innov. cbn. repeat constructor. }
  assert (SB : sorted_by_innov (m_genes (example_B 1))).
  { unfold sorted_by_innov. cbn. repeat constructor. }
  destruct (distance_to_formula reuse_start (example_A 1) (example_B 1) SA SB)
    as (H1 & _ & H3).
  split; [exact H1|].
  apply (H3 1%Q eq_refl eq_refl eq_refl).
Defined.

Lemma distance_example_counts :
  let st := merge_walk (m_genes (example_A 1)) (m_genes (example_B 1)) 0 0 0%Q in
  (nb_matching_genes st, nb_disjoint_genes st, nb_excess_genes st) = (3, 3, 2) /\
  (nb_disjoint_genes st, nb_excess_genes st) <> (2, 3).
Proof. split; [reflexivity|]. cbn. congruence. Qed.

End DistanceFormula.

(** ** Champion lookup *)

Section Champion.

Lemma Qgt_bool_iff a b : Qgt_bool a b = true <-> (b < a)%Q.
Proof.
  unfold Qgt_bool. rewrite negb_true_iff. split.
  - intros Hn. apply Qnot_le_lt. intros Hle. apply Qle_bool_iff in Hle. congruence.
  - intros Hlt. destruct (Qle_bool a b) eqn:E; [|done].
    apply Qle_bool_iff in E. exfalso. by apply (Qlt_not_le b a).
Qed.

Lemma Qgt_bool_false a b : Qgt_bool a b = false <-> (a <= b)%Q.
Proof.
  unfold Qgt_bool. rewrite negb_false_iff. apply Qle_bool_iff.
Qed.

(** The loop keeps the champion it was given unless it meets a genome whose
    fitness is strictly greater than the best so far. *)
Lemma champion_loop_keeps pop best champion :
  (forall g, g ∈ pop -> (m_fitness g <= best)%Q) ->
  champion_loop pop best champion = champion.
Proof.
  revert best champion. induction pop as [|geno rest IH]; intros best champion Hle; [done|].
  cbn [champion_loop].
  replace (Qgt_bool (m_fitness geno) best) with false.
  - apply IH. intros g Hg. apply Hle. by right.
  - symmetry. apply Qgt_bool_false. apply Hle. by left.
Qed.

Lemma champion_loop_spec pop best champion :
  match champion_loop pop best champion with
  | Some c =>
      (champion = Some c \/ (c ∈ pop /\ (best < m_fitness c)%Q)) /\
      (forall g, g ∈ pop -> (m_fitness g <= m_fitness c)%Q \/ (m_fitness g <= best)%Q)
  | None => champion = None /\ forall g, g ∈ pop -> (m_fitness g <= best)%Q
  end.
Proof.
  revert best champion. induction pop as [|geno rest IH]; intros best champion.
  - cbn. destruct champion as [c0|]; [split; [by left|]|split; [done|]];
      intros x Hx; by inversion Hx.
  - cbn [champion_loop]. destruct (Qgt_bool (m_fitness geno) best) eqn:E.
    + apply Qgt_bool_iff in E. specialize (IH (m_fitness geno) (Some geno)).
      destruct (champion_loop rest (m_fitness geno) (Some geno)) as [c|]; [|by destruct IH].
      destruct IH as [Hc Hall]. split.
      * right. destruct Hc as [[= <-]|[Hc Hlt]]; [split; [by left|done]|].
        split; [by right|]. by eapply Qlt_trans.
      * assert (Hgc : (m_fitness geno <= m_fitness c)%Q).
        { destruct Hc as [[= <-]|[_ Hlt]]; [apply Qle_refl|by apply Qlt_le_weak]. }
        intros g Hg. left. apply elem_of_cons in Hg as [->|Hg]; [done|].
        destruct (Hall g Hg) as [?|?]; [done|by eapply Qle_trans].
    + apply Qgt_bool_false in E. specialize (IH best champion).
      destruct (champion_loop rest best champion) as [c|].
      * destruct IH as [Hc Hall]. split.
        -- destruct Hc as [?|[Hc Hlt]]; [by left|right; split; [by right|done]].
        -- intros g Hg. apply elem_of_cons in Hg as [->|Hg]; [by right|by apply Hall].
      * destruct IH as [-> Hall]. split; [done|].
        intros g Hg. apply elem_of_cons in Hg as [->|Hg]; [done|by apply Hall].
Qed.

(** X5.  [get_current_best_genome] of [base_neat.cpp] returns a genome of the
    population with maximal fitness as soon as some fitness exceeds
    [-DBL_MAX]. *)
Lemma get_current_best_genome_max pop g0 :
  g0 ∈ pop -> (-1 * DBL_MAX < m_fitness g0)%Q ->
  exists c, get_current_best_genome pop = Some c /\ c ∈ pop /\
            forall g, g ∈ pop -> (m_fitness g <= m_fitness c)%Q.
Proof.
  intros Hin Hlt. unfold get_current_best_genome.
  pose proof (champion_loop_spec pop (-1 * DBL_MAX)%Q None) as HS.
  destruct (champion_loop pop (-1 * DBL_MAX)%Q None) as [c|].
  - destruct HS as [[?|[Hc Hcl]] Hall]; [done|]. exists c. split; [done|]. split; [done|].
    intros g Hg. destruct (Hall g Hg) as [?|Hle]; [done|].
    apply Qlt_le_weak. by eapply Qle_lt_trans.
  - destruct HS as [_ Hall]. exfalso.
    apply (Qlt_not_le _ _ Hlt). by apply Hall.
Qed.

Lemma get_current_best_genome_max_witness :
  exists c, get_current_best_genome [with_fitness (-1); with_fitness (-3)] = Some c /\
            c ∈ [with_fitness (-1); with_fitness (-3)] /\
            forall g, g ∈ [with_fitness (-1); with_fitness (-3)] ->
                      (m_fitness g <= m_fitness c)%Q.
Proof.
  apply (get_current_best_genome_max [with_fitness (-1); with_fitness (-3)]
           (with_fitness (-1))).
  - by left.
  - reflexivity.
Defined.

(** The first revision finds no champion in a population without a fitness
    above [DBL_MIN], in particular when every fitness is negative or zero. *)
Lemma first_revision_finds_no_champion pop :
  (forall g, g ∈ pop -> (m_fitness g <= 0)%Q) ->
  FirstRevision.get_current_best_genome pop = None.
Proof.
  intros Hle. apply champion_loop_keeps. intros g Hg.
  eapply Qle_trans; [by apply Hle|]. done.
Qed.

(** C8.  On a population whose fitnesses are -1 and -3 the first revision of
    [get_current_best_genome] leaves [champion] null; the revision of
    [base_neat.cpp] returns the genome of fitness -1 there, and leaves
    [champion] null on a population whose only fitness is [-DBL_MAX]. *)
Theorem champion_lookup_returns_null :
  FirstRevision.get_current_best_genome [with_fitness (-1); with_fitness (-3)] = None /\
  get_current_best_genome [with_fitness (-1 * DBL_MAX)] = None /\
  get_current_best_genome [with_fitness (-1); with_fitness (-3)] = Some (with_fitness (-1)).
Proof. repeat split; vm_compute; reflexivity. Qed.

End Champion.

(** ** Stream operators of genes and genomes *)

Section GenomeStream.

Lemma get_gene_put_gene g rest : get_gene (put_gene g ++ rest) = Some (g, rest).
Proof. by destruct g. Qed.

Lemma foldl_put {A} `{Streamed A} (xs : list A) ser :
  foldl (fun ser s => ser ++ put s) ser xs = ser ++ concat (map put xs).
Proof.
  revert ser. induction xs as [|x xs IH]; intros ser; cbn.
  - by rewrite app_nil_r.
  - by rewrite IH, app_assoc.
Qed.

Lemma get_many_round_trip {A} (get_one : stream -> option (A * stream))
    (put_one : A -> stream) (same : A -> A -> Prop) (xs : list A) rest :
  (forall x r, x ∈ xs -> exists y, get_one (put_one x ++ r) = Some (y, r) /\ same x y) ->
  exists ys,
    get_many get_one (length xs) (concat (map put_one xs) ++ rest) = Some (ys, rest) /\
    Forall2 same xs ys.
Proof.
  induction xs as [|x xs IH]; intros Hx.
  - exists []. done.
  - destruct (Hx x (concat (map put_one xs) ++ rest)) as (y & Hy & Hs); [left|].
    destruct IH as (ys & Hys & HF).
    { intros x' r Hx'. apply Hx. by right. }
    exists (y :: ys). split; [|by constructor].
    cbn [length get_many map concat]. rewrite <- app_assoc, Hy. cbn.
    rewrite Hys. done.
Qed.

Lemma genome_round_trips : round_trips same_genome.
Proof.
  intros g g0 rest. cbn [put get genome_streamed].
  rewrite <- app_assoc. cbn.
  destruct (get_many_round_trip get_gene put_gene eq (m_genes g) rest) as (ys & Hys & HF).
  { intros x r _. exists x. by rewrite get_gene_put_gene. }
  apply list_eq_Forall2 in HF. subst ys. rewrite Hys. cbn.
  eexists. split; [reflexivity|]. split.
  - by rewrite foldl_add_gene_genes.
  - by rewrite foldl_add_gene_fitness.
Qed.

End GenomeStream.

(** ** The driver on the stream *)

Section DriverStream.

Context {species : Type} `{Streamed species} `{Streamed innovation_pool}
        `{Streamed genome}.
Variable species_ctor : nat -> genome -> species.

(** The stream operators of the genome give back the genes and the fitness
    they were given. *)
Hypothesis genome_lawful : round_trips same_genome.

(** The values [helper_serialize_base_neat] appends, in order. *)
Lemma helper_serialize_base_neat_order (d : @base_neat species) ser :
  helper_serialize_base_neat d ser =
  ser ++ [TNat (m_next_species_id d); TNat (m_age_of_best_genome_ever d);
          TReal (compatibility_threshold (params (as_neat d)))]
      ++ match m_best_genome_ever d with
         | None => [TBool false]
         | Some best => TBool true :: put best
         end
      ++ TNat (length (m_all_species d)) :: concat (map put (m_all_species d))
      ++ TNat (length (m_best_genomes_library d))
           :: concat (map put (m_best_genomes_library d))
      ++ put (innov_pool (as_neat d)).
Proof.
  unfold helper_serialize_base_neat, append. rewrite !foldl_put.
  destruct (m_best_genome_ever d); rewrite <- ?app_assoc; cbn; by rewrite <- ?app_assoc.
Qed.

Lemma get_moved_genome_round_trip n (g : genome) rest :
  exists y, get_moved_genome n (put g ++ rest) = Some (y, rest) /\
            m_genes y = m_genes g /\ m_fitness y = 0%Q.
Proof.
  unfold get_moved_genome.
  destruct (genome_lawful g (genome_ctor n) rest) as (y & -> & Hg & _).
  exists (genome_move y). done.
Qed.

(** X6.  With lawful stream operators, deserialising what
    [helper_serialize_base_neat] wrote succeeds and consumes the stream; next
    species id, age, species list, innovation pool and the gene lists of the
    library and of the best-ever genome come back as written, and every
    genome read comes back with fitness 0. *)
Theorem helper_deserialize_base_neat_round_trip (d fresh : @base_neat species) :
  (forall s x0 rest, s ∈ m_all_species d -> get x0 (put s ++ rest) = Some (s, rest)) ->
  (forall x0 rest,
     get x0 (put (innov_pool (as_neat d)) ++ rest) = Some (innov_pool (as_neat d), rest)) ->
  exists d',
    helper_deserialize_base_neat species_ctor fresh (helper_serialize_base_neat d [])
      = Some (d', []) /\
    m_next_species_id d' = m_next_species_id d /\
    m_age_of_best_genome_ever d' = m_age_of_best_genome_ever d /\
    m_all_species d' = m_all_species d /\
    innov_pool (as_neat d') = innov_pool (as_neat d) /\
    map m_genes (m_best_genomes_library d') = map m_genes (m_best_genomes_library d) /\
    Forall (fun g => m_fitness g = 0%Q) (m_best_genomes_library d') /\
    match m_best_genome_ever d with
    | Some best =>
        exists best', m_best_genome_ever d' = Some best' /\
                      m_genes best' = m_genes best /\ m_fitness best' = 0%Q
    | None => m_best_genome_ever d' = m_best_genome_ever fresh
    end.
Proof.
  intros Hsp Hpool. rewrite helper_serialize_base_neat_order.
  unfold helper_deserialize_base_neat. cbn [app get_next_nat get_next_real get_next_bool mbind option_bind].
  set (p := if dynamic_compatibility_threshold _ then _ else _).
  set (n := mk_neat p _ _).
  assert (Htail : forall best,
    exists lib,
      ('(number_of_species, des) ← get_next_nat
          (TNat (length (m_all_species d)) :: concat (map put (m_all_species d))
           ++ TNat (length (m_best_genomes_library d))
                :: concat (map put (m_best_genomes_library d))
           ++ put (innov_pool (as_neat d)));
       '(all_species, des) ← get_many (get_species species_ctor n) number_of_species des;
       '(number_of_genomes, des) ← get_next_nat des;
       '(library, des) ← get_many (get_moved_genome n) number_of_genomes des;
       '(pool, des) ← get (innov_pool n) des;
       Some (mk_base_neat (mk_neat p pool (rand_engine n)) all_species library
               (m_next_species_id d) best (m_age_of_best_genome_ever d), des))
      = Some (mk_base_neat (mk_neat p (innov_pool (as_neat d)) (rand_engine n))
                (m_all_species d) lib (m_next_species_id d) best
                (m_age_of_best_genome_ever d), []) /\
      map m_genes lib = map m_genes (m_best_genomes_library d) /\
      Forall (fun g => m_fitness g = 0%Q) lib).
  { intros best. cbn [get_next_nat mbind option_bind].
    destruct (get_many_round_trip (get_species species_ctor n) put eq (m_all_species d)
                (TNat (length (m_best_genomes_library d))
                   :: concat (map put (m_best_genomes_library d))
                 ++ put (innov_pool (as_neat d)))) as (ys & -> & HF).
    { intros s r Hs. exists s. split; [|done]. unfold get_species. by apply Hsp. }
    apply list_eq_Forall2 in HF. subst ys. cbn [get_next_nat mbind option_bind].
    destruct (get_many_round_trip (get_moved_genome n) put
                (fun g y => m_genes y = m_genes g /\ m_fitness y = 0%Q)
                (m_best_genomes_library d) (put (innov_pool (as_neat d))))
      as (lib & -> & HF).
    { intros g r _. apply get_moved_genome_round_trip. }
    cbn [mbind option_bind].
    rewrite <- (app_nil_r (put (innov_pool (as_neat d)))), Hpool. cbn.
    exists lib. split; [done|]. split.
    - clear -HF. induction HF as [|g y gs ys [Hg _] _ IH]; [done|]. cbn. by rewrite Hg, IH.
    - clear -HF. induction HF as [|g y gs ys [_ Hf] _ IH]; constructor; done. }
  destruct (m_best_genome_ever d) as [best|].
  - cbn [app get_next_bool mbind option_bind].
    destruct (genome_lawful best (genome_ctor n)
                (TNat (length (m_all_species d)) :: concat (map put (m_all_species d))
                 ++ TNat (length (m_best_genomes_library d))
                      :: concat (map put (m_best_genomes_library d))
                 ++ put (innov_pool (as_neat d)))) as (y & Hy & Hg & _).
    rewrite Hy. cbn [mbind option_bind].
    destruct (Htail (Some (genome_move y))) as (lib & -> & Hl1 & Hl2).
    eexists. split; [reflexivity|]. cbn.
    repeat split; try done. exists (genome_move y). done.
  - cbn [app get_next_bool mbind option_bind].
    destruct (Htail (m_best_genome_ever fresh)) as (lib & -> & Hl1 & Hl2).
    eexists. split; [reflexivity|]. cbn. repeat split; done.
Qed.

End DriverStream.

(** ** A stored driver read back *)

Section StoredDriver.

Lemma pool_round_trips : round_trips (A := innovation_pool) eq.
Proof.
  intros p p0 rest. exists p. split; [|done].
  cbn [put get pool_streamed]. rewrite <- !app_assoc. cbn [app get_next_nat mbind option_bind].
  destruct (get_many_round_trip get_pool_gene put_pool_gene eq
              (map_to_list (m_all_genes p))
              (TNat (length (map_to_list (m_all_innovations p)))
               :: concat (map put_pool_innovation (map_to_list (m_all_innovations p)))
               ++ rest)) as (gs & -> & HF).
  { intros [[f t] g] r _. exists (f, t, g). split; [|done].
    by destruct g. }
  apply list_eq_Forall2 in HF. subst gs. cbn [app get_next_nat mbind option_bind].
  destruct (get_many_round_trip get_pool_innovation put_pool_innovation eq
              (map_to_list (m_all_innovations p)) rest) as (rs & -> & HF).
  { intros [[[k f] t] [k' i1 i2 f' t' h]] r _. eexists. split; [|reflexivity].
    by destruct k, k'. }
  apply list_eq_Forall2 in HF. subst rs. cbn.
  rewrite !list_to_map_to_list. by destruct p.
Qed.

Lemma species_id_round_trips : round_trips (A := nat) eq.
Proof. intros s s0 rest. by exists s. Qed.

Lemma helper_deserialize_base_neat_round_trip_witness :
  exists d',
    helper_deserialize_base_neat species_id_ctor fresh_driver
      (helper_serialize_base_neat stored_driver []) = Some (d', []) /\
    m_next_species_id d' = m_next_species_id stored_driver /\
    m_age_of_best_genome_ever d' = m_age_of_best_genome_ever stored_driver /\
    m_all_species d' = m_all_species stored_driver /\
    innov_pool (as_neat d') = innov_pool (as_neat stored_driver) /\
    map m_genes (m_best_genomes_library d') = map m_genes (m_best_genomes_library stored_driver) /\
    Forall (fun g => m_fitness g = 0%Q) (m_best_genomes_library d') /\
    exists best', m_best_genome_ever d' = Some best' /\
                  m_genes best' = m_genes (with_fitness (39 # 10)) /\
                  m_fitness best' = 0%Q.
Proof.
  apply (helper_deserialize_base_neat_round_trip species_id_ctor genome_round_trips
           stored_driver fresh_driver).
  - intros s x0 rest _. reflexivity.
  - intros x0 rest.
    destruct (pool_round_trips (innov_pool (as_neat stored_driver)) x0 rest) as (y & Hy & <-).
    exact Hy.
Defined.

(** C4.  Serialising the stored driver and deserialising the stream into a
    fresh driver succeeds and consumes the whole stream; next species id,
    age, species list, innovation pool and every gene list come back as they
    were, but the best-ever genome, stored with fitness 3.9, comes back with
    fitness 0, and so does the library genome stored with fitness 2. *)
Theorem round_trip_resets_best_fitness :
  exists d',
    helper_deserialize_base_neat species_id_ctor fresh_driver
      (helper_serialize_base_neat stored_driver []) = Some (d', []) /\
    m_next_species_id d' = m_next_species_id stored_driver /\
    m_age_of_best_genome_ever d' = m_age_of_best_genome_ever stored_driver /\
    m_all_species d' = m_all_species stored_driver /\
    innov_pool (as_neat d') = innov_pool (as_neat stored_driver) /\
    m_genes <$> m_best_genome_ever d' = m_genes <$> m_best_genome_ever stored_driver /\
    map m_genes (m_best_genomes_library d') = map m_genes (m_best_genomes_library stored_driver) /\
    m_fitness <$> m_best_genome_ever stored_driver = Some (39 # 10)%Q /\
    m_fitness <$> m_best_genome_ever d' = Some 0%Q /\
    map m_fitness (m_best_genomes_library stored_driver) = [2%Q] /\
    map m_fitness (m_best_genomes_library d') = [0%Q].
Proof.
  eexists. split; [vm_compute; reflexivity|].
  repeat split; vm_compute; reflexivity.
Qed.

End StoredDriver.

(** ** The move constructor *)

Section MoveConstructor.

(** C9.  A genome move-constructed from [g] has fitness 0 and the genes,
    known neurons and input and output counts of [g].  Whatever the stream
    operators are: when [helper_deserialize_base_neat] succeeds on a stream
    whose fourth value is [true], the best-ever genome of the resulting
    driver has fitness 0. *)
Theorem genome_move_zeroes_fitness :
  (forall g : genome,
     m_fitness (genome_move g) = 0%Q /\
     m_genes (genome_move g) = m_genes g /\
     m_known_neuron_ids (genome_move g) = m_known_neuron_ids g /\
     m_number_of_inputs (genome_move g) = m_number_of_inputs g /\
     m_number_of_outputs (genome_move g) = m_number_of_outputs g) /\
  (forall (species : Type) (S1 : Streamed species) (S2 : Streamed innovation_pool)
          (S3 : Streamed genome) (species_ctor : nat -> genome -> species)
          (d d' : @base_neat species) (des rest : stream),
     helper_deserialize_base_neat species_ctor d des = Some (d', rest) ->
     des !! 3 = Some (TBool true) ->
     exists best, m_best_genome_ever d' = Some best /\ m_fitness best = 0%Q).
Proof.
  split; [done|].
  intros species S1 S2 S3 species_ctor d d' des rest Hd Hflag.
  unfold helper_deserialize_base_neat in Hd.
  destruct des as [|t0 [|t1 [|t2 [|t3 des]]]]; try done.
  cbn in Hflag. injection Hflag as ->.
  destruct t0, t1, t2; try done. cbn in Hd.
  destruct (get _ des) as [[best_g des1]|]; [|done]. cbn in Hd.
  repeat match type of Hd with
         | context [mbind _ ?x] => destruct x as [[? ?]|]; cbn in Hd; [|done]
         end.
  injection Hd as <- <-. cbn. by exists (genome_move best_g).
Qed.

Lemma genome_move_zeroes_fitness_witness :
  exists d' rest best,
    helper_deserialize_base_neat species_id_ctor fresh_driver
      (helper_serialize_base_neat stored_driver []) = Some (d', rest) /\
    m_fitness <$> m_best_genome_ever stored_driver = Some (39 # 10)%Q /\
    m_best_genome_ever d' = Some best /\ m_fitness best = 0%Q.
Proof.
  destruct (helper_deserialize_base_neat species_id_ctor fresh_driver
              (helper_serialize_base_neat stored_driver [])) as [[d' rest]|] eqn:E;
    [|vm_compute in E; discriminate].
  destruct (proj2 genome_move_zeroes_fitness nat _ _ _ species_id_ctor fresh_driver d'
              (helper_serialize_base_neat stored_driver []) rest E eq_refl)
    as (best & Hb & Hf).
  exists d', rest, best. repeat split; done.
Defined.

End MoveConstructor.

(** ** Selection of the operator by weight *)

Section WeightedSelection.

Lemma weight_before_eq p m :
  weight_before p m =
  match m with
  | AddLink => 0
  | AddNeuron => mutation_add_link_weight p
  | AllWeights => mutation_add_link_weight p + mutation_add_neuron_weight p
  | OneWeight =>
      mutation_add_link_weight p + mutation_add_neuron_weight p
      + mutation_all_weights_weight p
  | ResetWeights =>
      mutation_add_link_weight p + mutation_add_neuron_weight p
      + mutation_all_weights_weight p + mutation_one_weight_weight p
  | RemoveGene =>
      mutation_add_link_weight p + mutation_add_neuron_weight p
      + mutation_all_weights_weight p + mutation_one_weight_weight p
      + mutation_reset_weights_weight p
  | ReenableGene =>
      mutation_add_link_weight p + mutation_add_neuron_weight p
      + mutation_all_weights_weight p + mutation_one_weight_weight p
      + mutation_reset_weights_weight p + mutation_remove_gene_weight p
  | ToggleEnable =>
      mutation_add_link_weight p + mutation_add_neuron_weight p
      + mutation_all_weights_weight p + mutation_one_weight_weight p
      + mutation_reset_weights_weight p + mutation_remove_gene_weight p
      + mutation_reenable_gene_weight p
  end.
Proof.
  destruct m; cbv -[Nat.add mutation_add_link_weight mutation_add_neuron_weight
    mutation_all_weights_weight mutation_one_weight_weight
    mutation_reset_weights_weight mutation_remove_gene_weight
    mutation_reenable_gene_weight mutation_toggle_enable_weight]; lia.
Qed.

Lemma select_mutation_interval p r m :
  r < sum_all_mutation_weights p ->
  select_mutation p r = m <->
  weight_before p m <= r < weight_before p m + mutation_weight p m.
Proof.
  unfold sum_all_mutation_weights, select_mutation. intros Hr. cbv zeta.
  repeat match goal with
         | |- context [?a <? ?b] => destruct (Nat.ltb_spec a b)
         end;
    destruct m; rewrite weight_before_eq; cbn [mutation_weight];
    split; intros HH; try discriminate; try reflexivity; try lia.
Qed.

Lemma filter_interval_length a w n :
  a + w <= n ->
  length (List.filter (fun r => bool_decide (a <= r < a + w)) (seq 0 n)) = w.
Proof.
  intros Hn.
  replace n with (a + (w + (n - (a + w)))) by lia.
  rewrite !seq_app, !List.filter_app, !length_app. cbn [Nat.add].
  rewrite (filter_none _ (seq 0 a)), (filter_all _ (seq a w)), (filter_none _ (seq (a + w) _)).
  - rewrite length_seq. cbn. lia.
  - intros x Hx. apply in_seq in Hx. apply bool_decide_eq_false. lia.
  - intros x Hx. apply in_seq in Hx. apply bool_decide_eq_true. lia.
  - intros x Hx. apply in_seq in Hx. apply bool_decide_eq_false. lia.
Qed.

Lemma weight_before_le_sum p m :
  weight_before p m + mutation_weight p m <= sum_all_mutation_weights p.
Proof.
  unfold sum_all_mutation_weights. destruct m; rewrite weight_before_eq;
    cbn [mutation_weight]; lia.
Qed.

(** X8.  [random_mutate] selects by weight: when some operator has a positive
    weight, the operator it runs (after one draw from the driver's engine)
    has a positive weight, so an operator of weight 0 is never run; and of the [sum_all_mutation_weights] values the
    selector can take, exactly [mutation_weight p m] pick operator [m]. *)
Theorem random_mutate_selects_by_weight g self n :
  0 < sum_all_mutation_weights (params n) ->
  (exists m,
     0 < mutation_weight (params n) m /\
     random_mutate g self n
     = apply_mutation m g self (set_rand_engine (engine_next (rand_engine n)).2 n)) /\
  (forall m, length (selectors_of (params n) m) = mutation_weight (params n) m).
Proof.
  intros Hsum. split.
  - unfold random_mutate.
    pose proof (uniform_int_range 0 (sum_all_mutation_weights (params n) - 1)
                  (rand_engine n)) as Hr.
    unfold uniform_int in *. destruct (engine_next (rand_engine n)) as [x e1].
    cbn [fst snd] in *.
    set (rnd_val := 0 + x mod _) in *.
    exists (select_mutation (params n) rnd_val). split; [|done].
    assert (Hlt : rnd_val < sum_all_mutation_weights (params n)) by lia.
    pose proof (proj1 (select_mutation_interval (params n) rnd_val _ Hlt) eq_refl). lia.
  - intros m. unfold selectors_of.
    rewrite <- (filter_interval_length (weight_before (params n) m)
                  (mutation_weight (params n) m) (sum_all_mutation_weights (params n)))
      by apply weight_before_le_sum.
    f_equal. apply filter_ext_in. intros r Hr. apply in_seq in Hr.
    apply bool_decide_ext. apply select_mutation_interval. lia.
Qed.

Lemma random_mutate_selects_by_weight_witness :
  0 < sum_all_mutation_weights (params reuse_start) /\
  ((exists m,
      0 < mutation_weight (params reuse_start) m /\
      random_mutate [] seed_genome reuse_start
      = apply_mutation m [] seed_genome
          (set_rand_engine (engine_next (rand_engine reuse_start)).2 reuse_start)) /\
   (forall m, length (selectors_of (params reuse_start) m)
              = mutation_weight (params reuse_start) m)).
Proof.
  split; [vm_compute; lia|].
  apply (random_mutate_selects_by_weight [] seed_genome reuse_start). vm_compute; lia.
Defined.

End WeightedSelection.

(** ** What the operators on single genes change *)

Section OperatorEffects.

Lemma alter_as_insert {A} (f : A -> A) (i : nat) (l : list A) x :
  l !! i = Some x -> alter f i l = <[i := f x]> l.
Proof.
  intros Hx. apply list_eq. intros j.
  destruct (decide (j = i)) as [->|Hne].
  - rewrite list_lookup_alter, decide_True by done. rewrite Hx. simpl.
    rewrite list_lookup_insert_eq; [done|]. by apply lookup_lt_Some in Hx.
  - rewrite list_lookup_alter_ne by done. by rewrite list_lookup_insert_ne.
Qed.

Lemma uniform_int_engine lo hi e : (uniform_int lo hi e).2 = (engine_next e).2.
Proof. unfold uniform_int. by destruct (engine_next e). Qed.

Lemma uniform_real_engine lo hi e : (uniform_real lo hi e).2 = (engine_next e).2.
Proof. unfold uniform_real. by destruct (engine_next e). Qed.

Lemma disabled_candidates_spec gs i :
  i ∈ disabled_candidates gs <->
  exists x, gs !! i = Some x /\ enabled x = false.
Proof.
  unfold disabled_candidates. rewrite list_elem_of_In, List.filter_In, <- list_elem_of_In.
  rewrite elem_of_seq. split.
  - intros [Hi Hd]. destruct (lookup_lt_is_Some_2 gs i) as [x Hx]; [lia|].
    exists x. split; [done|]. rewrite (list_lookup_total_correct _ _ _ Hx) in Hd.
    by destruct (enabled x).
  - intros (x & Hx & Hd). split; [apply lookup_lt_Some in Hx; lia|].
    by rewrite (list_lookup_total_correct _ _ _ Hx), Hd.
Qed.

(** X9.  [mutate_reenable_gene] fails exactly when every gene is enabled, and
    then changes neither the genome nor the driver; otherwise it draws once
    from the driver's engine and sets the flag of one gene that was disabled,
    leaving every other gene and the known neurons as they were. *)
Theorem mutate_reenable_gene_effect self n :
  let '(ok, self', n') := mutate_reenable_gene self n in
  if ok then
    exists i x,
      m_genes self !! i = Some x /\ enabled x = false /\
      m_genes self' = <[i := set_enabled true x]> (m_genes self) /\
      m_known_neuron_ids self' = m_known_neuron_ids self /\
      n' = set_rand_engine (engine_next (rand_engine n)).2 n
  else
    Forall (fun x => enabled x = true) (m_genes self) /\ self' = self /\ n' = n.
Proof.
  unfold mutate_reenable_gene.
  destruct (disabled_candidates (m_genes self)) as [|c cs] eqn:E.
  - split; [|done]. apply Forall_forall. intros x Hx.
    apply list_elem_of_lookup in Hx as [i Hi].
    destruct (enabled x) eqn:Hd; [done|].
    assert (Hin : i ∈ disabled_candidates (m_genes self))
      by (apply disabled_candidates_spec; eauto).
    rewrite E in Hin. by apply elem_of_nil in Hin.
  - pose proof (uniform_int_lt_length (c :: cs) (rand_engine n) ltac:(done)) as Hk.
    pose proof (uniform_int_engine 0 (length (c :: cs) - 1) (rand_engine n)) as He.
    destruct (uniform_int 0 (length (c :: cs) - 1) (rand_engine n)) as [k e1].
    cbn [fst snd] in Hk, He. subst e1.
    assert (Hin : (c :: cs) !!! k ∈ disabled_candidates (m_genes self)).
    { rewrite E. by apply list_elem_of_lookup_total_2. }
    apply disabled_candidates_spec in Hin as (x & Hx & Hd).
    exists ((c :: cs) !!! k), x. repeat split; try done.
    cbn [set_genes m_genes]. by apply alter_as_insert.
Qed.

(** X10.  [mutate_toggle_enable] and [mutate_remove_gene] fail exactly on a
    genome without genes, and then change neither the genome nor the driver.
    Otherwise they draw once, the index drawn lies inside the gene vector and
    only that position changes: the flag is flipped, or the gene is erased;
    the known neurons stay as they were, also when the erased gene was the
    only one at a neuron. *)
Theorem toggle_and_remove_effect self n :
  (let '(ok, self', n') := mutate_toggle_enable self n in
   if ok then
     exists i x,
       m_genes self !! i = Some x /\
       m_genes self' = <[i := set_enabled (negb (enabled x)) x]> (m_genes self) /\
       m_known_neuron_ids self' = m_known_neuron_ids self /\
       n' = set_rand_engine (engine_next (rand_engine n)).2 n
   else m_genes self = [] /\ self' = self /\ n' = n) /\
  (let '(ok, self', n') := mutate_remove_gene self n in
   if ok then
     exists i x,
       m_genes self !! i = Some x /\
       m_genes self' = delete i (m_genes self) /\
       S (length (m_genes self')) = length (m_genes self) /\
       m_known_neuron_ids self' = m_known_neuron_ids self /\
       n' = set_rand_engine (engine_next (rand_engine n)).2 n
   else m_genes self = [] /\ self' = self /\ n' = n).
Proof.
  split.
  - unfold mutate_toggle_enable. destruct (m_genes self) as [|a gs] eqn:E; [done|].
    pose proof (uniform_int_lt_length (a :: gs) (rand_engine n) ltac:(done)) as Hk.
    pose proof (uniform_int_engine 0 (length (a :: gs) - 1) (rand_engine n)) as He.
    destruct (uniform_int 0 (length (a :: gs) - 1) (rand_engine n)) as [k e1].
    cbn [fst snd] in Hk, He. subst e1.
    destruct (lookup_lt_is_Some_2 (a :: gs) k Hk) as [x Hx].
    exists k, x. repeat split; try done.
    cbn [set_genes m_genes].
    by rewrite (alter_as_insert (fun x => set_enabled (negb (enabled x)) x) k _ x Hx).
  - unfold mutate_remove_gene. destruct (m_genes self) as [|a gs] eqn:E; [done|].
    pose proof (uniform_int_lt_length (a :: gs) (rand_engine n) ltac:(done)) as Hk.
    pose proof (uniform_int_engine 0 (length (a :: gs) - 1) (rand_engine n)) as He.
    destruct (uniform_int 0 (length (a :: gs) - 1) (rand_engine n)) as [k e1].
    cbn [fst snd] in Hk, He. subst e1.
    destruct (lookup_lt_is_Some_2 (a :: gs) k Hk) as [x Hx].
    exists k, x. repeat split; try done.
    cbn [set_genes m_genes]. rewrite length_delete by eauto. simpl in *. lia.
Qed.




End OperatorEffects.

(** ** The known-neurons vector and the links added *)

Section KnownLayout.

Lemma genome_ctor_known n :
  m_known_neuron_ids (genome_ctor n)
  = seq 0 (1 + number_of_inputs (params n) + number_of_outputs (params n)).
Proof.
  unfold genome_ctor. cbn [m_known_neuron_ids].
  set (I := number_of_inputs (params n)). set (O := number_of_outputs (params n)).
  assert (E1 : map (fun i => i + 1) (seq 0 I) = seq 1 I).
  { etrans; [|apply (fmap_add_seq 1 0 I)]. apply map_ext. intros; lia. }
  assert (E2 : map (fun i => i + 1 + I) (seq 0 O) = seq (1 + I) O).
  { replace (1 + I) with (1 + I + 0) at 1 by lia.
    etrans; [|apply (fmap_add_seq (1 + I) 0 O)]. apply map_ext. intros; lia. }
  rewrite E1, E2. replace (1 + I + O) with (1 + (I + O)) by lia.
  rewrite (seq_app 1 (I + O) 0), (seq_app I O (0 + 1)). done.
Qed.

Lemma genome_ctor_known_layout n : known_layout (genome_ctor n).
Proof.
  unfold known_layout. rewrite genome_ctor_known. cbn [genome_ctor m_number_of_inputs m_number_of_outputs].
  split; [apply NoDup_seq|done].
Qed.

Lemma push_back_unknown_layout (ks : list nat) x pre :
  NoDup ks /\ pre `prefix_of` ks ->
  let ks' := if not_found x ks then ks ++ [x] else ks in
  (NoDup ks' /\ pre `prefix_of` ks') /\ ks `prefix_of` ks'.
Proof.
  intros [HN HP]. cbn zeta. destruct (not_found x ks) eqn:E; [|done].
  assert (Hx : x ∉ ks).
  { intros Hin. apply not_found_false in Hin. congruence. }
  repeat split.
  - apply NoDup_app. split; [done|]. split; [|apply NoDup_singleton].
    intros y Hy Hy'. apply list_elem_of_singleton in Hy'. by subst.
  - by apply prefix_app_r.
  - by apply prefix_app_r.
Qed.

Lemma add_gene_known_layout x self :
  known_layout self ->
  known_layout (add_gene x self) /\
  m_known_neuron_ids self `prefix_of` m_known_neuron_ids (add_gene x self).
Proof.
  unfold known_layout, add_gene.
  cbn [m_known_neuron_ids m_number_of_inputs m_number_of_outputs]. intros HL.
  destruct (push_back_unknown_layout _ (from x) _ HL) as [HL1 HP1].
  destruct (push_back_unknown_layout _ (to x) _ HL1) as [HL2 HP2].
  cbn zeta in *. split; [done|]. by etrans.
Qed.

Lemma apply_mutation_known_layout m g self n :
  known_layout self ->
  let self' := (apply_mutation m g self n).1.1.2 in
  known_layout self' /\
  m_known_neuron_ids self `prefix_of` m_known_neuron_ids self' /\
  m_number_of_inputs self' = m_number_of_inputs self /\
  m_number_of_outputs self' = m_number_of_outputs self.
Proof.
  intros HL. cbn zeta.
  assert (Hadd : forall x s,
    (known_layout s /\ m_known_neuron_ids self `prefix_of` m_known_neuron_ids s /\
     m_number_of_inputs s = m_number_of_inputs self /\
     m_number_of_outputs s = m_number_of_outputs self) ->
    known_layout (add_gene x s) /\
    m_known_neuron_ids self `prefix_of` m_known_neuron_ids (add_gene x s) /\
    m_number_of_inputs (add_gene x s) = m_number_of_inputs self /\
    m_number_of_outputs (add_gene x s) = m_number_of_outputs self).
  { intros x s (H1 & H2 & H3 & H4).
    destruct (add_gene_known_layout x s H1) as [H5 H6].
    split; [done|]. split; [by etrans|]. done. }
  assert (Hset : forall gs,
    known_layout (set_genes gs self) /\
    m_known_neuron_ids self `prefix_of` m_known_neuron_ids (set_genes gs self) /\
    m_number_of_inputs (set_genes gs self) = m_number_of_inputs self /\
    m_number_of_outputs (set_genes gs self) = m_number_of_outputs self) by done.
  assert (Hid : known_layout self /\
    m_known_neuron_ids self `prefix_of` m_known_neuron_ids self /\
    m_number_of_inputs self = m_number_of_inputs self /\
    m_number_of_outputs self = m_number_of_outputs self) by done.
  destruct m; cbn [apply_mutation fst snd].
  - unfold mutate_add_link. repeat (break_match; cbn [fst snd]); try done; by apply Hadd.
  - unfold mutate_add_neuron, next_hidden_neuron_id, next_innovation.
    repeat (break_match; cbn [fst snd]); try done; by repeat apply Hadd.
  - unfold mutate_all_weights. repeat (break_match; cbn [fst snd]); done.
  - unfold mutate_one_weight. repeat (break_match; cbn [fst snd]); done.
  - unfold mutate_reset_weights. repeat (break_match; cbn [fst snd]); done.
  - unfold mutate_remove_gene. repeat (break_match; cbn [fst snd]); done.
  - unfold mutate_reenable_gene. repeat (break_match; cbn [fst snd]); done.
  - unfold mutate_toggle_enable. repeat (break_match; cbn [fst snd]); done.
Qed.

(** X12.  The known-neurons vector only grows at its end.  The constructor
    writes the ids [0 .. inputs + outputs] in order; whatever operator
    [random_mutate] selects, and whether or not it succeeds, the old vector
    is a prefix of the new one, no id is listed twice, and the numbers of
    inputs and outputs stay: the positions of the bias, the inputs and the
    outputs, which [mutate_add_link] and [generate_network] rely on, never
    move. *)
Theorem random_mutate_keeps_known_layout g self n :
  known_layout self ->
  let self' := (random_mutate g self n).1.1.2 in
  known_layout self' /\
  m_known_neuron_ids self `prefix_of` m_known_neuron_ids self' /\
  m_number_of_inputs self' = m_number_of_inputs self /\
  m_number_of_outputs self' = m_number_of_outputs self.
Proof.
  intros HL. unfold random_mutate.
  destruct (uniform_int 0 _ (rand_engine n)) as [rnd_val e1].
  by apply apply_mutation_known_layout.
Qed.

Lemma random_mutate_keeps_known_layout_witness :
  known_layout (genome_ctor reuse_start) /\
  let self' := (random_mutate [] (genome_ctor reuse_start) reuse_start).1.1.2 in
  known_layout self' /\
  m_known_neuron_ids (genome_ctor reuse_start) `prefix_of` m_known_neuron_ids self' /\
  m_number_of_inputs self' = m_number_of_inputs (genome_ctor reuse_start) /\
  m_number_of_outputs self' = m_number_of_outputs (genome_ctor reuse_start).
Proof.
  split; [apply genome_ctor_known_layout|].
  apply (random_mutate_keeps_known_layout [] (genome_ctor reuse_start) reuse_start).
  apply genome_ctor_known_layout.
Defined.

Lemma link_exists_spec self f t :
  link_exists self f t = true <-> (f, t) ∈ map link_of (m_genes self).
Proof.
  unfold link_exists. rewrite existsb_exists, list_elem_of_fmap. split.
  - intros (x & Hx & Hft). apply andb_true_iff in Hft as [Hf Ht].
    apply Nat.eqb_eq in Hf, Ht. exists x. split; [unfold link_of; congruence|].
    by apply list_elem_of_In.
  - intros (x & Hx & Hin). exists x. split; [by apply list_elem_of_In|].
    unfold link_of in Hx. injection Hx as -> ->. by rewrite !Nat.eqb_refl.
Qed.

Lemma known_layout_behind_inputs self i :
  known_layout self -> m_number_of_inputs self < i -> i < length (m_known_neuron_ids self) ->
  m_number_of_inputs self < m_known_neuron_ids self !!! i.
Proof.
  intros [HN [tail HP]] Hi Hlen.
  set (I := m_number_of_inputs self) in *. set (O := m_number_of_outputs self) in *.
  destruct (lookup_lt_is_Some_2 _ _ Hlen) as [x Hx].
  rewrite (list_lookup_total_correct _ _ _ Hx).
  destruct (decide (i < 1 + I + O)) as [Hin|Hout].
  - rewrite HP, lookup_app_l in Hx by (rewrite length_seq; lia).
    apply lookup_seq in Hx as [-> _]. lia.
  - destruct (decide (I < x)) as [|Hle]; [done|]. exfalso.
    assert (Hx' : m_known_neuron_ids self !! x = Some x).
    { rewrite HP, lookup_app_l by (rewrite length_seq; lia).
      apply lookup_seq. lia. }
    pose proof (NoDup_lookup _ _ _ _ HN Hx Hx'). lia.
Qed.

(** X13.  On a genome with at least one output whose known-neurons vector has
    the constructor's layout, and with a pool that is keyed consistently, a
    successful [mutate_add_link] appends exactly one gene; the link of that
    gene was not in the genome, both its endpoints were known already (the
    known-neurons vector is unchanged), and its destination is neither the
    bias nor an input.  A genome that held no link twice holds none twice
    afterwards.  A failed call changes nothing in the genome. *)
Theorem mutate_add_link_adds_new_link self n :
  0 < m_number_of_outputs self ->
  known_layout self ->
  pool_wf (innov_pool n) ->
  let '(ok, self', n') := mutate_add_link self n in
  if ok then
    exists x,
      m_genes self' = m_genes self ++ [x] /\
      link_exists self (from x) (to x) = false /\
      from x ∈ m_known_neuron_ids self /\ to x ∈ m_known_neuron_ids self /\
      m_number_of_inputs self < to x /\
      m_known_neuron_ids self' = m_known_neuron_ids self /\
      (NoDup (map link_of (m_genes self)) -> NoDup (map link_of (m_genes self')))
  else self' = self.
Proof.
  intros HO HL [W1 _]. unfold mutate_add_link.
  assert (Hlen : 1 + m_number_of_inputs self + m_number_of_outputs self
                 <= length (m_known_neuron_ids self)).
  { destruct HL as [_ [tail ->]]. rewrite length_app, length_seq. lia. }
  pose proof (uniform_int_range 0 (length (m_known_neuron_ids self) - 1) (rand_engine n)) as Hf.
  destruct (uniform_int 0 _ (rand_engine n)) as [from_ e1]. cbn [fst] in Hf.
  pose proof (uniform_int_range 0
    (length (m_known_neuron_ids self) - m_number_of_inputs self - 2) e1) as Hd.
  destruct (uniform_int 0 _ e1) as [d e2]. cbn [fst] in Hd.
  set (to_ := d + m_number_of_inputs self + 1).
  set (f := m_known_neuron_ids self !!! from_).
  set (t := m_known_neuron_ids self !!! to_).
  assert (Hfk : f ∈ m_known_neuron_ids self)
    by (apply list_elem_of_lookup_total_2; lia).
  assert (Htk : t ∈ m_known_neuron_ids self)
    by (apply list_elem_of_lookup_total_2; unfold to_; lia).
  assert (Hti : m_number_of_inputs self < t)
    by (apply known_layout_behind_inputs; [done|unfold to_; lia|unfold to_; lia]).
  destruct (link_exists self f t) eqn:L; [done|].
  assert (Hadd : forall x, from x = f -> to x = t ->
    m_genes (add_gene x self) = m_genes self ++ [x] /\
    link_exists self (from x) (to x) = false /\
    from x ∈ m_known_neuron_ids self /\ to x ∈ m_known_neuron_ids self /\
    m_number_of_inputs self < to x /\
    m_known_neuron_ids (add_gene x self) = m_known_neuron_ids self /\
    (NoDup (map link_of (m_genes self)) ->
     NoDup (map link_of (m_genes (add_gene x self))))).
  { intros x Hxf Hxt. rewrite Hxf, Hxt. repeat split; try done.
    - unfold add_gene. cbn [m_known_neuron_ids]. rewrite Hxf, Hxt.
      apply not_found_false in Hfk. rewrite Hfk.
      apply not_found_false in Htk. by rewrite Htk.
    - intros HN. rewrite add_gene_genes, map_app. apply NoDup_app. split; [done|].
      split; [|apply NoDup_singleton].
      intros p Hp Hp'. apply list_elem_of_singleton in Hp'. subst p.
      apply link_exists_spec in Hp. unfold link_of in Hp. rewrite Hxf, Hxt in Hp.
      congruence. }
  destruct (find_gene (innov_pool n) f t) as [c|] eqn:F.
  - destruct (uniform_real _ _ e2) as [w e3].
    destruct (W1 f t c F) as [Hcf Hct].
    exists (set_weight w c). by apply Hadd.
  - unfold next_innovation. destruct (uniform_real _ _ e2) as [w e3].
    eexists. by apply Hadd.
Qed.

Lemma mutate_add_link_adds_new_link_witness :
  let '(ok, self', n') := mutate_add_link seed_genome reuse_start in
  if ok then
    exists x,
      m_genes self' = m_genes seed_genome ++ [x] /\
      link_exists seed_genome (from x) (to x) = false /\
      from x ∈ m_known_neuron_ids seed_genome /\ to x ∈ m_known_neuron_ids seed_genome /\
      m_number_of_inputs seed_genome < to x /\
      m_known_neuron_ids self' = m_known_neuron_ids seed_genome /\
      (NoDup (map link_of (m_genes seed_genome)) -> NoDup (map link_of (m_genes self')))
  else self' = seed_genome.
Proof.
  apply (mutate_add_link_adds_new_link seed_genome reuse_start).
  - cbn. lia.
  - split; [cbn; apply (NoDup_seq 0 4)|by exists []].
  - apply empty_pool_wf.
Defined.

End KnownLayout.

(** ** The seed genome *)

Section SeedGenome.

Lemma advance_innovation_0 p : advance_innovation 0 p = p.
Proof. destruct p. unfold advance_innovation. cbn. by rewrite Nat.add_0_r. Qed.

Lemma seed_links_loop w0 f s R (g : genome) (p : innovation_pool) :
  foldl (fun st i => add_seed_gene w0 f (s + i) st) (g, p) (seq 0 R)
  = (foldl (fun self x => add_gene x self) g
       (map (fun i => new_gene (m_next_innovation p + i) f (s + i) w0) (seq 0 R)),
     advance_innovation R p).
Proof.
  induction R as [|R IH].
  - cbn. by rewrite advance_innovation_0.
  - rewrite seq_S, foldl_app, IH, map_app, foldl_app. cbn [foldl map Nat.add].
    unfold add_seed_gene, next_innovation, advance_innovation. cbn.
    do 2 f_equal. lia.
Qed.

Lemma flat_map_seq_S {A} (f : nat -> list A) a R :
  flat_map f (seq a (S R)) = flat_map f (seq a R) ++ f (a + R).
Proof. by rewrite seq_S, flat_map_app; cbn; rewrite app_nil_r. Qed.

Lemma init_initial_genome_unfold w0 n :
  let I := number_of_inputs (params n) in
  let O := number_of_outputs (params n) in
  init_initial_genome w0 n
  = (foldl (fun self x => add_gene x self) (genome_ctor n)
       (flat_map (seed_row w0 I O (m_next_innovation (innov_pool n))) (seq 0 (S I))),
     set_innov_pool (advance_innovation (S I * O) (innov_pool n)) n).
Proof.
  cbn zeta. unfold init_initial_genome.
  cbn [genome_ctor m_number_of_inputs m_number_of_outputs].
  set (I := number_of_inputs (params n)). set (O := number_of_outputs (params n)).
  set (k := m_next_innovation (innov_pool n)).
  rewrite (seed_links_loop w0 BIAS_ID (1 + I)).
  assert (Hrows : forall R,
    foldl (fun st j => foldl (fun st i => add_seed_gene w0 (j + 1) (1 + I + i) st)
                         st (seq 0 O))
      (foldl (fun self x => add_gene x self) (genome_ctor n)
         (map (fun i => new_gene (k + i) BIAS_ID (1 + I + i) w0) (seq 0 O)),
       advance_innovation O (innov_pool n)) (seq 0 R)
    = (foldl (fun self x => add_gene x self) (genome_ctor n)
         (flat_map (seed_row w0 I O k) (seq 0 (S R))),
       advance_innovation (S R * O) (innov_pool n))).
  { induction R as [|R IH].
    - cbn [seq foldl flat_map]. rewrite app_nil_r. unfold seed_row, BIAS_ID.
      do 2 f_equal; [|f_equal; lia].
      apply map_ext. intros i. f_equal. lia.
    - rewrite seq_S, foldl_app, IH. cbn [foldl Nat.add].
      rewrite (seed_links_loop w0 (R + 1) (1 + I) O).
      rewrite (flat_map_seq_S _ 0 (S R)), <- foldl_app.
      f_equal.
      + do 2 f_equal. unfold seed_row. apply map_ext. intros i.
        cbn [advance_innovation m_next_innovation]. fold k. f_equal. cbn. lia.
      + unfold advance_innovation. cbn [m_next_innovation m_next_hidden_neuron_id
          m_all_genes m_all_innovations]. f_equal. lia. }
  rewrite Hrows. done.
Qed.

Lemma seed_rows_innovs w0 I O k R :
  map innov_num (flat_map (seed_row w0 I O k) (seq 0 R)) = seq k (R * O).
Proof.
  induction R as [|R IH]; [done|].
  rewrite flat_map_seq_S, map_app. unfold neuron_id_t in *. rewrite IH. cbn [Nat.add].
  replace (S R * O) with (R * O + O) by lia. rewrite seq_app. f_equal.
  unfold seed_row. rewrite map_map. cbn [new_gene innov_num].
  etrans; [apply (fmap_add_seq (k + R * O) 0 O)|]. f_equal. lia.
Qed.

Lemma elem_of_seed_rows w0 I O k R x :
  x ∈ flat_map (seed_row w0 I O k) (seq 0 R) <->
  exists f i, f < R /\ i < O /\ x = new_gene (k + f * O + i) f (1 + I + i) w0.
Proof.
  rewrite list_elem_of_In, in_flat_map. split.
  - intros (f & Hf & Hx). apply in_seq in Hf. unfold seed_row in Hx.
    apply in_map_iff in Hx as (i & <- & Hi). apply in_seq in Hi.
    exists f, i. split; [lia|]. split; [lia|done].
  - intros (f & i & Hf & Hi & ->). exists f. split; [apply in_seq; lia|].
    unfold seed_row. apply in_map_iff. exists i. split; [done|]. apply in_seq. lia.
Qed.

Lemma foldl_add_gene_known gs base :
  Forall (fun x => from x ∈ m_known_neuron_ids base /\ to x ∈ m_known_neuron_ids base) gs ->
  m_known_neuron_ids (foldl (fun self x => add_gene x self) base gs)
  = m_known_neuron_ids base.
Proof.
  revert base. induction gs as [|x gs IH]; intros base HF; [done|].
  apply Forall_cons in HF as [[Hf Ht] HF]. cbn [foldl].
  assert (E : m_known_neuron_ids (add_gene x base) = m_known_neuron_ids base).
  { unfold add_gene. cbn [m_known_neuron_ids].
    apply not_found_false in Hf. rewrite Hf.
    apply not_found_false in Ht. by rewrite Ht. }
  rewrite IH; [done|]. by rewrite E.
Qed.

(** X14.  The seed genome that [base_neat::init()] builds is fully
    connected and nothing more: for [I] inputs and [O] outputs it holds
    [(I + 1) * O] enabled genes, one from the bias and one from every input
    to every output, in this order; their innovation numbers are the next
    [(I + 1) * O] numbers of the pool, in increasing order, and the pool's
    counter has moved past them.  The known neurons are still the
    constructor's, and no gene or innovation is registered in the pool. *)
Theorem init_builds_fully_connected_genome w0 n :
  let I := number_of_inputs (params n) in
  let O := number_of_outputs (params n) in
  let k := m_next_innovation (innov_pool n) in
  let '(initial_genome, n') := init_initial_genome w0 n in
  m_genes initial_genome = flat_map (seed_row w0 I O k) (seq 0 (S I)) /\
  map innov_num (m_genes initial_genome) = seq k (S I * O) /\
  (forall f t, link_exists initial_genome f t = true <-> f <= I /\ I < t <= I + O) /\
  Forall (fun x => enabled x = true) (m_genes initial_genome) /\
  m_known_neuron_ids initial_genome = seq 0 (1 + I + O) /\
  innov_pool n' = advance_innovation (S I * O) (innov_pool n) /\
  params n' = params n /\ rand_engine n' = rand_engine n.
Proof.
  cbn zeta. rewrite init_initial_genome_unfold.
  set (I := number_of_inputs (params n)). set (O := number_of_outputs (params n)).
  set (k := m_next_innovation (innov_pool n)).
  set (gs := flat_map (seed_row w0 I O k) (seq 0 (S I))).
  assert (Hg : m_genes (foldl (fun self x => add_gene x self) (genome_ctor n) gs) = gs)
    by by rewrite foldl_add_gene_genes.
  split; [done|]. split; [rewrite Hg; apply seed_rows_innovs|].
  split; [|split; [|split; [|done]]].
  - intros f t. rewrite link_exists_spec, Hg, list_elem_of_fmap. split.
    + intros (x & Heq & Hx). apply elem_of_seed_rows in Hx as (f' & i & Hf & Hi & ->).
      unfold link_of in Heq. cbn in Heq. injection Heq as -> ->. lia.
    + intros [Hf Ht]. exists (new_gene (k + f * O + (t - I - 1)) f (1 + I + (t - I - 1)) w0).
      split; [unfold link_of; cbn; f_equal; lia|].
      apply elem_of_seed_rows. exists f, (t - I - 1). split; [lia|]. split; [lia|done].
  - rewrite Hg. apply Forall_forall. intros x Hx.
    by apply elem_of_seed_rows in Hx as (f' & i & Hf & Hi & ->).
  - rewrite foldl_add_gene_known; [apply genome_ctor_known|].
    apply Forall_forall. intros x Hx.
    apply elem_of_seed_rows in Hx as (f' & i & Hf & Hi & ->).
    rewrite genome_ctor_known. fold I O. cbn [new_gene from to].
    rewrite !elem_of_seq. lia.
Qed.

End SeedGenome.

(** ** The distance as a metric *)

Section DistanceSymmetry.

(** The merge loop run with the two gene vectors exchanged ends with the
    iterators exchanged and the same counts. *)
Lemma merge_walk_swap A B d m s s' :
  (s == s')%Q ->
  let w := merge_walk A B d m s in
  let w' := merge_walk B A d m s' in
  oya1_gene_it w' = oya2_gene_it w /\ oya2_gene_it w' = oya1_gene_it w /\
  nb_disjoint_genes w' = nb_disjoint_genes w /\
  nb_matching_genes w' = nb_matching_genes w /\
  (sum_weight_difference w' == sum_weight_difference w)%Q.
Proof.
  cbn zeta. revert B d m s s'.
  induction A as [|a A IHA]; intros B d m s s' Hs.
  - destruct B; cbn; repeat split; try done; by symmetry.
  - induction B as [|b B IHB] in d, m, s, s', Hs |- *.
    + cbn. repeat split; try done; by symmetry.
    + cbn [merge_walk]. rewrite (Nat.eqb_sym (innov_num b) (innov_num a)).
      destruct (innov_num a =? innov_num b) eqn:E.
      * apply IHA. rewrite Hs.
        assert (E' : (Qabs (weight b - weight a) == Qabs (weight a - weight b))%Q).
        { rewrite <- (Qabs_opp (weight a - weight b)).
          apply Qabs_wd. ring. }
        by rewrite E'.
      * apply Nat.eqb_neq in E.
        destruct (innov_num a <? innov_num b) eqn:L.
        -- apply Nat.ltb_lt in L.
           assert (L' : (innov_num b <? innov_num a) = false) by (apply Nat.ltb_ge; lia).
           rewrite L'. specialize (IHA (b :: B) (S d) m s s' Hs).
           cbn [merge_walk] in IHA. apply IHA.
        -- apply Nat.ltb_ge in L.
           assert (L' : (innov_num b <? innov_num a) = true) by (apply Nat.ltb_lt; lia).
           rewrite L'. specialize (IHB (S d) m s s' Hs).
           cbn [merge_walk] in IHB. apply IHB.
Qed.

Lemma fp_ltb_eq a a' b : fp_eq a a' -> fp_ltb a b = fp_ltb a' b.
Proof.
  destruct a, a', b; cbn; try done. intros E.
  destruct (Qle_bool q1 q) eqn:H1, (Qle_bool q1 q0) eqn:H2; try done.
  - apply Qle_bool_iff in H1. rewrite E in H1. apply Qle_bool_iff in H1. congruence.
  - apply Qle_bool_iff in H2. rewrite <- E in H2. apply Qle_bool_iff in H2. congruence.
Qed.

(** X15.  The genetic distance is symmetric, for all gene vectors (sorted or
    not): [a.distance_to(b)] and [b.distance_to(a)] are the same number, or
    are both not-a-number; hence [a.is_compatible_with(b)] and
    [b.is_compatible_with(a)] agree. *)
Theorem distance_to_symmetric n A B :
  fp_eq (distance_to n A B) (distance_to n B A) /\
  is_compatible_with n A B = is_compatible_with n B A.
Proof.
  assert (HD : fp_eq (distance_to n A B) (distance_to n B A)).
  { unfold distance_to. rewrite (Nat.max_comm (length (m_genes B))).
    destruct (_ <=? 4); [done|].
    destruct (merge_walk_swap (m_genes A) (m_genes B) 0 0 0%Q 0%Q ltac:(done))
      as (H1 & H2 & H3 & H4 & H5).
    unfold nb_excess_genes. rewrite H1, H2, H3, H4.
    rewrite (Nat.add_comm (length (oya2_gene_it _))).
    apply fp_add_eq; [apply fp_eq_refl|].
    apply fp_mul_eq; [apply fp_eq_refl|]. apply average_of_eq. by symmetry. }
  split; [done|]. unfold is_compatible_with. by apply fp_ltb_eq.
Qed.

Lemma merge_walk_self A d m s :
  let w := merge_walk A A d m s in
  oya1_gene_it w = [] /\ oya2_gene_it w = [] /\
  nb_disjoint_genes w = d /\ nb_matching_genes w = m + length A /\
  (sum_weight_difference w == s)%Q.
Proof.
  cbn zeta. revert d m s. induction A as [|a A IH]; intros d m s.
  - cbn. repeat split; try done; lia.
  - cbn [merge_walk]. rewrite Nat.eqb_refl.
    destruct (IH d (S m) (s + Qabs (weight a - weight a))%Q) as (H1 & H2 & H3 & H4 & H5).
    repeat split; try done.
    + rewrite H4. cbn. lia.
    + rewrite H5. assert (E : (weight a - weight a == 0)%Q) by ring.
      rewrite E. change (Qabs 0) with 0%Q. ring.
Qed.

(** X16.  The distance of a genome to itself is zero, whatever its genes and
    the coefficients; so a genome is compatible with itself exactly when the
    compatibility threshold is positive: with a threshold of zero or less a
    genome is not compatible even with itself. *)
Theorem distance_to_self n A :
  fp_eq (distance_to n A A) (Num 0) /\
  (is_compatible_with n A A = true <-> (0 < compatibility_threshold (params n))%Q).
Proof.
  assert (HD : fp_eq (distance_to n A A) (Num 0)).
  { unfold distance_to. rewrite Nat.max_id.
    destruct (length (m_genes A) <=? 4) eqn:E; [done|]. apply Nat.leb_gt in E.
    destruct (merge_walk_self (m_genes A) 0 0 0%Q) as (H1 & H2 & H3 & H4 & H5).
    unfold nb_excess_genes. rewrite H1, H2, H3, H4. cbn [length Nat.add].
    destruct (length (m_genes A)) as [|k] eqn:EL; [lia|].
    cbn [average_of fp_mul fp_add fp_eq]. rewrite H5.
    assert (Hk : ~ (Q_of_nat (S k) == 0)%Q).
    { unfold Q_of_nat, Qeq. cbn. lia. }
    change (Q_of_nat 0) with 0%Q. field. done. }
  split; [done|]. unfold is_compatible_with.
  rewrite (fp_ltb_eq _ (Num 0) _ HD). cbn [fp_ltb].
  rewrite negb_true_iff. split.
  - intros H. apply Qnot_le_lt. intros Hle. apply Qle_bool_iff in Hle. congruence.
  - intros H. destruct (Qle_bool _ 0) eqn:E; [|done].
    apply Qle_bool_iff in E. exfalso. by apply (Qlt_not_le _ _ H).
Qed.

End DistanceSymmetry.

(** ** Tracking the best genome ever *)

Section BestGenomeEver.

(** What the search returns, read backwards from its result. *)
Lemma champion_loop_from_none pop lowest :
  match champion_loop pop lowest None with
  | Some c =>
      c ∈ pop /\ (lowest < m_fitness c)%Q /\
      forall g, g ∈ pop -> (m_fitness g <= m_fitness c)%Q
  | None => forall g, g ∈ pop -> (m_fitness g <= lowest)%Q
  end.
Proof.
  pose proof (champion_loop_spec pop lowest None) as HS.
  destruct (champion_loop pop lowest None) as [c|]; [|by destruct HS].
  destruct HS as [[?|[Hc Hlt]] Hall]; [done|]. repeat split; try done.
  intros g Hg. destruct (Hall g Hg) as [?|Hle]; [done|].
  apply Qlt_le_weak. by eapply Qle_lt_trans.
Qed.

Section BestEver.

Context {species : Type}.
Implicit Types d : @base_neat species.

Lemma update_best_genome_ever_step pop d :
  match update_best_genome_ever pop d with
  | Some d' =>
      same_driver_state d d' /\
      exists c b,
        get_current_best_genome pop = Some c /\ c ∈ pop /\
        (forall g, g ∈ pop -> (m_fitness g <= m_fitness c)%Q) /\
        m_best_genome_ever d' = Some b /\
        (m_fitness c <= m_fitness b)%Q /\
        match m_best_genome_ever d with
        | None => b = c /\ m_age_of_best_genome_ever d' = 0
        | Some b0 =>
            (m_fitness b0 <= m_fitness b)%Q /\
            if Qgt_bool (m_fitness c) (m_fitness b0)
            then b = c /\ m_age_of_best_genome_ever d' = 0
            else b = b0 /\ m_age_of_best_genome_ever d' = m_age_of_best_genome_ever d
        end
  | None => forall g, g ∈ pop -> (m_fitness g <= -1 * DBL_MAX)%Q
  end.
Proof.
  unfold update_best_genome_ever, get_current_best_genome.
  pose proof (champion_loop_from_none pop (-1 * DBL_MAX)%Q) as HS.
  destruct (m_best_genome_ever d) as [b0|] eqn:Eb;
    destruct (champion_loop pop (-1 * DBL_MAX)%Q None) as [c|]; cbn; try done.
  - destruct HS as (Hc & _ & Hall).
    destruct (Qgt_bool (m_fitness c) (m_fitness b0)) eqn:E.
    + split; [done|]. exists c, c. cbn. rewrite ?Eb, ?E. repeat split; try done;
        try apply Qle_refl. apply Qgt_bool_iff in E. by apply Qlt_le_weak.
    + split; [done|]. exists c, b0. rewrite ?Eb, ?E. repeat split; try done;
        try apply Qle_refl. by apply Qgt_bool_false in E.
  - destruct HS as (Hc & _ & Hall). split; [done|]. exists c, c. cbn. rewrite ?Eb.
    repeat split; try done; apply Qle_refl.
Qed.

Lemma same_driver_state_trans d1 d2 d3 :
  same_driver_state d1 d2 -> same_driver_state d2 d3 -> same_driver_state d1 d3.
Proof. intros (?&?&?&?) (?&?&?&?). repeat split; congruence. Qed.

(** X17.  Calls of [update_best_genome_ever] over successive populations,
    each holding a genome with a fitness above [-DBL_MAX], never fail; the
    genome stored at the end is at least as fit as the one stored at the
    start and as every genome of every population seen, and it is the one
    stored at the start or a genome of one of the populations.  Nothing but
    the best genome and its age changes in the driver. *)
Theorem update_best_genome_ever_tracks_maximum pops d :
  Forall (fun pop => exists g, g ∈ pop /\ (-1 * DBL_MAX < m_fitness g)%Q) pops ->
  exists d',
    update_best_genome_ever_each pops d = Some d' /\
    same_driver_state d d' /\
    (forall b0, m_best_genome_ever d = Some b0 ->
       exists b, m_best_genome_ever d' = Some b /\ (m_fitness b0 <= m_fitness b)%Q) /\
    (pops <> [] ->
       exists b, m_best_genome_ever d' = Some b /\
         (m_best_genome_ever d = Some b \/ exists pop, pop ∈ pops /\ b ∈ pop) /\
         forall pop g, pop ∈ pops -> g ∈ pop -> (m_fitness g <= m_fitness b)%Q).
Proof.
  revert d. induction pops as [|pop rest IH]; intros d HF.
  - exists d. split; [done|]. split; [done|]. split; [|done].
    intros b0 Hb0. exists b0. split; [done|apply Qle_refl].
  - apply Forall_cons in HF as [(g0 & Hg0 & Hlt) HF]. cbn [update_best_genome_ever_each].
    pose proof (update_best_genome_ever_step pop d) as Hstep.
    destruct (update_best_genome_ever pop d) as [d1|]; cycle 1.
    { exfalso. apply (Qlt_not_le _ _ Hlt). by apply Hstep. }
    cbn [mbind option_bind].
    destruct Hstep as (Hsame & c & b & Hc & Hcin & Hcmax & Hb & Hcb & Hold).
    destruct (IH d1 HF) as (d' & Hrun & Hsame' & Hmono & Hmax).
    exists d'. split; [done|]. split.
    { eapply same_driver_state_trans; [exact Hsame|]. exact Hsame'. }
    destruct (Hmono b Hb) as (b' & Hb' & Hbb').
    split.
    + intros b0 Hb0. rewrite Hb0 in Hold. destruct Hold as [Hle _].
      exists b'. split; [done|]. by eapply Qle_trans.
    + intros _. exists b'. split; [done|]. split.
      * destruct rest as [|pop2 rest'].
        -- cbn in Hrun. injection Hrun as <-. cbn in Hb'. rewrite Hb in Hb'.
           injection Hb' as <-.
           destruct (m_best_genome_ever d) as [b0|] eqn:Eb.
           ++ destruct Hold as [_ Hold].
              destruct (Qgt_bool (m_fitness c) (m_fitness b0)); destruct Hold as [-> _].
              ** right. exists pop. split; [by left|done].
              ** by left.
           ++ destruct Hold as [-> _]. right. exists pop. split; [by left|done].
        -- destruct (Hmax ltac:(done)) as (b2 & Hb2 & Horigin & _).
           rewrite Hb' in Hb2. injection Hb2 as <-.
           destruct Horigin as [Hfrom|(pop' & Hp' & Hin)].
           ++ cbn in Hfrom. rewrite Hb in Hfrom. injection Hfrom as <-.
              destruct (m_best_genome_ever d) as [b0|] eqn:Eb.
              ** destruct Hold as [_ Hold].
                 destruct (Qgt_bool (m_fitness c) (m_fitness b0)); destruct Hold as [-> _].
                 --- right. exists pop. split; [by left|done].
                 --- by left.
              ** destruct Hold as [-> _]. right. exists pop. split; [by left|done].
           ++ right. exists pop'. split; [by right|done].
      * intros pop' g Hp' Hg. apply elem_of_cons in Hp' as [->|Hp'].
        -- eapply Qle_trans; [by apply Hcmax|]. by eapply Qle_trans.
        -- destruct rest as [|pop2 rest']; [by apply elem_of_nil in Hp'|].
           destruct (Hmax ltac:(done)) as (b2 & Hb2 & _ & Hall).
           rewrite Hb' in Hb2. injection Hb2 as <-. by eapply Hall.
Qed.

End BestEver.

Lemma update_best_genome_ever_tracks_maximum_witness :
  exists d',
    update_best_genome_ever_each example_generations fresh_driver = Some d' /\
    same_driver_state fresh_driver d' /\
    (forall b0, m_best_genome_ever fresh_driver = Some b0 ->
       exists b, m_best_genome_ever d' = Some b /\ (m_fitness b0 <= m_fitness b)%Q) /\
    (example_generations <> [] ->
       exists b, m_best_genome_ever d' = Some b /\
         (m_best_genome_ever fresh_driver = Some b \/
          exists pop, pop ∈ example_generations /\ b ∈ pop) /\
         forall pop g, pop ∈ example_generations -> g ∈ pop ->
                       (m_fitness g <= m_fitness b)%Q).
Proof.
  apply (update_best_genome_ever_tracks_maximum example_generations fresh_driver).
  repeat constructor.
  - exists (with_fitness (-1)). split; [by left|reflexivity].
  - exists (with_fitness 2). split; [by left|reflexivity].
Defined.

Section FirstRevisionAge.

Import FirstRevisionTracking.

Context {species : Type}.
Implicit Types d : @base_neat species.

Lemma epoch_track_each_app pre post d :
  epoch_track_each (pre ++ post) d = (d1 ← epoch_track_each pre d; epoch_track_each post d1).
Proof.
  revert d. induction pre as [|pop pre IH]; intros d; cbn; [done|].
  destruct (epoch_track pop d) as [d1|]; cbn; [apply IH|done].
Qed.

Lemma epoch_track_step pop d :
  match epoch_track pop d with
  | Some d' =>
      exists c,
        FirstRevision.get_current_best_genome pop = Some c /\
        (forall g, g ∈ pop -> (m_fitness g <= m_fitness c)%Q) /\
        match m_best_genome_ever d with
        | None => m_best_genome_ever d' = Some c /\ m_age_of_best_genome_ever d' = 0
        | Some b0 =>
            if Qgt_bool (m_fitness c) (m_fitness b0)
            then m_best_genome_ever d' = Some c /\ m_age_of_best_genome_ever d' = 0
            else m_best_genome_ever d' = Some b0 /\
                 m_age_of_best_genome_ever d' = S (m_age_of_best_genome_ever d)
        end
  | None => forall g, g ∈ pop -> (m_fitness g <= DBL_MIN)%Q
  end.
Proof.
  unfold epoch_track, FirstRevision.get_current_best_genome.
  pose proof (champion_loop_from_none pop DBL_MIN) as HS.
  destruct (m_best_genome_ever d) as [b0|] eqn:Eb;
    destruct (champion_loop pop DBL_MIN None) as [c|]; cbn; try done.
  - destruct HS as (Hc & _ & Hall).
    destruct (Qgt_bool (m_fitness c) (m_fitness b0)) eqn:E;
      exists c; rewrite ?Eb, ?E; done.
  - destruct HS as (Hc & _ & Hall). exists c. rewrite ?Eb. done.
Qed.

(** X18.  In the first revision of the driver, where [epoch] itself tracks
    the best genome, epochs over populations that each hold a genome with a
    fitness above [DBL_MIN] never fail, and the age stored with the best
    genome counts the epochs since it was found: either the best genome is
    the champion of one of the populations, the age is the number of
    populations after that one, and none of those holds a fitter genome; or
    the best genome is still the one the driver started with, the age has
    grown by the number of populations, and no population holds a fitter
    genome. *)
Theorem first_revision_age_counts_epochs pops d :
  Forall (fun pop => exists g, g ∈ pop /\ (DBL_MIN < m_fitness g)%Q) pops ->
  exists d',
    epoch_track_each pops d = Some d' /\
    ((exists pre pop post b,
        pops = pre ++ pop :: post /\
        FirstRevision.get_current_best_genome pop = Some b /\
        m_best_genome_ever d' = Some b /\
        m_age_of_best_genome_ever d' = length post /\
        forall p g, p ∈ post -> g ∈ p -> (m_fitness g <= m_fitness b)%Q)
     \/
     (m_best_genome_ever d' = m_best_genome_ever d /\
      m_age_of_best_genome_ever d' = m_age_of_best_genome_ever d + length pops /\
      (pops <> [] -> m_best_genome_ever d <> None) /\
      forall b p g, m_best_genome_ever d = Some b -> p ∈ pops -> g ∈ p ->
                    (m_fitness g <= m_fitness b)%Q)).
Proof.
  revert d. induction pops as [|pop pops IH] using List.rev_ind; intros d HF.
  - exists d. split; [done|]. right. cbn. repeat split; try done; try lia.
    intros b p g _ Hp. by apply elem_of_nil in Hp.
  - apply Forall_app in HF as [HF Hlast]. apply Forall_cons in Hlast as [(g0 & Hg0 & Hlt) _].
    destruct (IH d HF) as (d1 & Hrun & Hcases). clear IH.
    rewrite epoch_track_each_app, Hrun. cbn [mbind option_bind epoch_track_each].
    pose proof (epoch_track_step pop d1) as Hstep.
    destruct (epoch_track pop d1) as [d'|]; cycle 1.
    { exfalso. apply (Qlt_not_le _ _ Hlt). by apply Hstep. }
    exists d'. split; [done|].
    destruct Hstep as (c & Hc & Hcmax & Hupd).
    assert (Hnew : m_best_genome_ever d' = Some c /\ m_age_of_best_genome_ever d' = 0 ->
      exists pre pop0 post b,
        pops ++ [pop] = pre ++ pop0 :: post /\
        FirstRevision.get_current_best_genome pop0 = Some b /\
        m_best_genome_ever d' = Some b /\
        m_age_of_best_genome_ever d' = length post /\
        forall p g, p ∈ post -> g ∈ p -> (m_fitness g <= m_fitness b)%Q).
    { intros [Hb Ha]. exists pops, pop, [], c. repeat split; try done.
      intros p g Hp. by apply elem_of_nil in Hp. }
    destruct Hcases as [(pre & pop0 & post & b & Hsplit & Hchamp & Hb & Hage & Hpost)
                       |(Hb & Hage & Hsome & Hall)].
    + rewrite Hb in Hupd. destruct (Qgt_bool (m_fitness c) (m_fitness b)) eqn:E.
      * left. by apply Hnew.
      * destruct Hupd as [Hb' Hage']. apply Qgt_bool_false in E. left.
        exists pre, pop0, (post ++ [pop]), b. repeat split; try done.
        -- by rewrite Hsplit, <- app_assoc.
        -- rewrite Hage', Hage, length_app. cbn. lia.
        -- intros p g Hp Hg. apply elem_of_app in Hp as [Hp|Hp]; [by eapply Hpost|].
           apply list_elem_of_singleton in Hp. subst p.
           eapply Qle_trans; [by apply Hcmax|done].
    + rewrite Hb in Hupd. destruct (m_best_genome_ever d) as [b0|] eqn:Eb.
      * destruct (Qgt_bool (m_fitness c) (m_fitness b0)) eqn:E.
        -- left. by apply Hnew.
        -- destruct Hupd as [Hb' Hage']. apply Qgt_bool_false in E. right.
           repeat split; try done.
           ++ rewrite Hage', Hage, length_app. cbn. lia.
           ++ intros b p g [= <-] Hp Hg. apply elem_of_app in Hp as [Hp|Hp]; [by eapply Hall|].
              apply list_elem_of_singleton in Hp. subst p.
              eapply Qle_trans; [by apply Hcmax|done].
      * left. by apply Hnew.
Qed.

End FirstRevisionAge.

Lemma first_revision_age_counts_epochs_witness :
  exists d',
    FirstRevisionTracking.epoch_track_each example_fit_generations fresh_driver = Some d' /\
    ((exists pre pop post b,
        example_fit_generations = pre ++ pop :: post /\
        FirstRevision.get_current_best_genome pop = Some b /\
        m_best_genome_ever d' = Some b /\
        m_age_of_best_genome_ever d' = length post /\
        forall p g, p ∈ post -> g ∈ p -> (m_fitness g <= m_fitness b)%Q)
     \/
     (m_best_genome_ever d' = m_best_genome_ever fresh_driver /\
      m_age_of_best_genome_ever d'
      = m_age_of_best_genome_ever fresh_driver + length example_fit_generations /\
      (example_fit_generations <> [] -> m_best_genome_ever fresh_driver <> None) /\
      forall b p g, m_best_genome_ever fresh_driver = Some b ->
                    p ∈ example_fit_generations -> g ∈ p ->
                    (m_fitness g <= m_fitness b)%Q)).
Proof.
  apply (first_revision_age_counts_epochs example_fit_generations fresh_driver).
  repeat constructor.
  - exists (with_fitness 1). split; [by left|reflexivity].
  - exists (with_fitness 2). split; [by left|reflexivity].
Defined.

End BestGenomeEver.

(** ** The library of best genomes *)

Section BestGenomesLibrary.



Section Library.

Context {species : Type}.
Implicit Types d : @base_neat species.
Variable genome_eq : genome -> genome -> bool.



End Library.

End BestGenomesLibrary.

(** ** Speciation of the population *)

Section SpeciationOfPopulation.

Section SpeciationProperties.

Context {species : Type}.
Variable species_ctor : nat -> genome -> species.
Variable get_representant : species -> genome.
Variable add_member : nat -> species -> species.
Variable members : species -> list nat.

Hypothesis representant_of_ctor :
  forall id g, get_representant (species_ctor id g) = g.
Hypothesis representant_of_add_member :
  forall i s, get_representant (add_member i s) = get_representant s.
Hypothesis members_of_add_member :
  forall i s, i ∈ members (add_member i s) /\ members s ⊆ members (add_member i s).

Lemma species_grown_refl d : species_grown get_representant members d d.
Proof.
  split; [done|]. split; [done|]. split; [done|]. split; [lia|]. split; [lia|].
  intros idx s Hs. by exists s.
Qed.

Lemma species_grown_trans d1 d2 d3 :
  species_grown get_representant members d1 d2 ->
  species_grown get_representant members d2 d3 ->
  species_grown get_representant members d1 d3.
Proof.
  intros (H1 & H2 & H3 & H4 & H5 & H6) (K1 & K2 & K3 & K4 & K5 & K6).
  split; [congruence|]. split; [congruence|]. split; [congruence|].
  split; [lia|]. split; [lia|].
  intros idx s Hs. destruct (H6 idx s Hs) as (s' & Hs' & Hr & Hm).
  destruct (K6 idx s' Hs') as (s'' & Hs'' & Hr' & Hm').
  exists s''. split; [done|]. split; [congruence|]. by etrans.
Qed.

Lemma placed_grown pop i d d' :
  species_grown get_representant members d d' ->
  placed get_representant members pop i d -> placed get_representant members pop i d'.
Proof.
  intros (H1 & _ & _ & _ & _ & H6) (geno & idx & s & Hg & Hs & Hm & Hc).
  destruct (H6 idx s Hs) as (s' & Hs' & Hr & Hm').
  exists geno, idx, s'. repeat split; try done; [by apply Hm'|].
  rewrite H1, Hr. done.
Qed.

Lemma find_species_from_spec n geno idx l :
  match find_species_from get_representant n geno idx l with
  | Some k =>
      exists s, idx <= k /\ l !! (k - idx) = Some s /\
                is_compatible_with n geno (get_representant s) = true /\
                forall j s0, j < k - idx -> l !! j = Some s0 ->
                             is_compatible_with n geno (get_representant s0) = false
  | None =>
      forall s0, s0 ∈ l -> is_compatible_with n geno (get_representant s0) = false
  end.
Proof.
  revert idx. induction l as [|spec rest IH]; intros idx; cbn [find_species_from].
  - intros s0 Hs0. by apply elem_of_nil in Hs0.
  - destruct (is_compatible_with n geno (get_representant spec)) eqn:E.
    + exists spec. rewrite Nat.sub_diag. repeat split; try done. intros j s0 Hj. lia.
    + specialize (IH (S idx)).
      destruct (find_species_from get_representant n geno (S idx) rest) as [k|].
      * destruct IH as (s & Hk & Hs & Hc & Hbefore). exists s.
        replace (k - idx) with (S (k - S idx)) by lia.
        repeat split; try done; try lia.
        intros j s0 Hj Hs0. destruct j as [|j]; [cbn in Hs0; congruence|].
        apply (Hbefore j); [lia|done].
      * intros s0 Hs0. apply elem_of_cons in Hs0 as [->|Hs0]; [done|by apply IH].
Qed.

Lemma helper_speciate_one_genome_spec pop geno_id d :
  geno_id < length pop ->
  exists d', helper_speciate_one_genome species_ctor get_representant add_member
               pop geno_id d = Some d' /\
             species_grown get_representant members d d' /\
             placed get_representant members pop geno_id d' /\
             length (m_all_species d') <= S (length (m_all_species d)).
Proof.
  intros Hlt. unfold helper_speciate_one_genome, find_appropriate_species_for.
  destruct (lookup_lt_is_Some_2 pop geno_id Hlt) as [geno Hgeno]. rewrite Hgeno.
  cbn [mbind option_bind].
  pose proof (find_species_from_spec (as_neat d) geno 0 (m_all_species d)) as Hfind.
  destruct (find_species_from get_representant (as_neat d) geno 0 (m_all_species d))
    as [k|].
  - destruct Hfind as (s & _ & Hs & Hc & _). rewrite Nat.sub_0_r in Hs.
    eexists. split; [reflexivity|]. unfold species_grown, placed.
    cbn [m_all_species as_neat m_next_species_id m_best_genomes_library
         m_best_genome_ever].
    split; [|split].
    + split; [done|]. split; [done|]. split; [done|].
      rewrite length_alter. split; [lia|]. split; [lia|].
      intros idx s0 Hs0. destruct (decide (idx = k)) as [->|Hne].
      * exists (add_member geno_id s0).
        rewrite list_lookup_alter, decide_True by done. rewrite Hs0.
        split; [done|]. split; [apply representant_of_add_member|].
        apply (proj2 (members_of_add_member geno_id s0)).
      * exists s0. rewrite list_lookup_alter_ne by done. done.
    + exists geno, k, (add_member geno_id s).
      rewrite list_lookup_alter, decide_True by done. rewrite Hs.
      split; [done|]. split; [done|].
      split; [apply (proj1 (members_of_add_member geno_id s))|].
      left. by rewrite representant_of_add_member.
    + rewrite length_alter. lia.
  - eexists. split; [reflexivity|]. unfold species_grown, placed.
    cbn [m_all_species as_neat m_next_species_id m_best_genomes_library
         m_best_genome_ever].
    split; [|split].
    + split; [done|]. split; [done|]. split; [done|].
      rewrite length_app. cbn [length]. split; [lia|]. split; [lia|].
      intros idx s0 Hs0. exists s0. split; [by apply lookup_app_l_Some|done].
    + exists geno, (length (m_all_species d)),
        (add_member geno_id (species_ctor (m_next_species_id d) geno)).
      split; [done|]. split; [|split].
      * rewrite lookup_app_r by lia. by rewrite Nat.sub_diag.
      * apply (proj1 (members_of_add_member geno_id _)).
      * right. by rewrite representant_of_add_member, representant_of_ctor.
    + rewrite length_app. cbn. lia.
Qed.

Lemma speciate_each_spec pop ids d :
  Forall (fun i => i < length pop) ids ->
  exists d', speciate_each species_ctor get_representant add_member pop ids d = Some d' /\
             species_grown get_representant members d d' /\
             (forall i, i ∈ ids -> placed get_representant members pop i d') /\
             length (m_all_species d') <= length (m_all_species d) + length ids.
Proof.
  revert d. induction ids as [|i ids IH]; intros d HF.
  - exists d. split; [done|]. split; [apply species_grown_refl|]. split; [|cbn; lia].
    intros i Hi. by apply elem_of_nil in Hi.
  - apply Forall_cons in HF as [Hi HF]. cbn [speciate_each].
    destruct (helper_speciate_one_genome_spec pop i d Hi) as (d1 & -> & Hg1 & Hp1 & Hl1).
    cbn [mbind option_bind].
    destruct (IH d1 HF) as (d' & Hrun & Hg & Hp & Hl).
    exists d'. split; [done|]. split; [by eapply species_grown_trans|]. split.
    + intros j Hj. apply elem_of_cons in Hj as [->|Hj]; [|by apply Hp].
      by eapply placed_grown.
    + cbn [length]. lia.
Qed.

(** X21.  For species that keep their representant and their members when a
    member is added, [helper_speciate_all_population] reads no genome
    outside the population, and afterwards every genome of the population
    is a member of a species whose representant it is compatible with or
    which it founded.  The species that were there stay in place with their
    representant and members; at most one species per genome is added, and
    [m_next_species_id] has advanced by the number of species added. *)
Theorem helper_speciate_all_population_places_every_genome pop d :
  exists d',
    helper_speciate_all_population species_ctor get_representant add_member pop d
    = Some d' /\
    species_grown get_representant members d d' /\
    (forall i, i < length pop -> placed get_representant members pop i d') /\
    length (m_all_species d') <= length (m_all_species d) + length pop.
Proof.
  unfold helper_speciate_all_population.
  destruct (speciate_each_spec pop (seq 0 (length pop)) d) as (d' & Hrun & Hg & Hp & Hl).
  { apply Forall_forall. intros i Hi. apply elem_of_seq in Hi. lia. }
  exists d'. split; [done|]. split; [done|]. split.
  - intros i Hi. apply Hp. apply elem_of_seq. lia.
  - by rewrite length_seq in Hl.
Qed.

End SpeciationProperties.

Lemma helper_speciate_all_population_places_every_genome_witness :
  exists d',
    helper_speciate_all_population example_species_ctor sp_representant
      example_add_member example_population unspeciated_driver = Some d' /\
    species_grown sp_representant sp_members unspeciated_driver d' /\
    (forall i, i < length example_population ->
               placed sp_representant sp_members example_population i d') /\
    length (m_all_species d')
    <= length (m_all_species unspeciated_driver) + length example_population.
Proof.
  apply (helper_speciate_all_population_places_every_genome
           example_species_ctor sp_representant example_add_member sp_members).
  - done.
  - done.
  - intros i s. cbn. split; [apply elem_of_app; right; by left|].
    intros j Hj. apply elem_of_app. by left.
Defined.

End SpeciationOfPopulation.

(** ** Network generation looks up known neurons *)

Section NetworkGeneration.

Lemma emplace_is_Some key value m k :
  is_Some (emplace key value m !! k) <-> k = key \/ is_Some (m !! k).
Proof.
  unfold emplace. destruct (m !! key) eqn:E.
  - split; [by right|]. intros [->|?]; [by rewrite E|done].
  - destruct (decide (k = key)) as [->|Hne].
    + rewrite lookup_insert_eq. split; [by left|done].
    + rewrite lookup_insert_ne by done. split; [by right|]. by intros [?|?].
Qed.

Section GenerateNetworkProperties.

Context {network : Type}.
Variable empty_network : network.
Variable network_BIAS_ID : neuron_id_t.
Variable net_add_neuron : neuron_type -> network -> neuron_id_t * network.
Variable net_add_link : neuron_id_t -> neuron_id_t -> neuron_value_t -> network -> network.

Lemma add_neurons_is_Some kind keys st k :
  is_Some ((add_neurons net_add_neuron kind keys st).2 !! k)
  <-> k ∈ keys \/ is_Some (st.2 !! k).
Proof.
  unfold add_neurons. revert st. induction keys as [|key keys IH]; intros st.
  - cbn. split; [by right|]. intros [H|H]; [by apply elem_of_nil in H|done].
  - cbn [foldl]. rewrite IH. destruct (net_add_neuron kind st.1) as [id net].
    cbn [snd]. rewrite emplace_is_Some, elem_of_cons. tauto.
Qed.

(** The keys of [ids_map]: the ids reserved for the bias, the inputs and the
    outputs, and what the known-neurons vector holds behind that many
    positions. *)
Lemma generate_neurons_keys self k :
  is_Some ((generate_neurons empty_network network_BIAS_ID net_add_neuron self).2 !! k)
  <-> k <= m_number_of_inputs self + m_number_of_outputs self \/
      k ∈ drop (m_number_of_inputs self + m_number_of_outputs self + 1)
             (m_known_neuron_ids self).
Proof.
  unfold generate_neurons. rewrite !add_neurons_is_Some. cbn [snd].
  rewrite emplace_is_Some, lookup_empty, !list_elem_of_fmap. unfold BIAS_ID.
  split.
  - intros [H|[(i & -> & Hi)|[(i & -> & Hi)|[->|H]]]].
    + by right.
    + apply elem_of_seq in Hi. left. lia.
    + apply elem_of_seq in Hi. left. lia.
    + left. lia.
    + by destruct H.
  - intros [H|H]; [|by left]. right.
    destruct (decide (k = 0)) as [->|H0]; [right; right; by left|].
    destruct (decide (k <= m_number_of_inputs self)) as [Hk|Hk].
    + right. left. exists (k - 1). split; [lia|]. apply elem_of_seq. lia.
    + left. exists (k - m_number_of_inputs self - 1). split; [lia|].
      apply elem_of_seq. lia.
Qed.

Lemma add_links_is_Some ids_map gs net :
  (forall g, g ∈ gs -> enabled g = true ->
             is_Some (ids_map !! from g) /\ is_Some (ids_map !! to g)) <->
  is_Some (add_links net_add_link ids_map gs net).
Proof.
  revert net. induction gs as [|g gs IH]; intros net; cbn [add_links].
  - split; [done|]. intros _ g Hg. by apply elem_of_nil in Hg.
  - destruct (enabled g) eqn:E.
    + split.
      * intros H. destruct (H g ltac:(by left) E) as [[f Hf] [t Ht]].
        rewrite Hf, Ht. cbn. apply IH. intros g' Hg'. apply H. by right.
      * intros H.
        destruct (ids_map !! from g) as [f|] eqn:Hf; [|by destruct H].
        destruct (ids_map !! to g) as [t|] eqn:Ht; [|by destruct H].
        cbn in H. pose proof (proj2 (IH _) H) as H'. intros g' Hg' E'.
        apply elem_of_cons in Hg' as [->|Hg']; [by rewrite Hf, Ht|by apply H'].
    + rewrite <- IH. split.
      * intros H g' Hg'. apply H. by right.
      * intros H g' Hg' E'. apply elem_of_cons in Hg' as [->|Hg']; [congruence|by apply H].
Qed.

(** X22.  [ids_map] gets an entry for each of the ids
    [0 .. inputs + outputs] and for each neuron the known-neurons vector
    holds behind that many positions; [generate_network] looks up both
    endpoints of every enabled gene in it, and reads through an end
    iterator exactly when one of them has no entry.  On a genome whose
    known-neurons vector has the constructor's layout the entries are those
    of the known neurons, so when the vector holds both endpoints of every
    gene, as [add_gene] and the mutations maintain, a network is
    returned. *)
Theorem generate_network_finds_every_neuron self :
  let n_reserved := m_number_of_inputs self + m_number_of_outputs self in
  (is_Some (generate_network empty_network network_BIAS_ID net_add_neuron
              net_add_link self)
   <-> forall g, g ∈ m_genes self -> enabled g = true ->
         (from g <= n_reserved \/ from g ∈ drop (n_reserved + 1) (m_known_neuron_ids self)) /\
         (to g <= n_reserved \/ to g ∈ drop (n_reserved + 1) (m_known_neuron_ids self))) /\
  (known_layout self -> endpoints_known self ->
   is_Some (generate_network empty_network network_BIAS_ID net_add_neuron
              net_add_link self)).
Proof.
  cbn zeta.
  assert (Hiff : is_Some (generate_network empty_network network_BIAS_ID net_add_neuron
                            net_add_link self)
    <-> forall g, g ∈ m_genes self -> enabled g = true ->
          (from g <= m_number_of_inputs self + m_number_of_outputs self \/
           from g ∈ drop (m_number_of_inputs self + m_number_of_outputs self + 1)
                      (m_known_neuron_ids self)) /\
          (to g <= m_number_of_inputs self + m_number_of_outputs self \/
           to g ∈ drop (m_number_of_inputs self + m_number_of_outputs self + 1)
                    (m_known_neuron_ids self))).
  { unfold generate_network.
    pose proof (generate_neurons_keys self) as Hkeys.
    destruct (generate_neurons empty_network network_BIAS_ID net_add_neuron self)
      as [net ids_map]. cbn [snd] in Hkeys.
    rewrite <- add_links_is_Some. split.
    - intros H g Hg E. destruct (H g Hg E) as [Hf Ht]. by rewrite <- !Hkeys.
    - intros H g Hg E. destruct (H g Hg E) as [Hf Ht]. by rewrite !Hkeys. }
  split; [exact Hiff|]. intros [_ [tail Hpre]] HK. apply Hiff. intros g Hg _.
  assert (Hin : forall k, k ∈ m_known_neuron_ids self ->
    k <= m_number_of_inputs self + m_number_of_outputs self \/
    k ∈ drop (m_number_of_inputs self + m_number_of_outputs self + 1)
           (m_known_neuron_ids self)).
  { intros k Hk. rewrite Hpre in Hk |- *. apply elem_of_app in Hk as [Hk|Hk].
    - apply elem_of_seq in Hk. left. lia.
    - right. rewrite drop_app_length'; [done|]. rewrite length_seq. lia. }
  destruct (HK g Hg) as [Hf Ht]. split; by apply Hin.
Qed.

End GenerateNetworkProperties.

Lemma generate_network_finds_every_neuron_witness :
  is_Some (generate_network (0, 0) 0 counting_add_neuron counting_add_link seed_genome).
Proof.
  apply (generate_network_finds_every_neuron (0, 0) 0 counting_add_neuron
           counting_add_link seed_genome).
  - split; [cbn; apply (NoDup_seq 0 4)|by exists []].
  - apply genome_of_genes_endpoints_known.
Defined.

End NetworkGeneration.

(** ** What deserialisation keeps of the driver read into *)

Section DeserializeKeeps.

Section DeserializeInto.

Context {species : Type} `{Streamed species} `{Streamed innovation_pool}
        `{Streamed genome}.
Variable species_ctor : nat -> genome -> species.

(** X23.  Whatever the stream, when [helper_deserialize_base_neat] succeeds
    the stream started with the next species id, the age, a threshold and
    the flag of the best genome.  The driver read into keeps its engine and
    its parameters, except that the stored compatibility threshold replaces
    its own when [dynamic_compatibility_threshold] is set, and only then.
    With the flag unset the best genome the driver had stays in place; with
    the flag set the best genome read has fitness 0. *)
Theorem helper_deserialize_base_neat_keeps (d d' : @base_neat species) des rest :
  helper_deserialize_base_neat species_ctor d des = Some (d', rest) ->
  exists next_species_id age compat_thres has_best_genome_ever des1,
    des = TNat next_species_id :: TNat age :: TReal compat_thres
            :: TBool has_best_genome_ever :: des1 /\
    m_next_species_id d' = next_species_id /\
    m_age_of_best_genome_ever d' = age /\
    rand_engine (as_neat d') = rand_engine (as_neat d) /\
    params (as_neat d')
    = (if dynamic_compatibility_threshold (params (as_neat d))
       then set_compatibility_threshold compat_thres (params (as_neat d))
       else params (as_neat d)) /\
    if has_best_genome_ever
    then exists best, m_best_genome_ever d' = Some best /\ m_fitness best = 0%Q
    else m_best_genome_ever d' = m_best_genome_ever d.
Proof.
  unfold helper_deserialize_base_neat. intros Hd.
  destruct des as [|[k| |] des]; try done. cbn [get_next_nat mbind option_bind] in Hd.
  destruct des as [|[a| |] des]; try done. cbn [get_next_nat mbind option_bind] in Hd.
  destruct des as [|[|t|] des]; try done. cbn [get_next_real mbind option_bind] in Hd.
  destruct des as [|[| |b] des]; try done. cbn [get_next_bool mbind option_bind] in Hd.
  exists k, a, t, b, des. split; [done|].
  set (p := if dynamic_compatibility_threshold _ then _ else _) in *.
  set (n := mk_neat p _ _) in *.
  destruct b.
  - destruct (get (genome_ctor n) des) as [[best_g des2]|]; [|done].
    cbn [mbind option_bind] in Hd.
    destruct (get_next_nat des2) as [[ns des3]|]; [|done]. cbn [mbind option_bind] in Hd.
    destruct (get_many _ ns des3) as [[sp des4]|]; [|done]. cbn [mbind option_bind] in Hd.
    destruct (get_next_nat des4) as [[ng des5]|]; [|done]. cbn [mbind option_bind] in Hd.
    destruct (get_many _ ng des5) as [[lib des6]|]; [|done]. cbn [mbind option_bind] in Hd.
    destruct (get (innov_pool n) des6) as [[pool des7]|]; [|done].
    cbn [mbind option_bind] in Hd. injection Hd as <- <-. cbn.
    repeat split; try done. by exists (genome_move best_g).
  - cbn [mbind option_bind] in Hd.
    destruct (get_next_nat des) as [[ns des3]|]; [|done]. cbn [mbind option_bind] in Hd.
    destruct (get_many _ ns des3) as [[sp des4]|]; [|done]. cbn [mbind option_bind] in Hd.
    destruct (get_next_nat des4) as [[ng des5]|]; [|done]. cbn [mbind option_bind] in Hd.
    destruct (get_many _ ng des5) as [[lib des6]|]; [|done]. cbn [mbind option_bind] in Hd.
    destruct (get (innov_pool n) des6) as [[pool des7]|]; [|done].
    cbn [mbind option_bind] in Hd. injection Hd as <- <-. cbn.
    repeat split; done.
Qed.

End DeserializeInto.

Lemma helper_deserialize_base_neat_keeps_witness :
  exists d',
    helper_deserialize_base_neat species_id_ctor dynamic_driver bare_stream
    = Some (d', []) /\
    compatibility_threshold (params (as_neat d')) = 7%Q /\
    m_best_genome_ever d' = None.
Proof.
  assert (Hrun : helper_deserialize_base_neat species_id_ctor dynamic_driver bare_stream
                 = Some (mk_base_neat
                           (mk_neat (set_compatibility_threshold 7
                                       (params (as_neat dynamic_driver)))
                                    seed_pool [42]) [] [] 5 None 2, []))
    by reflexivity.
  eexists. split; [exact Hrun|].
  destruct (helper_deserialize_base_neat_keeps species_id_ctor _ _ _ _ Hrun)
    as (k & a & t & b & des1 & Hdes & _ & _ & _ & Hp & Hb).
  injection Hdes as _ _ <- <- _. split; [|exact Hb].
  cbn [fresh_driver base_neat_ctor as_neat params] in Hp. done.
Defined.

End DeserializeKeeps.

(** ** The initial population of the first revision *)

Section InitialPopulationFirstRevision.

Section InitialPopulation.

Import FirstRevisionInit.

Lemma derived_from_refl initial :
  known_layout initial -> endpoints_known initial -> derived_from initial initial.
Proof. intros HL HK. split; [done|]. split; [done|]. by repeat split. Qed.

Lemma random_mutate_derived g initial self n :
  derived_from initial self -> derived_from initial (random_mutate g self n).1.1.2.
Proof.
  intros (HL & HK & HI & HO & HP). unfold random_mutate.
  destruct (uniform_int 0 _ (rand_engine n)) as [rnd_val e1].
  set (m := select_mutation (params n) rnd_val). set (n1 := set_rand_engine e1 n).
  destruct (apply_mutation_known_layout m g self n1 HL) as (HL' & HP' & HI' & HO').
  split; [done|]. split; [by apply apply_mutation_endpoints_known|].
  split; [congruence|]. split; [congruence|]. by etrans.
Qed.

Lemma mutate_loop_derived fuel tries k g initial self n r :
  mutate_loop fuel tries k g self n = Some r ->
  derived_from initial self ->
  derived_from initial (offspring r) /\ pool_ext (innov_pool n) (innov_pool (run_neat r)).
Proof.
  revert tries k g self n. induction fuel as [|fuel IH]; intros tries k g self n Hr HD; [done|].
  cbn [mutate_loop] in Hr.
  pose proof (random_mutate_derived g initial self n HD) as HD1.
  pose proof (random_mutate_pool_ext g self n) as HP1.
  destruct (random_mutate g self n) as [[[ok self1] n1] g1]. cbn [fst snd] in HD1, HP1.
  destruct ok.
  - injection Hr as <-. done.
  - destruct (tries =? 0)%Z.
    + injection Hr as <-. done.
    + destruct (IH _ _ _ _ _ Hr HD1) as [HD2 HP2]. split; [done|].
      by eapply pool_ext_trans.
Qed.

(** X24.  In the first revision, [init(const genome&)] fills the population
    with exactly [initial_population_size] genomes and never fails to.  Each
    of them has fitness 0 and, when the initial genome had the constructor's
    layout of known neurons and knew the endpoints of its genes, so does
    each of them, with the same numbers of inputs and outputs and the known
    neurons of the initial genome at the same positions.  The pool at the
    end extends the pool at the start. *)
Theorem first_revision_init_populates count g initial n :
  known_layout initial -> endpoints_known initial ->
  exists pop n' g',
    populate count g initial n [] = Some (pop, n', g') /\
    length pop = count /\
    Forall (fun x => m_fitness x = 0%Q /\ derived_from initial x) pop /\
    pool_ext (innov_pool n) (innov_pool n').
Proof.
  intros HL HK.
  assert (Hgen : forall count g n acc,
    Forall (fun x => m_fitness x = 0%Q /\ derived_from initial x) acc ->
    exists pop n' g',
      populate count g initial n acc = Some (pop, n', g') /\
      length pop = length acc + count /\
      Forall (fun x => m_fitness x = 0%Q /\ derived_from initial x) pop /\
      pool_ext (innov_pool n) (innov_pool n')).
  { clear count g n. induction count as [|count IH]; intros g n acc Hacc.
    - exists acc, n, g. split; [done|]. split; [lia|]. split; [done|apply pool_ext_refl].
    - cbn [populate]. unfold get_random_mutation.
      destruct (mutate_loop_attempts 4 3%Z 0 g initial n) as (r & Hr & _); [lia|cbn; lia|].
      rewrite Hr. cbn [mbind option_bind offspring run_static run_neat].
      destruct (mutate_loop_derived _ _ _ _ initial _ _ _ Hr) as [HD HP];
        [by apply derived_from_refl|].
      destruct (IH (run_static r) (run_neat r) (acc ++ [genome_move (offspring r)]))
        as (pop & n' & g' & Hrun & Hlen & HF & HP').
      { apply Forall_app. split; [done|]. constructor; [|done]. split; [done|].
        destruct HD as (H1 & H2 & H3 & H4 & H5).
        split; [done|]. split; [done|]. by repeat split. }
      exists pop, n', g'. split; [done|]. split.
      + rewrite Hlen, length_app. cbn. lia.
      + split; [done|]. by eapply pool_ext_trans. }
  destruct (Hgen count g n []) as (pop & n' & g' & Hrun & Hlen & HF & HP); [done|].
  exists pop, n', g'. done.
Qed.

End InitialPopulation.

Lemma first_revision_init_populates_witness :
  exists pop n' g',
    FirstRevisionInit.populate 3 [] seed_genome reuse_start [] = Some (pop, n', g') /\
    length pop = 3 /\
    Forall (fun x => m_fitness x = 0%Q /\ derived_from seed_genome x) pop /\
    pool_ext (innov_pool reuse_start) (innov_pool n').
Proof.
  apply (first_revision_init_populates 3 [] seed_genome reuse_start).
  - split; [cbn; apply (NoDup_seq 0 4)|by exists []].
  - apply genome_of_genes_endpoints_known.
Defined.

End InitialPopulationFirstRevision.

(** ** Innovation numbers stay below the counter *)

Section InnovationsBelowCounter.

Lemma register_gene_next_innovation g p :
  m_next_innovation (register_gene g p) = m_next_innovation p.
Proof. unfold register_gene. by destruct (m_all_genes p !! _). Qed.

Lemma register_innovation_next_innovation r p :
  m_next_innovation (register_innovation r p) = m_next_innovation p.
Proof. unfold register_innovation. by destruct (m_all_innovations p !! _). Qed.

Lemma pool_below_next_innovation p : pool_below p -> pool_below (next_innovation p).2.
Proof.
  intros [B1 B2]. split.
  - intros f t c Hc. specialize (B1 f t c Hc). cbn. lia.
  - intros k f t r Hr. destruct (B2 k f t r Hr) as [H1 H2]. cbn. split; [lia|].
    intros Hk. specialize (H2 Hk). lia.
Qed.

Lemma pool_below_next_hidden_neuron_id p :
  pool_below p -> pool_below (next_hidden_neuron_id p).2.
Proof. intros [B1 B2]. split; [exact B1|exact B2]. Qed.

Lemma pool_below_register_gene g p :
  innov_num g < m_next_innovation p -> pool_below p -> pool_below (register_gene g p).
Proof.
  intros Hg [B1 B2]. unfold register_gene.
  destruct (m_all_genes p !! (from g, to g)) eqn:E; [done|]. split.
  - intros f t c. unfold find_gene. cbn.
    destruct (decide ((from g, to g) = (f, t))) as [Heq|Hne].
    + rewrite Heq, lookup_insert_eq. by intros [= <-].
    + rewrite lookup_insert_ne by done. apply B1.
  - exact B2.
Qed.

Lemma pool_below_register_innovation r p :
  inn_innov_num r < m_next_innovation p ->
  (inn_type r = NEW_NEURON -> inn_innov_num_2 r < m_next_innovation p) ->
  pool_below p -> pool_below (register_innovation r p).
Proof.
  intros H1 H2 [B1 B2]. unfold register_innovation.
  destruct (m_all_innovations p !! (inn_type r, inn_from r, inn_to r)) eqn:E; [done|].
  split; [exact B1|].
  intros k f t r'. unfold find_innovation. cbn.
  destruct (decide ((inn_type r, inn_from r, inn_to r) = (k, f, t))) as [Heq|Hne].
  - rewrite Heq, lookup_insert_eq. by intros [= <-].
  - rewrite lookup_insert_ne by done. apply B2.
Qed.

Lemma empty_pool_below a b : pool_below (empty_pool a b).
Proof.
  split.
  - intros f t c. unfold find_gene. cbn. by rewrite lookup_empty.
  - intros k f t r. unfold find_innovation. cbn. by rewrite lookup_empty.
Qed.

Lemma genome_below_add_gene p x self :
  innov_num x < m_next_innovation p -> genome_below p self ->
  genome_below p (add_gene x self).
Proof.
  intros Hx HB. unfold genome_below. rewrite add_gene_genes.
  apply Forall_app. split; [done|]. by constructor.
Qed.

Lemma genome_below_mono p p' self :
  m_next_innovation p <= m_next_innovation p' -> genome_below p self ->
  genome_below p' self.
Proof.
  intros Hle HB. eapply Forall_impl; [exact HB|]. intros x Hx. cbn in Hx. lia.
Qed.

Lemma genome_below_set_genes p gs self :
  map innov_num gs ⊆ map innov_num (m_genes self) ->
  genome_below p self -> genome_below p (set_genes gs self).
Proof.
  intros Hsub HB. unfold genome_below. cbn [set_genes m_genes].
  apply Forall_forall. intros y Hy.
  assert (Hin : innov_num y ∈ map innov_num (m_genes self)).
  { apply Hsub. apply list_elem_of_fmap. by exists y. }
  apply list_elem_of_fmap in Hin as (x & -> & Hx).
  by apply (proj1 (Forall_forall _ _) HB).
Qed.

Lemma mutate_add_link_below self n :
  pool_below (innov_pool n) -> genome_below (innov_pool n) self ->
  let '(ok, self', n') := mutate_add_link self n in
  pool_below (innov_pool n') /\ genome_below (innov_pool n') self' /\
  m_next_innovation (innov_pool n) <= m_next_innovation (innov_pool n')
  <= m_next_innovation (innov_pool n) + 1.
Proof.
  intros HP HG. unfold mutate_add_link.
  destruct (uniform_int 0 _ (rand_engine n)) as [from_ e1].
  destruct (uniform_int 0 _ e1) as [d e2].
  destruct (link_exists self _ _); [cbn; split; [done|]; split; [done|lia]|].
  destruct (find_gene (innov_pool n) _ _) as [c|] eqn:F.
  - destruct (uniform_real _ _ e2) as [w e3]. cbn [innov_pool set_rand_engine].
    split; [done|]. split; [|lia]. apply genome_below_add_gene; [|done].
    cbn [set_weight innov_num]. by eapply (proj1 HP).
  - unfold next_innovation. destruct (uniform_real _ _ e2) as [w e3].
    cbn [innov_pool]. set (p1 := mk_pool _ _ _ _).
    assert (HP1 : pool_below p1) by by apply (pool_below_next_innovation (innov_pool n)).
    split; [|split].
    + apply pool_below_register_innovation; [| |apply pool_below_register_gene; [|done]];
        rewrite ?register_gene_next_innovation; cbn; try lia; done.
    + apply genome_below_add_gene.
      * rewrite register_innovation_next_innovation, register_gene_next_innovation.
        cbn. lia.
      * eapply genome_below_mono; [|done].
        rewrite register_innovation_next_innovation, register_gene_next_innovation.
        cbn. lia.
    + rewrite register_innovation_next_innovation, register_gene_next_innovation.
      cbn. lia.
Qed.

Lemma mutate_add_neuron_below g self n :
  pool_wf (innov_pool n) ->
  pool_below (innov_pool n) -> genome_below (innov_pool n) self ->
  let '(ok, self', n', g') := mutate_add_neuron g self n in
  pool_below (innov_pool n') /\ genome_below (innov_pool n') self' /\
  m_next_innovation (innov_pool n) <= m_next_innovation (innov_pool n')
  <= m_next_innovation (innov_pool n) + 2.
Proof.
  intros [_ W2] HP HG. unfold mutate_add_neuron.
  destruct (shuffle _ _ g) as [candidates_idx g'].
  destruct (find _ candidates_idx) as [sel_idx|]; [|split; [done|]; split; [done|lia]].
  set (self1 := set_genes (alter (set_enabled false) sel_idx (m_genes self)) self).
  assert (HG1 : genome_below (innov_pool n) self1).
  { apply genome_below_set_genes; [|done]. by rewrite map_innov_alter. }
  destruct (find_innovation (innov_pool n) NEW_NEURON _ _) as [ex|] eqn:F.
  - destruct (proj2 HP _ _ _ _ F) as [H1 H2].
    destruct (W2 _ _ _ _ F) as (Hty & _ & _). specialize (H2 Hty).
    split; [done|]. split; [|lia].
    apply genome_below_add_gene; [done|]. by apply genome_below_add_gene.
  - unfold next_hidden_neuron_id, next_innovation.
    cbn [m_next_innovation m_next_hidden_neuron_id m_all_genes m_all_innovations
         innov_pool set_innov_pool].
    set (k := m_next_innovation (innov_pool n)).
    set (p3 := mk_pool (S (S k)) _ _ _).
    assert (HP3 : pool_below p3).
    { apply (pool_below_next_innovation (mk_pool (S k) _ _ _)).
      apply (pool_below_next_innovation (mk_pool k _ _ _)).
      apply (pool_below_next_hidden_neuron_id (innov_pool n)). done. }
    split; [|split].
    + apply pool_below_register_innovation;
        rewrite ?register_gene_next_innovation; cbn; try lia.
      apply pool_below_register_gene;
        rewrite ?register_gene_next_innovation; cbn; try lia.
      apply pool_below_register_gene; cbn; try lia. done.
    + unfold genome_below.
      rewrite register_innovation_next_innovation, !register_gene_next_innovation.
      cbn [m_next_innovation p3].
      rewrite !add_gene_genes, !Forall_app. split; [split|].
      * eapply Forall_impl; [exact HG1|]. intros x Hx. cbn in Hx. fold k in Hx. lia.
      * constructor; [cbn; lia|done].
      * constructor; [cbn; lia|done].
    + rewrite register_innovation_next_innovation, !register_gene_next_innovation.
      cbn. lia.
Qed.

(** X25.  Innovation numbers never run ahead of the pool.  When the pool is
    keyed consistently, every number it has on record is below its counter
    and so is the number of every gene of the genome, then the same holds
    after [random_mutate], whichever operator ran; the counter has not
    decreased and has grown by at most 2.  A number that [next_innovation]
    hands out is therefore carried by no gene and no record. *)
Theorem random_mutate_keeps_innovations_below g self n :
  pool_wf (innov_pool n) ->
  pool_below (innov_pool n) -> genome_below (innov_pool n) self ->
  let '(ok, self', n', g') := random_mutate g self n in
  pool_below (innov_pool n') /\ genome_below (innov_pool n') self' /\
  m_next_innovation (innov_pool n) <= m_next_innovation (innov_pool n')
  <= m_next_innovation (innov_pool n) + 2.
Proof.
  intros HW HP HG. unfold random_mutate.
  destruct (uniform_int 0 _ (rand_engine n)) as [rnd_val e1].
  set (n1 := set_rand_engine e1 n).
  assert (Hsame : forall gs e,
    map innov_num gs ⊆ map innov_num (m_genes self) ->
    pool_below (innov_pool (set_rand_engine e n1)) /\
    genome_below (innov_pool (set_rand_engine e n1)) (set_genes gs self) /\
    m_next_innovation (innov_pool n) <= m_next_innovation (innov_pool (set_rand_engine e n1))
    <= m_next_innovation (innov_pool n) + 2).
  { intros gs e Hsub. cbn [set_rand_engine innov_pool n1].
    split; [done|]. split; [by apply genome_below_set_genes|lia]. }
  assert (Hid : pool_below (innov_pool n1) /\ genome_below (innov_pool n1) self /\
    m_next_innovation (innov_pool n) <= m_next_innovation (innov_pool n1)
    <= m_next_innovation (innov_pool n) + 2).
  { cbn. split; [done|]. split; [done|lia]. }
  destruct (select_mutation (params n) rnd_val); cbn [apply_mutation].
  - pose proof (mutate_add_link_below self n1 HP HG) as H.
    destruct (mutate_add_link self n1) as [[ok self'] n']. cbn in H |- *.
    destruct H as (H1 & H2 & H3). split; [done|]. split; [done|lia].
  - pose proof (mutate_add_neuron_below g self n1 HW HP HG) as H.
    by destruct (mutate_add_neuron g self n1) as [[[ok self'] n'] g'].
  - unfold mutate_all_weights.
    pose proof (perturb_each_innovs Qplus (- weight_mutation_power (params n1))
                  (weight_mutation_power (params n1)) (m_genes self) (rand_engine n1)) as HI.
    destruct (perturb_each _ _ _ _ _) as [gs e]. cbn [fst] in HI.
    apply Hsame. by rewrite HI.
  - unfold mutate_one_weight. destruct (m_genes self) as [|a gs] eqn:E; [done|].
    destruct (uniform_int 0 _ (rand_engine n1)) as [k e]. destruct (uniform_real _ _ e) as [d e2].
    apply Hsame. by rewrite map_innov_alter.
  - unfold mutate_reset_weights.
    pose proof (perturb_each_innovs (fun _ d => d) (- initial_weight_perturbation (params n1))
                  (initial_weight_perturbation (params n1)) (m_genes self) (rand_engine n1)) as HI.
    destruct (perturb_each _ _ _ _ _) as [gs e]. cbn [fst] in HI.
    apply Hsame. by rewrite HI.
  - unfold mutate_remove_gene. destruct (m_genes self) as [|a gs] eqn:E; [done|].
    destruct (uniform_int 0 _ (rand_engine n1)) as [k e].
    apply Hsame. rewrite map_innov_delete. apply list_subseteq_delete.
  - unfold mutate_reenable_gene. destruct (disabled_candidates _) as [|c cs]; [done|].
    destruct (uniform_int 0 _ (rand_engine n1)) as [k e].
    apply Hsame. by rewrite map_innov_alter.
  - unfold mutate_toggle_enable. destruct (m_genes self) as [|a gs] eqn:E; [done|].
    destruct (uniform_int 0 _ (rand_engine n1)) as [k e].
    apply Hsame. by rewrite map_innov_alter.
Qed.

Lemma random_mutate_keeps_innovations_below_witness :
  let '(ok, self', n', g') := random_mutate [] seed_genome split_start in
  pool_below (innov_pool n') /\ genome_below (innov_pool n') self' /\
  m_next_innovation (innov_pool split_start) <= m_next_innovation (innov_pool n')
  <= m_next_innovation (innov_pool split_start) + 2.
Proof.
  apply (random_mutate_keeps_innovations_below [] seed_genome split_start).
  - apply empty_pool_wf.
  - apply empty_pool_below.
  - repeat constructor.
Defined.

End InnovationsBelowCounter.

(** ** The constructors of the driver *)

Section DriverConstructors.

Section Constructors.

Context {species : Type}.
Implicit Types d : @base_neat species.

(** X26.  The copy constructor of the driver reads through
    [m_best_genome_ever] without a test: copying dereferences a null pointer
    exactly when the driver copied has no best genome, as is the case for
    every driver fresh from its constructor.  Once
    [update_best_genome_ever] has run, the copy is made; it agrees with the
    original in everything but the engine. *)
Theorem base_neat_copy_needs_best_genome :
  (forall d seed, base_neat_copy d seed = None <-> m_best_genome_ever d = None) /\
  (forall p pool seed seed',
     base_neat_copy (@base_neat_ctor species p pool seed) seed' = None) /\
  (forall pop d d' seed,
     update_best_genome_ever pop d = Some d' ->
     exists c, base_neat_copy d' seed = Some c /\
               params (as_neat c) = params (as_neat d') /\
               innov_pool (as_neat c) = innov_pool (as_neat d') /\
               rand_engine (as_neat c) = seed /\
               m_all_species c = m_all_species d' /\
               m_best_genomes_library c = m_best_genomes_library d' /\
               m_next_species_id c = m_next_species_id d' /\
               m_best_genome_ever c = m_best_genome_ever d' /\
               m_age_of_best_genome_ever c = m_age_of_best_genome_ever d').
Proof.
  split; [|split].
  - intros d seed. unfold base_neat_copy. by destruct (m_best_genome_ever d).
  - done.
  - intros pop d d' seed Hupd.
    assert (Hb : is_Some (m_best_genome_ever d')).
    { unfold update_best_genome_ever in Hupd.
      destruct (m_best_genome_ever d) as [b0|] eqn:Eb;
        destruct (get_current_best_genome pop) as [c|]; cbn in Hupd; try done.
      - destruct (Qgt_bool _ _); injection Hupd as <-; [done|]. by rewrite Eb.
      - by injection Hupd as <-. }
    destruct Hb as [b Hb]. unfold base_neat_copy. rewrite Hb. cbn.
    eexists. split; [reflexivity|]. cbn. by rewrite ?Hb.
Qed.

End Constructors.

Lemma foldl_add_gene_known_wf gs base :
  known_wf base -> known_wf (foldl (fun self x => add_gene x self) base gs).
Proof.
  revert base. induction gs as [|x gs IH]; intros base HK; [done|].
  cbn [foldl]. apply IH. by apply add_gene_known_wf.
Qed.

(** X27.  The constructor of the driver rejects parameters without an input
    or without an output.  For parameters it accepts, a genome fresh from
    its constructor holds the bias, the inputs and at least one more known
    neuron, which is what keeps the size computations of [mutate_add_link]
    from wrapping, and the seed genome of [init] has at least two genes.
    Without an output neither holds: the known-neurons vector stops at the
    last input and the seed genome has no gene. *)
Theorem ctor_check_guards_genomes w0 n :
  (ctor_throws (params n) = false <->
   0 < number_of_inputs (params n) /\ 0 < number_of_outputs (params n)) /\
  (ctor_throws (params n) = false ->
   known_wf (genome_ctor n) /\ known_wf (init_initial_genome w0 n).1 /\
   2 <= length (m_genes (init_initial_genome w0 n).1)) /\
  (number_of_outputs (params n) = 0 ->
   ~ known_wf (genome_ctor n) /\ m_genes (init_initial_genome w0 n).1 = []).
Proof.
  assert (Hiff : ctor_throws (params n) = false <->
    0 < number_of_inputs (params n) /\ 0 < number_of_outputs (params n)).
  { unfold ctor_throws. rewrite orb_false_iff, !Nat.eqb_neq. lia. }
  pose proof (init_initial_genome_unfold w0 n) as Hinit. cbn zeta in Hinit.
  split; [exact Hiff|]. split.
  - intros Hok. apply Hiff in Hok as [HI HO].
    split; [by apply genome_ctor_known_wf|]. rewrite Hinit. cbn [fst]. split.
    + apply foldl_add_gene_known_wf. by apply genome_ctor_known_wf.
    + rewrite foldl_add_gene_genes. cbn [genome_ctor m_genes app].
      pose proof (f_equal length (seed_rows_innovs w0 (number_of_inputs (params n))
        (number_of_outputs (params n)) (m_next_innovation (innov_pool n))
        (S (number_of_inputs (params n))))) as Hlen.
      rewrite length_map, length_seq in Hlen. rewrite Hlen. nia.
  - intros HO. split.
    + unfold known_wf. rewrite genome_ctor_known.
      cbn [genome_ctor m_number_of_inputs]. rewrite length_seq. lia.
    + rewrite Hinit. cbn [fst]. rewrite foldl_add_gene_genes. cbn [genome_ctor m_genes app].
      pose proof (f_equal length (seed_rows_innovs w0 (number_of_inputs (params n))
        (number_of_outputs (params n)) (m_next_innovation (innov_pool n))
        (S (number_of_inputs (params n))))) as Hlen.
      rewrite length_map, length_seq, HO, Nat.mul_0_r in Hlen.
      rewrite HO. by apply nil_length_inv.
Qed.

End DriverConstructors.
